(** * FakeGotchi subgraph / contract comparison: a shallow embedding

    The development follows the two TypeScript programs of the repository,
    [subgraph-comparison.ts] and [contract-comparison.ts], and the token
    metadata export that comes after the second one in
    [src/contract-comparison.ts].

    - JavaScript [string]s are [string]s, compared with [=] ([===] on strings
      is code-unit equality).
    - JavaScript [number]s that hold counts, indices and edition numbers are
      integers ([Z], [nat] for array indices and lengths); every count below is
      bounded by an array length, far inside the exactly representable range.
    - A [Map] keeps its entries in insertion order: it is an association list
      ([JSMap]); a [Set] is a duplicate-free list in insertion order ([JSSet]).
    - A plain object used as a dictionary ([Record<string, _>]) is a finite
      map ([gmap string _]) of its own properties; the order in which
      [Object.entries] enumerates it is not modelled, so statements about
      code that walks such an object speak about membership, not about
      order.  Where the code reads [object[key]] or assigns to it, the names
      inherited from [Object.prototype] are accounted for: a read finds the
      inherited value, and an assignment to ["__proto__"] adds no own
      property.
    - [null] / [undefined] in a field is [None]. *)

From Stdlib Require Import ZArith String List Lia DecimalString.
From stdpp Require Import base tactics option list strings gmap fin_maps pretty.

Open Scope string_scope.
Open Scope list_scope.

(** ** [Map]: insertion-ordered association list keyed by strings *)

Module JSMap.

Abbreviation t V := (list (string * V)) (only parsing).

Definition empty {V} : t V := [].

(** [m.get(k)] *)
Fixpoint get {V} (k : string) (m : t V) : option V :=
  match m with
  | [] => None
  | (k', v) :: m' => if decide (k' = k) then Some v else get k m'
  end.

(** [m.has(k)] *)
Definition has {V} (k : string) (m : t V) : bool :=
  match get k m with Some _ => true | None => false end.

(** [m.set(k, v)]: an existing key keeps its position, a new key goes last. *)
Fixpoint set {V} (k : string) (v : V) (m : t V) : t V :=
  match m with
  | [] => [(k, v)]
  | (k', v') :: m' =>
      if decide (k' = k) then (k, v) :: m' else (k', v') :: set k v m'
  end.

(** [new Map(entries)] *)
Definition from_entries {V} (entries : list (string * V)) : t V :=
  foldl (fun m e => set e.1 e.2 m) empty entries.

(** [m.keys()] and [m.values()], in insertion order. *)
Definition keys {V} (m : t V) : list string := m.*1.
Definition values {V} (m : t V) : list V := m.*2.

End JSMap.

(** ** [Set] of strings, in insertion order *)

Module JSSet.

Abbreviation t := (list string) (only parsing).

Definition has (k : string) (s : t) : bool := bool_decide (k ∈ s).

Definition add (k : string) (s : t) : t :=
  if has k s then s else s ++ [k].

(** [new Set(items)] *)
Definition from_list (items : list string) : t :=
  foldl (fun s k => add k s) [] items.

End JSSet.

(** [n.toString()] for a non-negative integer: decimal digits. *)
Definition toString (n : nat) : string := pretty n.

(** ** subgraph-comparison.ts *)

Module FakeGotchiNFTToken.
Record t : Type := mk {
  id : string;
  identifier : string;
  name : string;
  artistName : string;
  editions : Z
}.
End FakeGotchiNFTToken.

Module Collection.
Record t : Type := mk {
  id : string;
  name : string;
  artistName : string;
  editions : Z;
  tokenIds : list string
}.
End Collection.

(** The object literals [{name, artistName, editions, identifier}] and
    [{name, artistName, editions}] stored in a difference record. *)
Module TokenSnapshot.
Record t : Type := mk {
  name : string;
  artistName : string;
  editions : Z;
  identifier : string
}.
End TokenSnapshot.

Module CollectionSnapshot.
Record t : Type := mk {
  name : string;
  artistName : string;
  editions : Z
}.
End CollectionSnapshot.

(** A difference record [{id, differences, subgraph1, prod}]. *)
Module Difference.
Record t (S : Type) : Type := mk {
  id : string;
  differences : list string;
  subgraph1 : option S;
  prod : option S
}.
Arguments mk {S} _ _ _ _.
Arguments id {S} _.
Arguments differences {S} _.
Arguments subgraph1 {S} _.
Arguments prod {S} _.
End Difference.

(** The [variables] of one GraphQL request. *)
Module Variables.
Record t : Type := mk {
  first : Z;
  skip : Z;
  orderBy : string
}.
End Variables.

Module Subgraph.

Abbreviation Token := FakeGotchiNFTToken.t.

(** [`${token.name}-${token.artistName}`] *)
Definition collectionKey (token : Token) : string :=
  (FakeGotchiNFTToken.name token ++ "-" ++ FakeGotchiNFTToken.artistName token)%string.

(** One turn of the [for (const token of tokens)] loop of
    [groupIntoCollections].  [collection.editions++] and
    [collection.tokenIds.push(..)] mutate the object stored in the map: the
    entry is rewritten where it stands.  [collections.get(key)!] is read only
    after [collections.has(key)], so its [undefined] case is never taken. *)
Definition group_step (collections : JSMap.t Collection.t) (token : Token)
  : JSMap.t Collection.t :=
  let collectionKey := collectionKey token in
  if JSMap.has collectionKey collections then
    match JSMap.get collectionKey collections with
    | Some collection =>
        JSMap.set collectionKey
          (Collection.mk (Collection.id collection)
             (Collection.name collection)
             (Collection.artistName collection)
             (Collection.editions collection + 1)
             (Collection.tokenIds collection
              ++ [FakeGotchiNFTToken.identifier token]))
          collections
    | None => collections
    end
  else
    JSMap.set collectionKey
      (Collection.mk ""
         (FakeGotchiNFTToken.name token)
         (FakeGotchiNFTToken.artistName token)
         1
         [FakeGotchiNFTToken.identifier token])
      collections.

(** The map after the loop has consumed [tokens]. *)
Definition group_loop (tokens : list Token) : JSMap.t Collection.t :=
  foldl group_step JSMap.empty tokens.

(** [{...collection, id}] *)
Definition with_id (id : string) (collection : Collection.t) : Collection.t :=
  Collection.mk id
    (Collection.name collection)
    (Collection.artistName collection)
    (Collection.editions collection)
    (Collection.tokenIds collection).

Definition groupIntoCollections (tokens : list Token) : list Collection.t :=
  let collections := group_loop tokens in
  let collectionsArray := JSMap.values collections in
  imap (fun index collection => with_id (toString (index + 1)) collection)
       collectionsArray.

(** The tokens of [tokens] filed under key [k], in input order, and the
    entry the loop holds for [k] once it has consumed [tokens]; used to
    state what the loop computes. *)
Definition members (k : string) (tokens : list Token) : list Token :=
  filter (fun token => collectionKey token = k) tokens.

Definition collect (k : string) (tokens : list Token) : Collection.t :=
  let ms := members k tokens in
  Collection.mk ""
    (from_option FakeGotchiNFTToken.name "" (head ms))
    (from_option FakeGotchiNFTToken.artistName "" (head ms))
    (Z.of_nat (length ms))
    (FakeGotchiNFTToken.identifier <$> ms).

(** The grouping key as read back from a collection. *)
Definition collection_key (collection : Collection.t) : string :=
  (Collection.name collection ++ "-" ++ Collection.artistName collection)%string.

(** The (name, artistName) pair of a token. *)
Definition collectionPair (token : Token) : string * string :=
  (FakeGotchiNFTToken.name token, FakeGotchiNFTToken.artistName token).

(** The distinct elements of a list in order of first appearance. *)
Fixpoint first_seen {A} `{EqDecision A} (l : list A) : list A :=
  match l with
  | [] => []
  | x :: l' => x :: filter (fun y => y <> x) (first_seen l')
  end.

(** [editionCount == length(memberTokenIds)] *)
Definition edition_count_ok (collection : Collection.t) : Prop :=
  Collection.editions collection = Z.of_nat (length (Collection.tokenIds collection)).

Definition total_editions (collections : list Collection.t) : Z :=
  foldr (fun collection acc => (Collection.editions collection + acc)%Z) 0%Z
    collections.

(** *** findDifferences *)

Definition tokenSnapshot (item : Token) : TokenSnapshot.t :=
  TokenSnapshot.mk (FakeGotchiNFTToken.name item)
    (FakeGotchiNFTToken.artistName item)
    (FakeGotchiNFTToken.editions item)
    (FakeGotchiNFTToken.identifier item).

(** [item[field]] for the three compared fields: a string or a number. *)
Definition token_field (field : string) (item : Token) : option (string + Z) :=
  if decide (field = "name") then Some (inl (FakeGotchiNFTToken.name item))
  else if decide (field = "artistName") then
    Some (inl (FakeGotchiNFTToken.artistName item))
  else if decide (field = "editions") then
    Some (inr (FakeGotchiNFTToken.editions item))
  else None.

(** The inner loop: the fields on which [item1] and [item2] differ ([!==]). *)
Definition diffFields (item1 item2 : Token) : list string :=
  filter (fun field => token_field field item1 <> token_field field item2)
    ["name"; "artistName"; "editions"].

(** One turn of the loop over [data1]. *)
Definition diff_step1 (data2Map : JSMap.t Token)
    (differencesMap : JSMap.t (Difference.t TokenSnapshot.t)) (item1 : Token)
  : JSMap.t (Difference.t TokenSnapshot.t) :=
  match JSMap.get (FakeGotchiNFTToken.identifier item1) data2Map with
  | None =>
      JSMap.set (FakeGotchiNFTToken.identifier item1)
        (Difference.mk (FakeGotchiNFTToken.identifier item1)
           ["missing_in_prod"] (Some (tokenSnapshot item1)) None)
        differencesMap
  | Some item2 =>
      let diffFields := diffFields item1 item2 in
      if bool_decide (0 < length diffFields) then
        JSMap.set (FakeGotchiNFTToken.identifier item1)
          (Difference.mk (FakeGotchiNFTToken.identifier item1)
             diffFields (Some (tokenSnapshot item1)) (Some (tokenSnapshot item2)))
          differencesMap
      else differencesMap
  end.

(** One turn of the loop over [data2]. *)
Definition diff_step2 (data1Ids : JSSet.t)
    (differencesMap : JSMap.t (Difference.t TokenSnapshot.t)) (item2 : Token)
  : JSMap.t (Difference.t TokenSnapshot.t) :=
  if JSSet.has (FakeGotchiNFTToken.identifier item2) data1Ids then differencesMap
  else
    JSMap.set (FakeGotchiNFTToken.identifier item2)
      (Difference.mk (FakeGotchiNFTToken.identifier item2)
         ["missing_in_subgraph1"] None (Some (tokenSnapshot item2)))
      differencesMap.

Definition findDifferences (data1 data2 : list Token)
  : list (Difference.t TokenSnapshot.t) :=
  let data2Map :=
    JSMap.from_entries
      ((fun item => (FakeGotchiNFTToken.identifier item, item)) <$> data2) in
  let differencesMap := foldl (diff_step1 data2Map) JSMap.empty data1 in
  let data1Ids := JSSet.from_list (FakeGotchiNFTToken.identifier <$> data1) in
  let differencesMap := foldl (diff_step2 data1Ids) differencesMap data2 in
  JSMap.values differencesMap.

(** Every entry of a map of difference records is stored under its own id. *)
Definition named_by_id {S} (m : JSMap.t (Difference.t S)) : Prop :=
  Forall (fun e => Difference.id e.2 = e.1) m.

(** *** findCollectionDifferences *)

Definition collectionSnapshot (col : Collection.t) : CollectionSnapshot.t :=
  CollectionSnapshot.mk (Collection.name col) (Collection.artistName col)
    (Collection.editions col).

Definition diffTypes (col1 col2 : Collection.t) : list string :=
  (if decide (Collection.name col1 = Collection.name col2) then [] else ["name"])
  ++ (if decide (Collection.artistName col1 = Collection.artistName col2)
      then [] else ["artistName"])
  ++ (if decide (Collection.editions col1 = Collection.editions col2)
      then [] else ["editions"]).

(** The body of the [for] loop at index [i].  Reading [col2.name] when
    [col2] is [undefined] throws a [TypeError]: that is [None]. *)
Definition collection_step (collections1 collections2 : list Collection.t)
    (differencesMap : JSMap.t (Difference.t CollectionSnapshot.t)) (i : nat)
  : option (JSMap.t (Difference.t CollectionSnapshot.t)) :=
  let col1 := collections1 !! i in
  let col2 := collections2 !! i in
  let id := toString i in
  match col1 with
  | None =>
      col2 ← col2;
      Some (JSMap.set id
              (Difference.mk id ["missing_in_subgraph1"] None
                 (Some (collectionSnapshot col2)))
              differencesMap)
  | Some col1 =>
      match col2 with
      | None =>
          Some (JSMap.set id
                  (Difference.mk id ["missing_in_prod"]
                     (Some (collectionSnapshot col1)) None)
                  differencesMap)
      | Some col2 =>
          let diffTypes := diffTypes col1 col2 in
          if bool_decide (0 < length diffTypes) then
            Some (JSMap.set id
                    (Difference.mk id diffTypes
                       (Some (collectionSnapshot col1))
                       (Some (collectionSnapshot col2)))
                    differencesMap)
          else Some differencesMap
      end
  end.

Definition findCollectionDifferences (collections1 collections2 : list Collection.t)
  : option (list (Difference.t CollectionSnapshot.t)) :=
  differencesMap ←
    foldl (fun acc i => differencesMap ← acc;
                        collection_step collections1 collections2 differencesMap i)
      (Some JSMap.empty)
      (seq 0 (Nat.max (length collections1) (length collections2)));
  Some (JSMap.values differencesMap).

(** The positional differ as the specification words it: for each index
    below the longer length, a missing-side record, or a record with both
    snapshots exactly when a compared field differs.  A snapshot is the
    name, the artist and the edition count of the collection, in this
    order; the tags name the differing fields in the order they are
    compared. *)
Definition positional_entry (left right : list Collection.t) (i : nat)
  : list (Difference.t CollectionSnapshot.t) :=
  match left !! i, right !! i with
  | None, Some r =>
      [Difference.mk (toString i) ["missing_in_subgraph1"] None
         (Some (CollectionSnapshot.mk (Collection.name r) (Collection.artistName r)
                  (Collection.editions r)))]
  | Some l, None =>
      [Difference.mk (toString i) ["missing_in_prod"]
         (Some (CollectionSnapshot.mk (Collection.name l) (Collection.artistName l)
                  (Collection.editions l)))
         None]
  | Some l, Some r =>
      if decide (Collection.name l = Collection.name r
                 /\ Collection.artistName l = Collection.artistName r
                 /\ Collection.editions l = Collection.editions r)
      then []
      else [Difference.mk (toString i)
              ((if decide (Collection.name l = Collection.name r)
                then [] else ["name"])
               ++ (if decide (Collection.artistName l = Collection.artistName r)
                   then [] else ["artistName"])
               ++ (if decide (Collection.editions l = Collection.editions r)
                   then [] else ["editions"]))
              (Some (CollectionSnapshot.mk (Collection.name l)
                       (Collection.artistName l) (Collection.editions l)))
              (Some (CollectionSnapshot.mk (Collection.name r)
                       (Collection.artistName r) (Collection.editions r)))]
  | None, None => []
  end.

Definition positional_spec (left right : list Collection.t)
  : list (Difference.t CollectionSnapshot.t) :=
  seq 0 (Nat.max (length left) (length right)) ≫= positional_entry left right.

(** *** fetchAllData *)

Definition batchSize : Z := 1000.
Definition maxResults : Z := 50000.

Section Fetch.
Context {Server : Type}.

(** One POST round trip: the subgraph answers the request with a batch and
    may have changed in the meantime. *)
Variable post : Server -> Variables.t -> list Token * Server.

(** The loop variables, and the exchanges made so far. *)
Record FetchState : Type := {
  allTokens : list Token;
  hasMore : bool;
  skip : Z;
  server : Server;
  exchanges : list (Variables.t * list Token)
}.

Definition fetch_iter (st : FetchState) : FetchState :=
  let variables := Variables.mk batchSize (skip st) "identifier" in
  let (batch, server') := post (server st) variables in
  if decide (length batch = 0) then
    {| allTokens := allTokens st; hasMore := false; skip := skip st;
       server := server'; exchanges := exchanges st ++ [(variables, batch)] |}
  else
    {| allTokens := allTokens st ++ batch; hasMore := hasMore st;
       skip := skip st + Z.of_nat (length batch);
       server := server'; exchanges := exchanges st ++ [(variables, batch)] |}.

(** [while (hasMore && allTokens.length < maxResults)], with a bound on the
    number of turns. *)
Fixpoint fetch_while (fuel : nat) (st : FetchState) : option FetchState :=
  if hasMore st && bool_decide (Z.of_nat (length (allTokens st)) < maxResults)%Z then
    match fuel with
    | 0 => None
    | S fuel' => fetch_while fuel' (fetch_iter st)
    end
  else Some st.

Definition fetch_init (s0 : Server) : FetchState :=
  {| allTokens := []; hasMore := true; skip := 0; server := s0; exchanges := [] |}.

Definition fetch_run (s0 : Server) : option FetchState :=
  fetch_while (Z.to_nat maxResults) (fetch_init s0).

Definition fetchAllData (s0 : Server) : option (list Token) :=
  allTokens <$> fetch_run s0.

(** The number of tokens received in the exchanges [pre]. *)
Definition fetched (pre : list (Variables.t * list Token)) : nat :=
  length (concat (pre.*2)).

(** What holds of the loop variables and of the exchanges made so far,
    before and after every turn: the tokens are the batches received, put
    end to end; [skip] is their number; every request asked for
    [batchSize] tokens from the offset reached, was sent below the cap and
    was answered by the subgraph; a batch that was followed by another
    request was not empty. *)
Record fetch_inv (st : FetchState) : Prop := {
  inv_tokens : allTokens st = concat ((exchanges st).*2);
  inv_skip : skip st = Z.of_nat (length (allTokens st));
  inv_request : forall pre v batch post',
    exchanges st = pre ++ (v, batch) :: post' ->
    v = Variables.mk batchSize (Z.of_nat (fetched pre)) "identifier"
    /\ (Z.of_nat (fetched pre) < maxResults)%Z
    /\ (exists s, batch = (post s v).1)
    /\ (post' <> [] -> batch <> []);
  inv_running : hasMore st = true -> forall e, e ∈ exchanges st -> e.2 <> []
}.

(** A bound on the turns the loop still takes. *)
Definition fetch_measure (st : FetchState) : nat :=
  if hasMore st then Z.to_nat (maxResults - Z.of_nat (length (allTokens st)))
  else 0.
End Fetch.

Arguments FetchState : clear implicits.

(** The stopping rule the way the specification states it: a batch shorter
    than the page size, or one that brings the total to the cap, is the last
    one requested, and the tokens returned do not exceed the cap. *)
Definition stops_on_short_batch {Server : Type}
    (post : Server -> Variables.t -> list Token * Server) (s0 : Server) : Prop :=
  forall st, fetch_run post s0 = Some st ->
    (forall pre v batch post',
       exchanges st = pre ++ (v, batch) :: post' ->
       (Z.of_nat (length batch) < batchSize)%Z
       \/ (maxResults <= Z.of_nat (fetched (pre ++ [(v, batch)])))%Z ->
       post' = [])
    /\ (Z.of_nat (length (allTokens st)) <= maxResults)%Z.

(** A subgraph over a fixed token list that honours [first] and [skip]. *)
Definition static_post (data : list Token) (v : Variables.t)
  : list Token * list Token :=
  (take (Z.to_nat (Variables.first v)) (drop (Z.to_nat (Variables.skip v)) data),
   data).

(** A subgraph that honours [first] and [skip] over a token list that grows
    by [minted] tokens after every request (the state is the list). *)
Definition growing_post (minted : list Token) (data : list Token) (v : Variables.t)
  : list Token * list Token :=
  (take (Z.to_nat (Variables.first v)) (drop (Z.to_nat (Variables.skip v)) data),
   data ++ minted).

(** Sample tokens for the examples. *)
Definition cat : Token := FakeGotchiNFTToken.mk "0x1" "1" "Cat" "Bob" 2.
Definition dog : Token := FakeGotchiNFTToken.mk "0x2" "2" "Dog" "Ann" 1.
Definition cat' : Token := FakeGotchiNFTToken.mk "0x3" "3" "Cat" "Bob" 2.
Definition owl : Token := FakeGotchiNFTToken.mk "0x4" "4" "Owl" "Eve" 1.

End Subgraph.

(** ** contract-comparison.ts *)

Module FakeGotchiCollection.
Record t : Type := mk {
  id : string;
  name : string;
  artistName : string;
  editions : Z
}.
End FakeGotchiCollection.

(** The tuple returned by the contract's [getMetadata]; the two
    [ethers.BigNumber] fields are [uint256] values. *)
Module ContractMetadata.
Record t : Type := mk {
  name : string;
  artistName : string;
  editions : N;
  identifier : N
}.
End ContractMetadata.

(** [{name, artistName, editions}] taken from a subgraph collection. *)
Module SubgraphSnapshot.
Record t : Type := mk {
  name : string;
  artistName : string;
  editions : Z
}.
End SubgraphSnapshot.

(** [{name, artistName, editions: .toString(), identifier: .toString()}] *)
Module ContractSnapshot.
Record t : Type := mk {
  name : string;
  artistName : string;
  editions : string;
  identifier : string
}.
End ContractSnapshot.

(** An entry of [contractCollections]: [{name, artistName, editions, id}]. *)
Module ContractCollection.
Record t : Type := mk {
  name : string;
  artistName : string;
  editions : Z;
  id : string
}.
End ContractCollection.

(** A difference record [{id, differences, subgraph, contract}]. *)
Module ContractDifference.
Record t (S C : Type) : Type := mk {
  id : string;
  differences : list string;
  subgraph : option S;
  contract : option C
}.
Arguments mk {S C} _ _ _ _.
Arguments id {S C} _.
Arguments differences {S C} _.
Arguments subgraph {S C} _.
Arguments contract {S C} _.
End ContractDifference.

Module Contract.

(** [BigNumber.toString()]: decimal digits. *)
Definition BigNumber_toString (n : N) : string := pretty n.

Section Comparison.
(** [parseInt] on a decimal numeral.  It is exact on numerals below 2^53
    and rounds above; nothing below depends on which number it returns. *)
Variable parseInt : string -> Z.

Definition subgraphSnapshot (collection : FakeGotchiCollection.t)
  : SubgraphSnapshot.t :=
  SubgraphSnapshot.mk (FakeGotchiCollection.name collection)
    (FakeGotchiCollection.artistName collection)
    (FakeGotchiCollection.editions collection).

Definition contractSnapshot (contractMetadata : ContractMetadata.t)
  : ContractSnapshot.t :=
  ContractSnapshot.mk (ContractMetadata.name contractMetadata)
    (ContractMetadata.artistName contractMetadata)
    (BigNumber_toString (ContractMetadata.editions contractMetadata))
    (BigNumber_toString (ContractMetadata.identifier contractMetadata)).

(** *** compareData *)

Definition metadata_diffTypes (collection : FakeGotchiCollection.t)
    (contractMetadata : ContractMetadata.t) : list string :=
  (if decide (FakeGotchiCollection.name collection
              = ContractMetadata.name contractMetadata)
   then [] else ["name"])
  ++ (if decide (FakeGotchiCollection.artistName collection
                 = ContractMetadata.artistName contractMetadata)
      then [] else ["artistName"])
  ++ (if decide (FakeGotchiCollection.editions collection
                 = parseInt (BigNumber_toString
                               (ContractMetadata.editions contractMetadata)))
      then [] else ["editions"]).

(** The property names that every plain object inherits from
    [Object.prototype].  [contractData] is created as [{}]: for a name of
    this list that is not an own property, [contractData[name]] is the
    inherited value, a function (for ["__proto__"], the prototype object
    itself), and never [undefined]. *)
Definition Object_prototype_keys : list string :=
  ["constructor"; "__defineGetter__"; "__defineSetter__"; "hasOwnProperty";
   "__lookupGetter__"; "__lookupSetter__"; "isPrototypeOf";
   "propertyIsEnumerable"; "toString"; "valueOf"; "__proto__";
   "toLocaleString"].

(** The record pushed when [contractData[collectionId]] is [undefined]. *)
Definition missing_in_contract (collection : FakeGotchiCollection.t)
  : ContractDifference.t SubgraphSnapshot.t ContractSnapshot.t :=
  ContractDifference.mk (FakeGotchiCollection.id collection)
    ["missing_in_contract"] (Some (subgraphSnapshot collection)) None.

(** One turn of the loop over [collectionsData]; [None]: a [TypeError] is
    thrown.  [contractData[collectionId]] reads an own property (the entries
    of the finite map) and otherwise goes up to [Object.prototype]: for an
    inherited name the value is not [undefined], the comparison branch is
    taken, and [contractMetadata.editions.toString()] throws, because the
    inherited value has no [editions]. *)
Definition compare_step (contractData : gmap string ContractMetadata.t)
    (differences : list (ContractDifference.t SubgraphSnapshot.t ContractSnapshot.t))
    (collection : FakeGotchiCollection.t)
  : option (list (ContractDifference.t SubgraphSnapshot.t ContractSnapshot.t)) :=
  let collectionId := FakeGotchiCollection.id collection in
  match contractData !! collectionId with
  | None =>
      if decide (collectionId ∈ Object_prototype_keys) then None
      else Some (differences ++ [missing_in_contract collection])
  | Some contractMetadata =>
      let diffTypes := metadata_diffTypes collection contractMetadata in
      if bool_decide (0 < length diffTypes) then
        Some (differences ++
                [ContractDifference.mk collectionId diffTypes
                   (Some (subgraphSnapshot collection))
                   (Some (contractSnapshot contractMetadata))])
      else Some differences
  end.

(** [None]: the [TypeError] of a turn leaves the function. *)
Definition compareData (contractData : gmap string ContractMetadata.t)
    (collectionsData : list FakeGotchiCollection.t)
  : option (list (ContractDifference.t SubgraphSnapshot.t ContractSnapshot.t)) :=
  foldl (fun acc collection =>
           differences ← acc;
           compare_step contractData differences collection)
    (Some []) collectionsData.

(** *** compareCollectionData *)

Definition contractCollection (id : string) (metadata : ContractMetadata.t)
  : ContractCollection.t :=
  ContractCollection.mk (ContractMetadata.name metadata)
    (ContractMetadata.artistName metadata)
    (parseInt (BigNumber_toString (ContractMetadata.editions metadata)))
    id.

(** [Object.entries(contractData).forEach(..)] filling [contractCollections].
    The assignment [contractCollections[id] = {..}] adds or replaces an own
    property, except for the id ["__proto__"]: there it runs the setter
    inherited from [Object.prototype], which makes the new object the
    prototype of [contractCollections] and adds no own property. *)
Definition contractCollections (contractData : gmap string ContractMetadata.t)
  : gmap string ContractCollection.t :=
  foldl (fun acc e =>
           if decide (e.1 = "__proto__") then acc
           else <[e.1 := contractCollection e.1 e.2]> acc)
    ∅ (map_to_list contractData).

Definition contractCollectionsArray (contractData : gmap string ContractMetadata.t)
  : list ContractCollection.t :=
  (map_to_list (contractCollections contractData)).*2.

Definition subgraphCollectionsMap (collectionsData : list FakeGotchiCollection.t)
  : JSMap.t FakeGotchiCollection.t :=
  JSMap.from_entries
    ((fun collection => (FakeGotchiCollection.id collection, collection))
       <$> collectionsData).

Definition contractCollectionsMap (contractData : gmap string ContractMetadata.t)
  : JSMap.t ContractCollection.t :=
  JSMap.from_entries
    ((fun collection => (ContractCollection.id collection, collection))
       <$> contractCollectionsArray contractData).

Definition collection_diffTypes (colFromSubgraph : FakeGotchiCollection.t)
    (colFromContract : ContractCollection.t) : list string :=
  (if decide (FakeGotchiCollection.name colFromSubgraph
              = ContractCollection.name colFromContract)
   then [] else ["name"])
  ++ (if decide (FakeGotchiCollection.artistName colFromSubgraph
                 = ContractCollection.artistName colFromContract)
      then [] else ["artistName"])
  ++ (if decide (FakeGotchiCollection.editions colFromSubgraph
                 = ContractCollection.editions colFromContract)
      then [] else ["editions"]).

(** The callback of [allIds.forEach]. *)
Definition collection_compare_step
    (subgraphCollectionsMap : JSMap.t FakeGotchiCollection.t)
    (contractCollectionsMap : JSMap.t ContractCollection.t)
    (differences : list (ContractDifference.t FakeGotchiCollection.t ContractCollection.t))
    (id : string)
  : list (ContractDifference.t FakeGotchiCollection.t ContractCollection.t) :=
  let colFromSubgraph := JSMap.get id subgraphCollectionsMap in
  let colFromContract := JSMap.get id contractCollectionsMap in
  match colFromSubgraph with
  | None =>
      differences ++
        [ContractDifference.mk id ["missing_in_subgraph"] None colFromContract]
  | Some colFromSubgraph =>
      match colFromContract with
      | None =>
          differences ++
            [ContractDifference.mk id ["missing_in_contract"]
               (Some colFromSubgraph) None]
      | Some colFromContract =>
          let diffTypes := collection_diffTypes colFromSubgraph colFromContract in
          if bool_decide (0 < length diffTypes) then
            differences ++
              [ContractDifference.mk id diffTypes
                 (Some colFromSubgraph) (Some colFromContract)]
          else differences
      end
  end.

Definition compareCollectionData (contractData : gmap string ContractMetadata.t)
    (collectionsData : list FakeGotchiCollection.t)
  : list (ContractDifference.t FakeGotchiCollection.t ContractCollection.t) :=
  let subgraphCollectionsMap := subgraphCollectionsMap collectionsData in
  let contractCollectionsMap := contractCollectionsMap contractData in
  let allIds :=
    JSSet.from_list
      (JSMap.keys subgraphCollectionsMap ++ JSMap.keys contractCollectionsMap) in
  foldl (collection_compare_step subgraphCollectionsMap contractCollectionsMap)
    [] allIds.

(** The keyed differ as the specification words it, for one key: what is
    reported when the key maps to [left] on the subgraph side and to [right]
    on the contract side; the tags name the differing fields in the order
    they are compared. *)
Definition keyed_entry (id : string) (left : option FakeGotchiCollection.t)
    (right : option ContractCollection.t)
  : list (ContractDifference.t FakeGotchiCollection.t ContractCollection.t) :=
  match left, right with
  | None, None => []
  | None, Some r => [ContractDifference.mk id ["missing_in_subgraph"] None (Some r)]
  | Some l, None => [ContractDifference.mk id ["missing_in_contract"] (Some l) None]
  | Some l, Some r =>
      if decide (FakeGotchiCollection.name l = ContractCollection.name r
                 /\ FakeGotchiCollection.artistName l = ContractCollection.artistName r
                 /\ FakeGotchiCollection.editions l = ContractCollection.editions r)
      then []
      else [ContractDifference.mk id
              ((if decide (FakeGotchiCollection.name l = ContractCollection.name r)
                then [] else ["name"])
               ++ (if decide (FakeGotchiCollection.artistName l
                              = ContractCollection.artistName r)
                   then [] else ["artistName"])
               ++ (if decide (FakeGotchiCollection.editions l
                              = ContractCollection.editions r)
                   then [] else ["editions"]))
              (Some l) (Some r)]
  end.
End Comparison.

(** *** fetchContractMetadata *)

Section FetchMetadata.
(** One call of [contract.getMetadata(id)]: the metadata, or the message
    of the error it throws. *)
Variable getMetadata : string -> string + ContractMetadata.t.

(** The body of the inner loop, on the pair of [contractData] and the
    console output.  The assignment [contractData[collectionId] = metadata]
    is commented out in the source: a successful read is logged and dropped;
    a failed one is caught and logged. *)
Definition fetch_one (st : gmap string ContractMetadata.t * list string)
    (collection : FakeGotchiCollection.t)
  : gmap string ContractMetadata.t * list string :=
  let collectionId := FakeGotchiCollection.id collection in
  match getMetadata collectionId with
  | inr metadata =>
      (st.1,
       (st.2 ++ [String.append "Successfully fetched metadata for collection "
                   collectionId])%list)
  | inl message =>
      (st.1,
       (st.2 ++ [String.append "Error fetching metadata for collection "
                   (String.append collectionId (String.append ": " message))])%list)
  end.

(** [for (let i = 0; i < collectionsData.length; i += batchSize)] over
    [collectionsData.slice(i, i + batchSize)]. *)
Definition fetch_batches (collectionsData : list FakeGotchiCollection.t)
  : gmap string ContractMetadata.t * list string :=
  let batchSize := 10 in
  foldl (fun st k =>
           let i := k * batchSize in
           let batch := take batchSize (drop i collectionsData) in
           foldl fetch_one st batch)
    (∅, [])
    (seq 0 ((length collectionsData + (batchSize - 1)) / batchSize)).

(** The [contractData] component of the result. *)
Definition fetchContractMetadata (collectionsData : list FakeGotchiCollection.t)
  : gmap string ContractMetadata.t :=
  (fetch_batches collectionsData).1.
End FetchMetadata.

(** Exact reading of a decimal numeral, for the examples. *)
Definition parseInt_decimal (s : string) : Z :=
  match NilEmpty.uint_of_string s with
  | Some d => Z.of_uint d
  | None => 0
  end.

End Contract.

(** ** Notions used to state further properties of the two programs *)

Module SubgraphSpec.
Import Subgraph.

(** A collection after one more token of its group: [editions++] and
    [tokenIds.push(identifier)]. *)
Definition add_edition (token : Token) (collection : Collection.t) : Collection.t :=
  Collection.mk (Collection.id collection)
    (Collection.name collection)
    (Collection.artistName collection)
    (Collection.editions collection + 1)
    (Collection.tokenIds collection ++ [FakeGotchiNFTToken.identifier token]).

(** The collection opened by a token that starts a new group, numbered [n]. *)
Definition new_collection (n : nat) (token : Token) : Collection.t :=
  Collection.mk (toString n)
    (FakeGotchiNFTToken.name token)
    (FakeGotchiNFTToken.artistName token)
    1
    [FakeGotchiNFTToken.identifier token].

(** The tags of the fields on which two tokens differ, in the order the
    fields are compared. *)
Definition token_tags (item1 item2 : Token) : list string :=
  (if decide (FakeGotchiNFTToken.name item1 = FakeGotchiNFTToken.name item2)
   then [] else ["name"])
  ++ (if decide (FakeGotchiNFTToken.artistName item1
                 = FakeGotchiNFTToken.artistName item2)
      then [] else ["artistName"])
  ++ (if decide (FakeGotchiNFTToken.editions item1 = FakeGotchiNFTToken.editions item2)
      then [] else ["editions"]).

(** What the token differ reports for a token [item1] of the left list: the
    right token it is compared with is the one with its identifier (the last
    one, should there be several).  A snapshot holds the name, the artist,
    the edition number and the identifier of the token. *)
Definition left_entry (data2 : list Token) (item1 : Token)
  : list (Difference.t TokenSnapshot.t) :=
  match last (filter (fun item2 => FakeGotchiNFTToken.identifier item2
                                   = FakeGotchiNFTToken.identifier item1) data2) with
  | None =>
      [Difference.mk (FakeGotchiNFTToken.identifier item1) ["missing_in_prod"]
         (Some (TokenSnapshot.mk (FakeGotchiNFTToken.name item1)
                  (FakeGotchiNFTToken.artistName item1)
                  (FakeGotchiNFTToken.editions item1)
                  (FakeGotchiNFTToken.identifier item1)))
         None]
  | Some item2 =>
      if decide (token_tags item1 item2 = []) then []
      else [Difference.mk (FakeGotchiNFTToken.identifier item1)
              (token_tags item1 item2)
              (Some (TokenSnapshot.mk (FakeGotchiNFTToken.name item1)
                       (FakeGotchiNFTToken.artistName item1)
                       (FakeGotchiNFTToken.editions item1)
                       (FakeGotchiNFTToken.identifier item1)))
              (Some (TokenSnapshot.mk (FakeGotchiNFTToken.name item2)
                       (FakeGotchiNFTToken.artistName item2)
                       (FakeGotchiNFTToken.editions item2)
                       (FakeGotchiNFTToken.identifier item2)))]
  end.

(** The record for a token of the right list that the left list lacks. *)
Definition right_entry (item2 : Token) : Difference.t TokenSnapshot.t :=
  Difference.mk (FakeGotchiNFTToken.identifier item2) ["missing_in_subgraph1"]
    None
    (Some (TokenSnapshot.mk (FakeGotchiNFTToken.name item2)
             (FakeGotchiNFTToken.artistName item2)
             (FakeGotchiNFTToken.editions item2)
             (FakeGotchiNFTToken.identifier item2))).

(** The tokens of the right list whose identifier the left list lacks. *)
Definition right_only (data1 data2 : list Token) : list Token :=
  filter (fun item2 => FakeGotchiNFTToken.identifier item2
                       ∉ FakeGotchiNFTToken.identifier <$> data1) data2.

(** The [j]-th exchange with a subgraph that holds the fixed list [data]:
    the request starts at offset [1000 * j], or at the end of the list when
    that is past it. *)
Definition static_request (data : list Token) (j : nat)
  : Variables.t * list Token :=
  let skip := Nat.min (1000 * j) (length data) in
  (Variables.mk batchSize (Z.of_nat skip) "identifier", take 1000 (drop skip data)).

(** The number of requests it takes to read a fixed list of [n] tokens. *)
Definition static_requests (n : nat) : nat :=
  if decide (Z.of_nat n < maxResults)%Z then (n + 999) / 1000 + 1 else 50.

(** What the loop keeps of the exchanges over the fixed list [data], with
    [c] the number of requests sent. *)
Definition static_trace_inv (data : list Token) (s : FetchState (list Token)) : Prop :=
  server s = data
  /\ skip s = Z.of_nat (length (allTokens s))
  /\ exists c, exchanges s = static_request data <$> seq 0 c
     /\ (hasMore s = true ->
         length (allTokens s) = Nat.min (1000 * c) (length data)
         /\ (0 < c -> 1000 * (c - 1) < length data
                      /\ (Z.of_nat (1000 * (c - 1)) < maxResults)%Z))
     /\ (hasMore s = false ->
         1 <= c /\ length data <= 1000 * (c - 1)
         /\ (2 <= c -> 1000 * (c - 2) < length data)
         /\ (Z.of_nat (length data) < maxResults)%Z).

(** Records as the entries of a map keyed by their id. *)
Definition keyed {S} (records : list (Difference.t S))
  : list (string * Difference.t S) :=
  (fun r => (Difference.id r, r)) <$> records.

(** What every record of the token differ satisfies: it names a difference,
    its id is an identifier of one of the two lists, and each snapshot it
    carries holds the name, the artist, the edition number and the
    identifier of a token of that list whose identifier is the id; at least
    one snapshot is there. *)
Definition record_ok (data1 data2 : list Token) (r : Difference.t TokenSnapshot.t)
  : Prop :=
  Difference.differences r <> []
  /\ Difference.id r ∈ (FakeGotchiNFTToken.identifier <$> data1)
                        ++ (FakeGotchiNFTToken.identifier <$> data2)
  /\ (forall s, Difference.subgraph1 r = Some s ->
                exists item1,
                  item1 ∈ data1
                  /\ s = TokenSnapshot.mk (FakeGotchiNFTToken.name item1)
                           (FakeGotchiNFTToken.artistName item1)
                           (FakeGotchiNFTToken.editions item1)
                           (FakeGotchiNFTToken.identifier item1)
                  /\ FakeGotchiNFTToken.identifier item1 = Difference.id r)
  /\ (forall s, Difference.prod r = Some s ->
                exists item2,
                  item2 ∈ data2
                  /\ s = TokenSnapshot.mk (FakeGotchiNFTToken.name item2)
                           (FakeGotchiNFTToken.artistName item2)
                           (FakeGotchiNFTToken.editions item2)
                           (FakeGotchiNFTToken.identifier item2)
                  /\ FakeGotchiNFTToken.identifier item2 = Difference.id r)
  /\ (is_Some (Difference.subgraph1 r) \/ is_Some (Difference.prod r)).

End SubgraphSpec.

Module ContractSpec.
Import Contract.

(** What [compareData] does with one collection: it throws ([None]) when
    the id is no own key of the contract data but a name inherited from
    [Object.prototype]; it reports [missing_in_contract], with the name, the
    artist and the edition count of the collection, when the id is neither;
    and when the contract data has an entry for the id, it reports nothing
    if name, artist and edition count agree, and otherwise one record with
    the snapshots of both sides. *)
Definition contract_entry (parseInt : string -> Z)
    (contractData : gmap string ContractMetadata.t)
    (collection : FakeGotchiCollection.t)
  : option (list (ContractDifference.t SubgraphSnapshot.t ContractSnapshot.t)) :=
  match contractData !! FakeGotchiCollection.id collection with
  | None =>
      if decide (FakeGotchiCollection.id collection ∈ Object_prototype_keys)
      then None
      else Some [ContractDifference.mk (FakeGotchiCollection.id collection)
                   ["missing_in_contract"]
                   (Some (SubgraphSnapshot.mk (FakeGotchiCollection.name collection)
                            (FakeGotchiCollection.artistName collection)
                            (FakeGotchiCollection.editions collection)))
                   None]
  | Some contractMetadata =>
      if decide (FakeGotchiCollection.name collection
                 = ContractMetadata.name contractMetadata
                 /\ FakeGotchiCollection.artistName collection
                    = ContractMetadata.artistName contractMetadata
                 /\ FakeGotchiCollection.editions collection
                    = parseInt (BigNumber_toString
                                  (ContractMetadata.editions contractMetadata)))
      then Some []
      else Some [ContractDifference.mk (FakeGotchiCollection.id collection)
                   ((if decide (FakeGotchiCollection.name collection
                                = ContractMetadata.name contractMetadata)
                     then [] else ["name"])
                    ++ (if decide (FakeGotchiCollection.artistName collection
                                   = ContractMetadata.artistName contractMetadata)
                        then [] else ["artistName"])
                    ++ (if decide (FakeGotchiCollection.editions collection
                                   = parseInt (BigNumber_toString
                                                 (ContractMetadata.editions
                                                    contractMetadata)))
                        then [] else ["editions"]))
                   (Some (SubgraphSnapshot.mk (FakeGotchiCollection.name collection)
                            (FakeGotchiCollection.artistName collection)
                            (FakeGotchiCollection.editions collection)))
                   (Some (ContractSnapshot.mk
                            (ContractMetadata.name contractMetadata)
                            (ContractMetadata.artistName contractMetadata)
                            (BigNumber_toString
                               (ContractMetadata.editions contractMetadata))
                            (BigNumber_toString
                               (ContractMetadata.identifier contractMetadata))))]
  end.

(** The reports of the collections put end to end, unless one of them
    throws. *)
Fixpoint contract_entries (parseInt : string -> Z)
    (contractData : gmap string ContractMetadata.t)
    (collectionsData : list FakeGotchiCollection.t)
  : option (list (ContractDifference.t SubgraphSnapshot.t ContractSnapshot.t)) :=
  match collectionsData with
  | [] => Some []
  | collection :: rest =>
      match contract_entry parseInt contractData collection,
            contract_entries parseInt contractData rest with
      | Some records, Some records' => Some (records ++ records')
      | _, _ => None
      end
  end.

(** The line [fetchContractMetadata] prints for one collection. *)
Definition log_line (getMetadata : string -> string + ContractMetadata.t)
    (collection : FakeGotchiCollection.t) : string :=
  let collectionId := FakeGotchiCollection.id collection in
  match getMetadata collectionId with
  | inr _ => String.append "Successfully fetched metadata for collection " collectionId
  | inl message =>
      String.append "Error fetching metadata for collection "
        (String.append collectionId (String.append ": " message))
  end.

End ContractSpec.

(** ** The token metadata export (third script of [src/contract-comparison.ts]) *)

Module TokenMetadata.
(** [metadataId] is [Number(batchMetadata[index])], a double with an
    integer value; [None] stands for the [NaN] of an index the contract's
    answer does not have. *)
Record t : Type := mk {
  tokenId : nat;
  metadataId : option Z
}.
End TokenMetadata.

Module MetadataExport.

Definition batchSize : nat := 1000.

(** [Number(x)] for a [BigNumber] [x] (a [uint256]): the double nearest to
    [x], a tie going to the even significand.  Below 2^53 that is [x]
    itself; from there on [x] is cut to its 53 leading bits and rounded. *)
Definition Number (x : Z) : Z :=
  if decide (x < 2 ^ 53)%Z then x
  else
    let e := (Z.log2 x - 52)%Z in
    let q := (x / 2 ^ e)%Z in
    let r := (x mod 2 ^ e)%Z in
    let half := (2 ^ (e - 1))%Z in
    if decide (half < r \/ (r = half /\ Z.odd q = true))%Z
    then ((q + 1) * 2 ^ e)%Z
    else (q * 2 ^ e)%Z.

Section Main.
(** [Number(totalSupply)], as answered by the contract. *)
Variable totalSupply : nat.
(** One call of [fakeGotchis.batchGetMetadata(tokenIds)]: the array it
    returns, or [None] when the call throws. *)
Variable batchGetMetadata : list nat -> option (list Z).

(** [Math.ceil(Number(totalSupply) / batchSize)] *)
Definition totalBatches : nat := (totalSupply + (batchSize - 1)) / batchSize.

(** [Array.from({ length: end - start }, (_, index) => start + index)] *)
Definition tokenIds (i : nat) : list nat :=
  let start := i * batchSize in
  let end_ := Nat.min ((i + 1) * batchSize) totalSupply in
  (fun index => start + index) <$> seq 0 (end_ - start).

(** [tokenIds.map((tokenId, index) => ({ tokenId, metadataId:
    Number(batchMetadata[index]) }))] *)
Definition batchResults (i : nat) (batchMetadata : list Z) : list TokenMetadata.t :=
  imap (fun index tokenId =>
          TokenMetadata.mk tokenId (Number <$> batchMetadata !! index))
    (tokenIds i).

(** One turn of the loop over the batches; a call that throws ends the
    script before anything is saved. *)
Definition batch_step (allMetadata : option (list TokenMetadata.t)) (i : nat)
  : option (list TokenMetadata.t) :=
  match allMetadata with
  | None => None
  | Some allMetadata =>
      match batchGetMetadata (tokenIds i) with
      | None => None
      | Some batchMetadata => Some (allMetadata ++ batchResults i batchMetadata)
      end
  end.

(** The [allMetadata] written to [tokenMetadata.json]. *)
Definition main : option (list TokenMetadata.t) :=
  foldl batch_step (Some []) (seq 0 totalBatches).
End Main.

End MetadataExport.

(** ** The two programs from their files *)

(** The files of the [results] directory that the subgraph program reads
    and writes.  [None]: the file does not exist; otherwise the value that
    [JSON.parse] returns for what [JSON.stringify] wrote. *)
Module SubgraphFiles.
Import Subgraph.
Record t : Type := mk {
  subgraph1_data : option (list Token);
  prod_data : option (list Token);
  subgraph_differences : option (list (Difference.t TokenSnapshot.t));
  subgraph1_collections : option (list Collection.t);
  prod_collections : option (list Collection.t);
  collection_differences : option (list (Difference.t CollectionSnapshot.t))
}.
End SubgraphFiles.

Module SubgraphMain.
Import Subgraph.

(** [saveToFile(data, filename)], one function per file name. *)
Definition save_subgraph1_data (data : list Token) (files : SubgraphFiles.t)
  : SubgraphFiles.t :=
  SubgraphFiles.mk (Some data)
    (SubgraphFiles.prod_data files)
    (SubgraphFiles.subgraph_differences files)
    (SubgraphFiles.subgraph1_collections files)
    (SubgraphFiles.prod_collections files)
    (SubgraphFiles.collection_differences files).

Definition save_prod_data (data : list Token) (files : SubgraphFiles.t)
  : SubgraphFiles.t :=
  SubgraphFiles.mk (SubgraphFiles.subgraph1_data files)
    (Some data)
    (SubgraphFiles.subgraph_differences files)
    (SubgraphFiles.subgraph1_collections files)
    (SubgraphFiles.prod_collections files)
    (SubgraphFiles.collection_differences files).

Definition save_subgraph_differences (data : list (Difference.t TokenSnapshot.t))
    (files : SubgraphFiles.t) : SubgraphFiles.t :=
  SubgraphFiles.mk (SubgraphFiles.subgraph1_data files)
    (SubgraphFiles.prod_data files)
    (Some data)
    (SubgraphFiles.subgraph1_collections files)
    (SubgraphFiles.prod_collections files)
    (SubgraphFiles.collection_differences files).

Definition save_subgraph1_collections (data : list Collection.t)
    (files : SubgraphFiles.t) : SubgraphFiles.t :=
  SubgraphFiles.mk (SubgraphFiles.subgraph1_data files)
    (SubgraphFiles.prod_data files)
    (SubgraphFiles.subgraph_differences files)
    (Some data)
    (SubgraphFiles.prod_collections files)
    (SubgraphFiles.collection_differences files).

Definition save_prod_collections (data : list Collection.t)
    (files : SubgraphFiles.t) : SubgraphFiles.t :=
  SubgraphFiles.mk (SubgraphFiles.subgraph1_data files)
    (SubgraphFiles.prod_data files)
    (SubgraphFiles.subgraph_differences files)
    (SubgraphFiles.subgraph1_collections files)
    (Some data)
    (SubgraphFiles.collection_differences files).

Definition save_collection_differences
    (data : list (Difference.t CollectionSnapshot.t))
    (files : SubgraphFiles.t) : SubgraphFiles.t :=
  SubgraphFiles.mk (SubgraphFiles.subgraph1_data files)
    (SubgraphFiles.prod_data files)
    (SubgraphFiles.subgraph_differences files)
    (SubgraphFiles.subgraph1_collections files)
    (SubgraphFiles.prod_collections files)
    (Some data).

(** What a run has done: the files it leaves, whether it reached its end
    ([false]: an exception reached the [catch]), and the exchanges it had
    with each of the two subgraphs. *)
Record Run : Type := {
  files : SubgraphFiles.t;
  completed : bool;
  requests1 : list (Variables.t * list Token);
  requests2 : list (Variables.t * list Token)
}.

Section Main.
Context {Server : Type}.

(** One POST round trip as [main] meets it.  [None]: [fetch] rejects, the
    body is not JSON, or the answer has no [data], so that
    [result.data.fakeGotchiNFTTokens] throws; the exception leaves
    [fetchAllData] and reaches the [catch] of [main]. *)
Variable request : Server -> Variables.t -> option (list Token * Server).

(** The requests as the loop of [fetchAllData] takes them.  The subgraph is
    paired with a flag telling whether the last request failed; a failed
    request is handed to the loop as an empty batch, on which the loop stops
    at once, as it does on the exception. *)
Definition post_of_request (s : Server * bool) (v : Variables.t)
  : list Token * (Server * bool) :=
  match request s.1 v with
  | Some (batch, s') => (batch, (s', false))
  | None => ([], (s.1, true))
  end.

(** [await fetchAllData(url)] in [main]: the tokens and the exchanges, or
    [None] when a request failed. *)
Definition fetchAllData_request (s : Server)
  : option (list Token * list (Variables.t * list Token)) :=
  match fetch_run post_of_request (s, false) with
  | None => None
  | Some st =>
      if (server st).2 then None else Some (allTokens st, exchanges st)
  end.

(** [main], with both URLs set: [s1] and [s2] are the subgraphs behind
    them.  A data file that exists is loaded and its subgraph is not asked;
    otherwise the data is fetched and saved.  An exception ends the run with
    the files written so far. *)
Definition main (s1 s2 : Server) (files0 : SubgraphFiles.t) : Run :=
  let step1 :=
    match SubgraphFiles.subgraph1_data files0 with
    | Some data1 => Some (data1, files0, [])
    | None =>
        match fetchAllData_request s1 with
        | None => None
        | Some (data1, requests1) =>
            Some (data1, save_subgraph1_data data1 files0, requests1)
        end
    end in
  match step1 with
  | None =>
      {| files := files0; completed := false; requests1 := []; requests2 := [] |}
  | Some (data1, files1, requests1) =>
      let step2 :=
        match SubgraphFiles.prod_data files1 with
        | Some data2 => Some (data2, files1, [])
        | None =>
            match fetchAllData_request s2 with
            | None => None
            | Some (data2, requests2) =>
                Some (data2, save_prod_data data2 files1, requests2)
            end
        end in
      match step2 with
      | None =>
          {| files := files1; completed := false;
             requests1 := requests1; requests2 := [] |}
      | Some (data2, files2, requests2) =>
          let differences := findDifferences data1 data2 in
          let files3 := save_subgraph_differences differences files2 in
          let collections1 := groupIntoCollections data1 in
          let files4 := save_subgraph1_collections collections1 files3 in
          let collections2 := groupIntoCollections data2 in
          let files5 := save_prod_collections collections2 files4 in
          match findCollectionDifferences collections1 collections2 with
          | None =>
              {| files := files5; completed := false;
                 requests1 := requests1; requests2 := requests2 |}
          | Some collectionDifferences =>
              let files6 :=
                save_collection_differences collectionDifferences files5 in
              {| files := files6; completed := true;
                 requests1 := requests1; requests2 := requests2 |}
          end
      end
  end.
End Main.


End SubgraphMain.

Module ContractMain.
Import Contract.

(** What [main] catches: the error of a loader, with its message, or the
    [TypeError] that [compareData] throws. *)
Inductive Error : Type :=
  | MissingFile (message : string)
  | TypeError.

Section Main.
(** The tokens of [subgraph1_data.json]; the program only counts them. *)
Variable TokenData : Type.
Variable parseInt : string -> Z.
Variable getMetadata : string -> string + ContractMetadata.t.

(** The files of the [results] directory that the contract program reads
    and writes.  The collections of [subgraph1_collections.json] are taken
    as the interface [FakeGotchiCollection] declares them; a field of the
    parsed objects that the interface does not declare is not represented,
    neither in the input nor where an aggregated record carries the
    collection along. *)
Record Files : Type := mkFiles {
  subgraph1_data : option (list TokenData);
  subgraph1_collections : option (list FakeGotchiCollection.t);
  contract_metadata : option (gmap string ContractMetadata.t);
  contract_collections : option (list ContractCollection.t);
  contract_collection_differences :
    option (list (ContractDifference.t SubgraphSnapshot.t ContractSnapshot.t));
  contract_collection_aggregated_differences :
    option (list (ContractDifference.t FakeGotchiCollection.t ContractCollection.t))
}.

Definition loadSubgraphData (files : Files) : string + list TokenData :=
  match subgraph1_data files with
  | None => inl "Subgraph data file does not exist. Run subgraph-comparison.ts first."
  | Some data => inr data
  end.

Definition loadCollectionsData (files : Files)
  : string + list FakeGotchiCollection.t :=
  match subgraph1_collections files with
  | None => inl "Collections data file does not exist. Run subgraph-comparison.ts first."
  | Some data => inr data
  end.

(** [saveToFile(data, filename)], one function per file name. *)
Definition save_contract_metadata (data : gmap string ContractMetadata.t)
    (files : Files) : Files :=
  mkFiles (subgraph1_data files) (subgraph1_collections files)
    (Some data)
    (contract_collections files)
    (contract_collection_differences files)
    (contract_collection_aggregated_differences files).

Definition save_contract_collections (data : list ContractCollection.t)
    (files : Files) : Files :=
  mkFiles (subgraph1_data files) (subgraph1_collections files)
    (contract_metadata files)
    (Some data)
    (contract_collection_differences files)
    (contract_collection_aggregated_differences files).

Definition save_contract_collection_differences
    (data : list (ContractDifference.t SubgraphSnapshot.t ContractSnapshot.t))
    (files : Files) : Files :=
  mkFiles (subgraph1_data files) (subgraph1_collections files)
    (contract_metadata files)
    (contract_collections files)
    (Some data)
    (contract_collection_aggregated_differences files).

Definition save_contract_collection_aggregated_differences
    (data : list (ContractDifference.t FakeGotchiCollection.t ContractCollection.t))
    (files : Files) : Files :=
  mkFiles (subgraph1_data files) (subgraph1_collections files)
    (contract_metadata files)
    (contract_collections files)
    (contract_collection_differences files)
    (Some data).

(** [main]: the files it leaves and the error it caught, if any.  The
    collections are loaded before the tokens; [fetchContractMetadata] saves
    the contract data; [compareCollectionData] saves the contract
    collections.  An exception ends the run with the files written so
    far. *)
Definition main (files0 : Files) : Files * option Error :=
  match loadCollectionsData files0 with
  | inl message => (files0, Some (MissingFile message))
  | inr collectionsData =>
      match loadSubgraphData files0 with
      | inl message => (files0, Some (MissingFile message))
      | inr subgraphData =>
          let contractData := fetchContractMetadata getMetadata collectionsData in
          let files1 := save_contract_metadata contractData files0 in
          match compareData parseInt contractData collectionsData with
          | None => (files1, Some TypeError)
          | Some collectionDifferences =>
              let files2 :=
                save_contract_collection_differences collectionDifferences files1 in
              let files3 :=
                save_contract_collections
                  (contractCollectionsArray parseInt contractData) files2 in
              let aggregatedDifferences :=
                compareCollectionData parseInt contractData collectionsData in
              let files4 :=
                save_contract_collection_aggregated_differences
                  aggregatedDifferences files3 in
              (files4, None)
          end
      end
  end.
End Main.

End ContractMain.

(** * Proofs *)

(** ** Facts about [JSMap] and [JSSet] *)

Section JSMapFacts.
Context {V : Type}.
Implicit Types (m : list (string * V)) (k : string) (v : V).

Lemma JSMap_get_set k k' v m :
  JSMap.get k (JSMap.set k' v m) = if decide (k' = k) then Some v else JSMap.get k m.
Proof.
  induction m as [|[k0 v0] m IH]; simpl.
  - done.
  - destruct (decide (k0 = k')) as [->|Hne]; simpl.
    + destruct (decide (k' = k)); done.
    + rewrite IH. destruct (decide (k0 = k)) as [->|]; [|done].
      destruct (decide (k' = k)); congruence.
Qed.

Lemma JSMap_get_None k m : JSMap.get k m = None <-> k ∉ JSMap.keys m.
Proof.
  unfold JSMap.keys. induction m as [|[k0 v0] m IH]; simpl.
  - split; [intros _; apply not_elem_of_nil | done].
  - rewrite not_elem_of_cons. destruct (decide (k0 = k)) as [->|]; split.
    + done.
    + intros [? _]; done.
    + intros; split; [congruence | by apply IH].
    + intros [_ ?]; by apply IH.
Qed.

Lemma JSMap_get_Some_elem k v m : JSMap.get k m = Some v -> (k, v) ∈ m.
Proof.
  induction m as [|[k0 v0] m IH]; simpl; [done|].
  destruct (decide (k0 = k)) as [->|].
  - intros [= ->]. left.
  - intros. right. auto.
Qed.

Lemma JSMap_elem_get k v m :
  NoDup (JSMap.keys m) -> (k, v) ∈ m -> JSMap.get k m = Some v.
Proof.
  unfold JSMap.keys. induction m as [|[k0 v0] m IH]; simpl.
  - intros _ H. by apply elem_of_nil in H.
  - intros Hnd Hin. apply NoDup_cons in Hnd as [Hk0 Hnd].
    apply elem_of_cons in Hin as [[= -> ->]|Hin].
    + by rewrite decide_True.
    + destruct (decide (k0 = k)) as [->|]; [|auto].
      exfalso. apply Hk0. apply list_elem_of_fmap. by exists (k, v).
Qed.

Lemma JSMap_set_fresh k v m :
  k ∉ JSMap.keys m -> JSMap.set k v m = m ++ [(k, v)].
Proof.
  unfold JSMap.keys. induction m as [|[k0 v0] m IH]; simpl; [done|].
  rewrite not_elem_of_cons. intros [Hne Hk].
  rewrite decide_False; [|done]. by rewrite IH.
Qed.

Lemma JSMap_keys_set k v m :
  JSMap.keys (JSMap.set k v m)
  = if decide (k ∈ JSMap.keys m) then JSMap.keys m else JSMap.keys m ++ [k].
Proof.
  unfold JSMap.keys. induction m as [|[k0 v0] m IH]; csimpl.
  - done.
  - destruct (decide (k0 = k)) as [->|Hne]; csimpl.
    + rewrite decide_True; [done | left].
    + rewrite IH. destruct (decide (k ∈ m.*1)) as [Hin|Hnin].
      * rewrite decide_True; [done | by right].
      * rewrite decide_False; [done|].
        rewrite not_elem_of_cons. split; congruence.
Qed.

Lemma JSMap_NoDup_set k v m :
  NoDup (JSMap.keys m) -> NoDup (JSMap.keys (JSMap.set k v m)).
Proof.
  intros Hnd. rewrite JSMap_keys_set. case_decide; [done|].
  apply NoDup_app. split_and!; [done | | apply NoDup_singleton].
  intros x Hx Hx'. apply list_elem_of_singleton in Hx'. by subst.
Qed.

(** A map whose values carry their own key: the values named [k] are the
    one stored under [k]. *)
Lemma JSMap_values_named (name_of : V -> string) k m :
  NoDup (JSMap.keys m) ->
  Forall (fun e => name_of e.2 = e.1) m ->
  filter (fun v => name_of v = k) (JSMap.values m)
  = match JSMap.get k m with Some v => [v] | None => [] end.
Proof.
  unfold JSMap.keys, JSMap.values.
  induction m as [|[k0 v0] m IH]; csimpl; [done|].
  intros Hnd Hall. apply NoDup_cons in Hnd as [Hk0 Hnd].
  apply Forall_cons in Hall as [Hv0 Hall]. simpl in Hv0.
  rewrite filter_cons, IH by done. subst k0.
  destruct (decide (name_of v0 = k)) as [<-|Hne]; [|done].
  apply JSMap_get_None in Hk0. by rewrite Hk0.
Qed.

Lemma JSMap_named_set (name_of : V -> string) k v m :
  name_of v = k ->
  Forall (fun e => name_of e.2 = e.1) m ->
  Forall (fun e => name_of e.2 = e.1) (JSMap.set k v m).
Proof.
  intros Hv. induction m as [|[k0 v0] m IH]; simpl.
  - intros _. by repeat constructor.
  - intros Hall. apply Forall_cons in Hall as [Hv0 Hall].
    case_decide; constructor; auto.
Qed.

(** [new Map(entries)] keeps, for each key, the last entry given. *)
Lemma JSMap_get_from_entries k (entries : list (string * V)) :
  JSMap.get k (JSMap.from_entries entries)
  = snd <$> last (filter (fun e => e.1 = k) entries).
Proof.
  unfold JSMap.from_entries.
  induction entries as [|[k0 v0] entries IH] using rev_ind; [done|].
  rewrite foldl_snoc, JSMap_get_set, filter_app, IH. simpl.
  rewrite filter_cons, filter_nil. simpl.
  case_decide.
  - by rewrite last_snoc.
  - by rewrite app_nil_r.
Qed.

Lemma JSMap_keys_from_entries k (entries : list (string * V)) :
  k ∈ JSMap.keys (JSMap.from_entries entries) <-> k ∈ entries.*1.
Proof.
  unfold JSMap.from_entries.
  induction entries as [|[k0 v0] entries IH] using rev_ind; [done|].
  rewrite foldl_snoc, JSMap_keys_set, fmap_app, elem_of_app. simpl.
  rewrite list_elem_of_singleton.
  case_decide as Hin.
  - rewrite IH. split; [tauto|]. intros [?| ->]; [done|]. by apply IH.
  - rewrite elem_of_app, list_elem_of_singleton, IH. done.
Qed.

Lemma JSMap_NoDup_from_entries (entries : list (string * V)) :
  NoDup (JSMap.keys (JSMap.from_entries entries)).
Proof.
  unfold JSMap.from_entries.
  induction entries as [|e entries IH] using rev_ind; [apply NoDup_nil_2|].
  rewrite foldl_snoc. by apply JSMap_NoDup_set.
Qed.
End JSMapFacts.

Lemma JSSet_has_true k (s : list string) : JSSet.has k s = true <-> k ∈ s.
Proof. unfold JSSet.has. by rewrite bool_decide_eq_true. Qed.

Lemma JSSet_from_list_snoc (items : list string) k :
  JSSet.from_list (items ++ [k]) = JSSet.add k (JSSet.from_list items).
Proof. unfold JSSet.from_list. by rewrite foldl_snoc. Qed.

Lemma JSSet_elem_of_from_list k (items : list string) :
  k ∈ JSSet.from_list items <-> k ∈ items.
Proof.
  induction items as [|k0 items IH] using rev_ind; [done|].
  rewrite JSSet_from_list_snoc. unfold JSSet.add, JSSet.has.
  rewrite elem_of_app, list_elem_of_singleton. case_bool_decide as Hin.
  - rewrite IH. split; [tauto|]. intros [?| ->]; [done|]. by apply IH.
  - rewrite elem_of_app, list_elem_of_singleton, IH. done.
Qed.

Lemma JSSet_NoDup_from_list (items : list string) : NoDup (JSSet.from_list items).
Proof.
  induction items as [|k0 items IH] using rev_ind; [apply NoDup_nil_2|].
  rewrite JSSet_from_list_snoc. unfold JSSet.add, JSSet.has.
  case_bool_decide as Hin; [done|].
  apply NoDup_app. split_and!; [done | | apply NoDup_singleton].
  intros x Hx Hx'. apply list_elem_of_singleton in Hx'. by subst.
Qed.

(** ** The grouping loop in closed form *)

Import Subgraph.

Lemma JSMap_get_keyed {V} (f : string -> V) (ks : list string) k :
  JSMap.get k ((fun k' => (k', f k')) <$> ks)
  = if decide (k ∈ ks) then Some (f k) else None.
Proof.
  induction ks as [|k0 ks IH]; csimpl; [done|].
  destruct (decide (k0 = k)) as [->|Hne].
  - rewrite decide_True; [done | left].
  - rewrite IH. destruct (decide (k ∈ ks)).
    + rewrite decide_True; [done | by right].
    + rewrite decide_False; [done|]. rewrite not_elem_of_cons. split; congruence.
Qed.

Lemma JSMap_set_keyed {V} (f : string -> V) (ks : list string) k v :
  NoDup ks -> k ∈ ks ->
  JSMap.set k v ((fun k' => (k', f k')) <$> ks)
  = (fun k' => (k', if decide (k' = k) then v else f k')) <$> ks.
Proof.
  induction ks as [|k0 ks IH]; csimpl; intros Hnd Hin.
  - by apply elem_of_nil in Hin.
  - apply NoDup_cons in Hnd as [Hk0 Hnd].
    destruct (decide (k0 = k)) as [->|Hne].
    + f_equal. apply list_fmap_ext. intros i k' Hk'.
      rewrite decide_False; [done|]. intros ->.
      apply Hk0. by eapply list_elem_of_lookup_2.
    + f_equal. apply IH; [done|].
      apply elem_of_cons in Hin as [->|]; done.
Qed.

Lemma members_snoc k tokens token :
  members k (tokens ++ [token])
  = members k tokens ++ (if decide (collectionKey token = k) then [token] else []).
Proof. unfold members. rewrite filter_app. f_equal. Qed.

Lemma members_nil k tokens :
  k ∉ collectionKey <$> tokens -> members k tokens = [].
Proof.
  intros Hk. unfold members. induction tokens as [|t tokens IH]; [done|].
  rewrite fmap_cons, not_elem_of_cons in Hk. destruct Hk as [Hne Hk].
  rewrite filter_cons, decide_False by congruence. auto.
Qed.

Lemma members_cons_inv k tokens :
  k ∈ collectionKey <$> tokens -> exists t ms, members k tokens = t :: ms.
Proof.
  intros Hk. apply list_elem_of_fmap in Hk as (t & -> & Ht).
  assert (t ∈ members (collectionKey t) tokens) as Hin
    by (by apply list_elem_of_filter).
  destruct (members (collectionKey t) tokens) as [|t0 ms]; [|by eauto].
  by apply elem_of_nil in Hin.
Qed.

Lemma group_loop_snoc tokens token :
  group_loop (tokens ++ [token]) = group_step (group_loop tokens) token.
Proof. unfold group_loop. by rewrite foldl_snoc. Qed.

Lemma group_loop_spec tokens :
  group_loop tokens
  = (fun k => (k, collect k tokens)) <$> JSSet.from_list (collectionKey <$> tokens).
Proof.
  induction tokens as [|token tokens IH] using rev_ind; [done|].
  rewrite group_loop_snoc, IH, fmap_app. csimpl. rewrite JSSet_from_list_snoc.
  set (ks := JSSet.from_list (collectionKey <$> tokens)).
  assert (NoDup ks) as Hnd by apply JSSet_NoDup_from_list.
  assert (forall k, k ∈ ks <-> k ∈ collectionKey <$> tokens) as Hks
    by (intros; apply JSSet_elem_of_from_list).
  unfold group_step, JSMap.has, JSSet.add, JSSet.has. rewrite JSMap_get_keyed.
  destruct (decide (collectionKey token ∈ ks)) as [Hin|Hnin]; simpl.
  - rewrite bool_decide_eq_true_2 by done.
    rewrite JSMap_set_keyed by done.
    apply list_fmap_ext. intros i k Hk. f_equal.
    unfold collect. rewrite members_snoc.
    destruct (decide (k = collectionKey token)) as [->|Hne].
    + rewrite decide_True by done.
      destruct (members_cons_inv (collectionKey token) tokens) as (t & ms & ->);
        [by apply Hks|].
      simpl. rewrite length_app, fmap_app. simpl.
      f_equal. lia.
    + rewrite decide_False by congruence. by rewrite app_nil_r.
  - rewrite bool_decide_eq_false_2 by done.
    rewrite JSMap_set_fresh.
    2:{ unfold JSMap.keys. rewrite <- list_fmap_compose.
        rewrite (list_fmap_ext _ id ks), list_fmap_id; done. }
    rewrite fmap_app. f_equal.
    + apply list_fmap_ext. intros i k Hk. f_equal.
      unfold collect. rewrite members_snoc, decide_False, app_nil_r; [done|].
      intros Heq. apply Hnin. rewrite Heq. by eapply list_elem_of_lookup_2.
    + simpl. f_equal. f_equal. unfold collect.
      rewrite members_snoc, decide_True by done.
      rewrite members_nil; [done|]. by rewrite <- Hks.
Qed.

(** ** The token differ *)

Lemma diff_step1_other data2Map m item1 k :
  FakeGotchiNFTToken.identifier item1 <> k ->
  JSMap.get k (diff_step1 data2Map m item1) = JSMap.get k m.
Proof.
  intros Hne. unfold diff_step1.
  destruct (JSMap.get _ data2Map); [case_bool_decide|];
    rewrite ?JSMap_get_set, ?decide_False; done.
Qed.

Lemma diff_step2_other data1Ids m item2 k :
  FakeGotchiNFTToken.identifier item2 <> k ->
  JSMap.get k (diff_step2 data1Ids m item2) = JSMap.get k m.
Proof.
  intros Hne. unfold diff_step2.
  destruct (JSSet.has _ data1Ids); rewrite ?JSMap_get_set, ?decide_False; done.
Qed.

Lemma diff_step1_wf data2Map m item1 :
  NoDup (JSMap.keys m) /\ named_by_id m ->
  NoDup (JSMap.keys (diff_step1 data2Map m item1))
  /\ named_by_id (diff_step1 data2Map m item1).
Proof.
  intros [Hnd Hnm]. unfold diff_step1.
  destruct (JSMap.get _ data2Map); [case_bool_decide|]; try done;
    (split; [by apply JSMap_NoDup_set | by apply JSMap_named_set]).
Qed.

Lemma diff_step2_wf data1Ids m item2 :
  NoDup (JSMap.keys m) /\ named_by_id m ->
  NoDup (JSMap.keys (diff_step2 data1Ids m item2))
  /\ named_by_id (diff_step2 data1Ids m item2).
Proof.
  intros [Hnd Hnm]. unfold diff_step2.
  destruct (JSSet.has _ data1Ids); try done;
    (split; [by apply JSMap_NoDup_set | by apply JSMap_named_set]).
Qed.

Lemma foldl_invariant {A B} (P : A -> Prop) (f : A -> B -> A) (l : list B) a :
  (forall a b, P a -> P (f a b)) -> P a -> P (foldl f a l).
Proof. intros Hf. revert a. induction l; simpl; auto. Qed.

(** A loop that only writes under the key of the item it visits leaves the
    other keys alone. *)
Lemma foldl_get_untouched {V} (key : Token -> string)
    (step : list (string * V) -> Token -> list (string * V)) items m k :
  (forall m item, key item <> k -> JSMap.get k (step m item) = JSMap.get k m) ->
  k ∉ key <$> items ->
  JSMap.get k (foldl step m items) = JSMap.get k m.
Proof.
  intros Hstep. revert m. induction items as [|item items IH]; intros m Hk; [done|].
  rewrite fmap_cons, not_elem_of_cons in Hk. destruct Hk as [Hne Hk].
  simpl. rewrite IH by done. apply Hstep. congruence.
Qed.

(** ... and the value under the key of a visited item is the one written at
    its visit, when no other item has that key. *)
Lemma foldl_get_written {V} (key : Token -> string)
    (step : list (string * V) -> Token -> list (string * V)) items m t v :
  (forall m item, key item <> key t ->
                  JSMap.get (key t) (step m item) = JSMap.get (key t) m) ->
  (forall m, JSMap.get (key t) (step m t) = Some v) ->
  NoDup (key <$> items) -> t ∈ items ->
  JSMap.get (key t) (foldl step m items) = Some v.
Proof.
  intros Hother Hself. revert m.
  induction items as [|item items IH]; intros m Hnd Hin.
  - by apply elem_of_nil in Hin.
  - rewrite fmap_cons in Hnd. apply NoDup_cons in Hnd as [Hitem Hnd].
    apply elem_of_cons in Hin as [<-|Hin]; simpl.
    + rewrite (foldl_get_untouched key) by done. apply Hself.
    + by apply IH.
Qed.

Lemma data2Map_get_None (data2 : list Token) k :
  k ∉ FakeGotchiNFTToken.identifier <$> data2 ->
  JSMap.get k (JSMap.from_entries
                 ((fun item => (FakeGotchiNFTToken.identifier item, item)) <$> data2))
  = None.
Proof.
  intros Hk. apply JSMap_get_None. rewrite JSMap_keys_from_entries.
  by rewrite <- list_fmap_compose.
Qed.

Lemma findDifferences_wf data1 data2 m0 data1Ids data2Map :
  NoDup (JSMap.keys m0) /\ named_by_id m0 ->
  let m := foldl (diff_step2 data1Ids) (foldl (diff_step1 data2Map) m0 data1) data2 in
  NoDup (JSMap.keys m) /\ named_by_id m.
Proof.
  intros H0. simpl.
  apply (foldl_invariant (fun m => NoDup (JSMap.keys m) /\ named_by_id m));
    [intros; by apply diff_step2_wf|].
  apply (foldl_invariant (fun m => NoDup (JSMap.keys m) /\ named_by_id m));
    [intros; by apply diff_step1_wf | done].
Qed.

Lemma findDifferences_named data1 data2 k :
  filter (fun r => Difference.id r = k) (findDifferences data1 data2)
  = match
      JSMap.get k
        (foldl (diff_step2 (JSSet.from_list (FakeGotchiNFTToken.identifier <$> data1)))
           (foldl (diff_step1
                     (JSMap.from_entries
                        ((fun item => (FakeGotchiNFTToken.identifier item, item))
                           <$> data2)))
              JSMap.empty data1)
           data2)
    with
    | Some r => [r]
    | None => []
    end.
Proof.
  unfold findDifferences.
  destruct (findDifferences_wf data1 data2 JSMap.empty
              (JSSet.from_list (FakeGotchiNFTToken.identifier <$> data1))
              (JSMap.from_entries
                 ((fun item => (FakeGotchiNFTToken.identifier item, item)) <$> data2)))
    as [Hnd Hnm].
  { split; [apply NoDup_nil_2 | apply Forall_nil_2]. }
  by apply JSMap_values_named.
Qed.

(** C3. For two token lists with unique identifiers, a token whose identifier
    occurs only in the left list has exactly one difference record: it is
    tagged [missing_in_prod], carries the left snapshot (the token's name,
    artist, edition number and identifier) and a null right side; a token
    whose identifier occurs only in the right list has exactly one record,
    tagged [missing_in_subgraph1], with the right snapshot and a null left
    side. *)
Theorem findDifferences_one_sided (data1 data2 : list Token) :
  NoDup (FakeGotchiNFTToken.identifier <$> data1) ->
  NoDup (FakeGotchiNFTToken.identifier <$> data2) ->
  (forall t, t ∈ data1 ->
     FakeGotchiNFTToken.identifier t ∉ FakeGotchiNFTToken.identifier <$> data2 ->
     filter (fun r => Difference.id r = FakeGotchiNFTToken.identifier t)
       (findDifferences data1 data2)
     = [Difference.mk (FakeGotchiNFTToken.identifier t) ["missing_in_prod"]
          (Some (TokenSnapshot.mk (FakeGotchiNFTToken.name t)
                   (FakeGotchiNFTToken.artistName t)
                   (FakeGotchiNFTToken.editions t)
                   (FakeGotchiNFTToken.identifier t)))
          None])
  /\ (forall t, t ∈ data2 ->
     FakeGotchiNFTToken.identifier t ∉ FakeGotchiNFTToken.identifier <$> data1 ->
     filter (fun r => Difference.id r = FakeGotchiNFTToken.identifier t)
       (findDifferences data1 data2)
     = [Difference.mk (FakeGotchiNFTToken.identifier t) ["missing_in_subgraph1"]
          None
          (Some (TokenSnapshot.mk (FakeGotchiNFTToken.name t)
                   (FakeGotchiNFTToken.artistName t)
                   (FakeGotchiNFTToken.editions t)
                   (FakeGotchiNFTToken.identifier t)))]).
Proof.
  intros Hnd1 Hnd2. split; intros t Ht Hid; rewrite findDifferences_named.
  - rewrite (foldl_get_untouched FakeGotchiNFTToken.identifier);
      [|intros; by apply diff_step2_other | done].
    rewrite (foldl_get_written FakeGotchiNFTToken.identifier _ _ _ t
               (Difference.mk (FakeGotchiNFTToken.identifier t) ["missing_in_prod"]
                  (Some (tokenSnapshot t)) None)); try done.
    + intros; by apply diff_step1_other.
    + intros m. unfold diff_step1. rewrite data2Map_get_None by done.
      by rewrite JSMap_get_set, decide_True.
  - rewrite (foldl_get_written FakeGotchiNFTToken.identifier _ _ _ t
               (Difference.mk (FakeGotchiNFTToken.identifier t) ["missing_in_subgraph1"]
                  None (Some (tokenSnapshot t)))); try done.
    + intros; by apply diff_step2_other.
    + intros m. unfold diff_step2.
      destruct (JSSet.has _ _) eqn:Hhas.
      * rewrite JSSet_has_true, JSSet_elem_of_from_list in Hhas. done.
      * by rewrite JSMap_get_set, decide_True.
Qed.

(** ** The positional collection differ *)

Lemma toString_inj i j : toString i = toString j -> i = j.
Proof. unfold toString. apply (inj pretty). Qed.

Lemma diffTypes_nil col1 col2 :
  diffTypes col1 col2 = []
  <-> Collection.name col1 = Collection.name col2
      /\ Collection.artistName col1 = Collection.artistName col2
      /\ Collection.editions col1 = Collection.editions col2.
Proof.
  unfold diffTypes. repeat case_decide; simpl; split; intros Heq; try done;
    destruct Heq as (? & ? & ?); done.
Qed.

Lemma positional_entry_inv left right i r :
  r ∈ positional_entry left right i ->
  Difference.id r = toString i
  /\ Difference.subgraph1 r = collectionSnapshot <$> left !! i
  /\ Difference.prod r = collectionSnapshot <$> right !! i.
Proof.
  unfold positional_entry.
  destruct (left !! i) as [l|], (right !! i) as [r'|]; simpl;
    try case_decide; intros Hr;
    try (by apply elem_of_nil in Hr);
    apply list_elem_of_singleton in Hr; by subst r.
Qed.

Lemma positional_prefix_ids left right n r :
  r ∈ seq 0 n ≫= positional_entry left right ->
  exists i, i < n /\ r ∈ positional_entry left right i.
Proof.
  intros Hr. apply list_elem_of_bind in Hr as (i & Hr & Hi).
  apply elem_of_seq in Hi. exists i. split; [lia | done].
Qed.

(** One turn of the loop appends the entry of its index: the key
    [toString i] is not in the map yet. *)
Lemma collection_step_spec left right n :
  n < Nat.max (length left) (length right) ->
  collection_step left right
    ((fun r => (Difference.id r, r)) <$> (seq 0 n ≫= positional_entry left right)) n
  = Some ((fun r => (Difference.id r, r))
            <$> (seq 0 (S n) ≫= positional_entry left right)).
Proof.
  intros Hn. rewrite seq_S, bind_app, fmap_app. simpl. rewrite app_nil_r.
  set (m := (fun r => (Difference.id r, r)) <$> _).
  assert (toString n ∉ JSMap.keys m) as Hfresh.
  { unfold JSMap.keys, m. rewrite <- list_fmap_compose.
    intros Hin. apply list_elem_of_fmap in Hin as (r & Hid & Hr).
    apply positional_prefix_ids in Hr as (i & Hi & Hr).
    apply positional_entry_inv in Hr as [Hid' _]. simpl in Hid.
    rewrite Hid' in Hid. apply toString_inj in Hid. lia. }
  unfold collection_step, positional_entry.
  destruct (left !! n) as [l|] eqn:Hl, (right !! n) as [r|] eqn:Hr; simpl.
  - case_bool_decide as Hlen; case_decide as Heq.
    + apply diffTypes_nil in Heq. rewrite Heq in Hlen. simpl in Hlen. lia.
    + by rewrite JSMap_set_fresh.
    + by rewrite app_nil_r.
    + exfalso. apply Heq, diffTypes_nil.
      destruct (diffTypes l r); [done | simpl in Hlen; lia].
  - by rewrite JSMap_set_fresh.
  - by rewrite JSMap_set_fresh.
  - apply lookup_ge_None in Hl, Hr. lia.
Qed.

Lemma findCollectionDifferences_loop left right n :
  n <= Nat.max (length left) (length right) ->
  foldl (fun acc i => differencesMap ← acc;
                      collection_step left right differencesMap i)
    (Some JSMap.empty) (seq 0 n)
  = Some ((fun r => (Difference.id r, r))
            <$> (seq 0 n ≫= positional_entry left right)).
Proof.
  induction n as [|n IH]; intros Hn; [done|].
  rewrite seq_S, foldl_snoc, IH by lia. rewrite <- seq_S. simpl.
  apply collection_step_spec. lia.
Qed.

Lemma findCollectionDifferences_spec left right :
  findCollectionDifferences left right = Some (positional_spec left right).
Proof.
  unfold findCollectionDifferences, positional_spec.
  rewrite findCollectionDifferences_loop by done. simpl. f_equal.
  unfold JSMap.values. rewrite <- list_fmap_compose. apply list_fmap_id.
Qed.

(** C7. For every pair of collection lists the positional differ returns
    (without failing) the records of the indices 0 .. max(len left, len
    right) - 1 in order, where index [i] contributes: [missing_in_subgraph1]
    with the right snapshot when [left[i]] is absent, [missing_in_prod] with
    the left snapshot when [right[i]] is absent, and otherwise one record with
    both snapshots exactly when name, artistName or editions differ; a
    snapshot is the name, the artist and the edition count of the
    collection.  So two collections that differ in artist and edition count
    at index 0, followed by a collection that only the left list has, give
    the record "0" with both snapshots and the record "1" with the left
    one; a collection that only the right list has gives the record with
    the right one. *)
Theorem findCollectionDifferences_positional (left right : list Collection.t) :
  findCollectionDifferences left right
  = Some (seq 0 (Nat.max (length left) (length right))
            ≫= positional_entry left right)
  /\ findCollectionDifferences
       [Collection.mk "1" "Cat" "Bob" 2 ["1"; "3"]; Collection.mk "2" "Dog" "Ann" 1 ["2"]]
       [Collection.mk "1" "Cat" "Eve" 3 ["7"; "8"; "9"]]
     = Some [Difference.mk "0" ["artistName"; "editions"]
               (Some (CollectionSnapshot.mk "Cat" "Bob" 2))
               (Some (CollectionSnapshot.mk "Cat" "Eve" 3));
             Difference.mk "1" ["missing_in_prod"]
               (Some (CollectionSnapshot.mk "Dog" "Ann" 1)) None]
  /\ findCollectionDifferences [] [Collection.mk "1" "Owl" "Eve" 1 ["4"]]
     = Some [Difference.mk "0" ["missing_in_subgraph1"] None
               (Some (CollectionSnapshot.mk "Owl" "Eve" 1))].
Proof.
  split_and!; [apply findCollectionDifferences_spec | by vm_compute..].
Qed.

Lemma groupIntoCollections_lookup_id tokens i c :
  groupIntoCollections tokens !! i = Some c -> Collection.id c = toString (i + 1).
Proof.
  unfold groupIntoCollections. rewrite list_lookup_imap.
  destruct (JSMap.values (group_loop tokens) !! i); simpl; [|done].
  by intros [= <-].
Qed.

(** C10. Every record of the positional differ carries the 0-based index it
    compares as its id, while the grouper numbers collections from 1: on two
    grouped lists, the record for index [i] has id [toString i], the
    collections it compares have id [toString (i + 1)], and the record's id
    differs from the id of either collection. *)
Theorem positional_id_off_by_one (tokens1 tokens2 : list Token) :
  exists out,
    findCollectionDifferences (groupIntoCollections tokens1)
      (groupIntoCollections tokens2) = Some out
    /\ forall r, r ∈ out ->
       exists i,
         Difference.id r = toString i
         /\ Difference.subgraph1 r
            = collectionSnapshot <$> groupIntoCollections tokens1 !! i
         /\ Difference.prod r
            = collectionSnapshot <$> groupIntoCollections tokens2 !! i
         /\ forall c,
              groupIntoCollections tokens1 !! i = Some c
              \/ groupIntoCollections tokens2 !! i = Some c ->
              Collection.id c = toString (i + 1)
              /\ Collection.id c <> Difference.id r.
Proof.
  eexists. split; [apply findCollectionDifferences_spec|].
  intros r Hr. apply positional_prefix_ids in Hr as (i & _ & Hr).
  apply positional_entry_inv in Hr as (Hid & Hl & Hr).
  exists i. split_and!; try done.
  intros c Hc.
  assert (Collection.id c = toString (i + 1)) as Hc'
    by (destruct Hc as [Hc|Hc]; by apply groupIntoCollections_lookup_id in Hc).
  split; [done|]. rewrite Hid, Hc'. intros Heq%toString_inj. lia.
Qed.

(** ** The collection grouper *)

Lemma filter_fmap_key {A B} (f : A -> B) (P : B -> Prop)
    `{!forall y, Decision (P y)} (l : list A) :
  filter P (f <$> l) = f <$> filter (fun x => P (f x)) l.
Proof.
  induction l as [|x l IH]; [done|].
  rewrite fmap_cons, !filter_cons, IH. by case_decide.
Qed.

Lemma filter_all {A} (P : A -> Prop) `{!forall x, Decision (P x)} (l : list A) :
  (forall x, P x) -> filter P l = l.
Proof.
  intros HP. induction l as [|x l IH]; [done|].
  by rewrite filter_cons, decide_True, IH.
Qed.

Lemma JSSet_from_list_first_seen (ks : list string) :
  JSSet.from_list ks = first_seen ks.
Proof.
  unfold JSSet.from_list.
  enough (forall acc : list string,
            foldl (fun s k => JSSet.add k s) acc ks
            = acc ++ filter (fun k => k ∉ acc) (first_seen ks)) as Hgen.
  { rewrite Hgen. simpl. apply filter_all. intros k. apply not_elem_of_nil. }
  induction ks as [|k ks IH]; intros acc; simpl.
  - by rewrite app_nil_r.
  - rewrite IH. unfold JSSet.add, JSSet.has. rewrite filter_cons.
    case_bool_decide as Hin.
    + rewrite decide_False by tauto. f_equal.
      rewrite list_filter_filter. apply list_filter_iff. intros k'.
      split; [|tauto]. intros Hk'. split; [done|]. by intros ->.
    + rewrite decide_True by done. rewrite <- app_assoc. simpl. do 2 f_equal.
      rewrite list_filter_filter. apply list_filter_iff. intros k'.
      rewrite not_elem_of_app, list_elem_of_singleton. tauto.
Qed.

Lemma collect_first_member k tokens :
  k ∈ collectionKey <$> tokens ->
  exists token,
    token ∈ tokens /\ collectionKey token = k
    /\ Collection.name (collect k tokens) = FakeGotchiNFTToken.name token
    /\ Collection.artistName (collect k tokens) = FakeGotchiNFTToken.artistName token.
Proof.
  intros Hk. unfold collect.
  destruct (members_cons_inv k tokens Hk) as (t & ms & Hms). rewrite Hms. simpl.
  assert (t ∈ members k tokens) as Ht by (rewrite Hms; left).
  apply list_elem_of_filter in Ht as [Hkey Ht]. by exists t.
Qed.

Lemma collection_key_collect k tokens :
  k ∈ collectionKey <$> tokens -> collection_key (collect k tokens) = k.
Proof.
  intros Hk. unfold collection_key, collect.
  destruct (members_cons_inv k tokens Hk) as (t & ms & Hms). rewrite Hms. simpl.
  assert (t ∈ members k tokens) as Ht by (rewrite Hms; left).
  by apply list_elem_of_filter in Ht as [Ht _].
Qed.

Lemma groupIntoCollections_spec tokens :
  groupIntoCollections tokens
  = imap (fun index k => with_id (toString (index + 1)) (collect k tokens))
      (first_seen (collectionKey <$> tokens)).
Proof.
  unfold groupIntoCollections. rewrite group_loop_spec, JSSet_from_list_first_seen.
  unfold JSMap.values. rewrite <- list_fmap_compose. by rewrite imap_fmap.
Qed.

Lemma filter_ext_in {A} (P Q : A -> Prop)
    `{!forall x, Decision (P x)} `{!forall x, Decision (Q x)} (l : list A) :
  (forall x, x ∈ l -> P x <-> Q x) -> filter P l = filter Q l.
Proof.
  induction l as [|x l IH]; intros Hext; [done|].
  rewrite !filter_cons, IH by (intros y Hy; apply Hext; by right).
  destruct (Hext x ltac:(left)). repeat case_decide; tauto.
Qed.

Section FirstSeen.
Context {A : Type} `{EqDecision A}.
Implicit Types (x : A) (l : list A).

Lemma first_seen_elem_of x l : x ∈ first_seen l <-> x ∈ l.
Proof.
  induction l as [|a l IH]; simpl; [done|].
  rewrite !elem_of_cons, list_elem_of_filter, IH.
  destruct (decide (x = a)); tauto.
Qed.

Lemma first_seen_NoDup l : NoDup (first_seen l).
Proof.
  induction l as [|a l IH]; simpl; [constructor|].
  apply NoDup_cons. split; [|by apply NoDup_filter].
  rewrite list_elem_of_filter. intros [Hne _]. by apply Hne.
Qed.

(** A function that is injective on the list commutes with [first_seen]. *)
Lemma first_seen_fmap_inj {B} `{EqDecision B} (f : A -> B) l :
  (forall x y, x ∈ l -> y ∈ l -> f x = f y -> x = y) ->
  first_seen (f <$> l) = f <$> first_seen l.
Proof.
  induction l as [|a l IH]; intros Hinj; [done|].
  csimpl. f_equal.
  rewrite IH by (intros x y Hx Hy; apply Hinj; by right).
  rewrite (filter_fmap_key f (fun y => y <> f a)). f_equal.
  apply filter_ext_in. intros x Hx. rewrite first_seen_elem_of in Hx.
  split; [congruence|]. intros Hne Heq. apply Hne.
  apply Hinj; [by right | left | done].
Qed.
End FirstSeen.

(** The groups of the keys in [ks] partition the tokens whose keys are in [ks]. *)
Lemma members_bind_nil (ks : list string) :
  ks ≫= (fun k => members k []) = [].
Proof. induction ks as [|k ks IH]; [done|]. by rewrite bind_cons, IH. Qed.

Lemma members_cons k token tokens :
  members k (token :: tokens)
  = if decide (collectionKey token = k) then token :: members k tokens
    else members k tokens.
Proof. unfold members. by rewrite filter_cons. Qed.

Lemma members_bind_cons (ks : list string) token tokens :
  NoDup ks -> collectionKey token ∈ ks ->
  ks ≫= (fun k => members k (token :: tokens))
  ≡ₚ token :: (ks ≫= fun k => members k tokens).
Proof.
  induction ks as [|k ks IH]; intros Hnd Hin.
  - by apply elem_of_nil in Hin.
  - apply NoDup_cons in Hnd as [Hk Hnd]. rewrite !bind_cons, members_cons.
    destruct (decide (collectionKey token = k)) as [Heq|Hne].
    + simpl. constructor. apply Permutation_app_head.
      assert (forall ks', collectionKey token ∉ ks' ->
                ks' ≫= (fun k => members k (token :: tokens))
                = ks' ≫= (fun k => members k tokens)) as Hrest.
      { induction ks' as [|k' ks' IH']; [done|].
        rewrite not_elem_of_cons. intros [Hne Hnotin].
        rewrite !bind_cons, members_cons, decide_False, IH'; done. }
      rewrite Hrest; [done | by rewrite Heq].
    + apply elem_of_cons in Hin as [Heq|Hin]; [done|].
      rewrite IH by done. by rewrite Permutation_middle.
Qed.

Lemma members_partition (ks : list string) tokens :
  NoDup ks -> (forall token, token ∈ tokens -> collectionKey token ∈ ks) ->
  ks ≫= (fun k => members k tokens) ≡ₚ tokens.
Proof.
  intros Hnd. induction tokens as [|token tokens IH]; intros Hall.
  - by rewrite members_bind_nil.
  - rewrite members_bind_cons; [|done | apply Hall; left].
    constructor. apply IH. intros t Ht. apply Hall. by right.
Qed.

Lemma groupIntoCollections_tokenIds tokens :
  concat (Collection.tokenIds <$> groupIntoCollections tokens)
  = FakeGotchiNFTToken.identifier
      <$> (first_seen (collectionKey <$> tokens) ≫= fun k => members k tokens).
Proof.
  rewrite groupIntoCollections_spec, fmap_imap.
  rewrite (imap_ext _ (const (fun k => FakeGotchiNFTToken.identifier
                                          <$> members k tokens))) by done.
  rewrite imap_const.
  induction (first_seen (collectionKey <$> tokens)) as [|k ks IH]; [done|].
  rewrite fmap_cons, bind_cons, fmap_app. simpl. by rewrite IH.
Qed.

Lemma groupIntoCollections_perm tokens :
  concat (Collection.tokenIds <$> groupIntoCollections tokens)
  ≡ₚ FakeGotchiNFTToken.identifier <$> tokens.
Proof.
  rewrite groupIntoCollections_tokenIds. apply fmap_Permutation.
  apply members_partition; [apply first_seen_NoDup|].
  intros token Hin. apply first_seen_elem_of. by apply list_elem_of_fmap_2.
Qed.

(** The invariant of the grouping loop. *)
Lemma JSMap_Forall_values_set {V} (P : V -> Prop) k v (m : list (string * V)) :
  P v -> Forall P (JSMap.values m) -> Forall P (JSMap.values (JSMap.set k v m)).
Proof.
  unfold JSMap.values. intros Hv.
  induction m as [|[k0 v0] m IH]; csimpl; intros Hall.
  - by constructor.
  - apply Forall_cons in Hall as [Hv0 Hall].
    case_decide; csimpl; constructor; auto.
Qed.

Lemma JSMap_get_Forall_values {V} (P : V -> Prop) k v (m : list (string * V)) :
  Forall P (JSMap.values m) -> JSMap.get k m = Some v -> P v.
Proof.
  intros Hall Hget. apply JSMap_get_Some_elem in Hget.
  rewrite Forall_forall in Hall. apply Hall.
  unfold JSMap.values. apply list_elem_of_fmap. by exists (k, v).
Qed.

Lemma group_step_edition_count collections token :
  Forall edition_count_ok (JSMap.values collections) ->
  Forall edition_count_ok (JSMap.values (group_step collections token)).
Proof.
  intros Hinv. unfold group_step, JSMap.has.
  destruct (JSMap.get _ collections) as [collection|] eqn:Hget;
    apply JSMap_Forall_values_set; try done.
  apply (JSMap_get_Forall_values _ _ _ _ Hinv) in Hget.
  unfold edition_count_ok in *. simpl. rewrite length_app. simpl. lia.
Qed.

Lemma group_loop_edition_count tokens :
  Forall edition_count_ok (JSMap.values (group_loop tokens)).
Proof.
  unfold group_loop. apply (foldl_invariant (fun m => Forall _ (JSMap.values m))).
  - intros; by apply group_step_edition_count.
  - constructor.
Qed.

Lemma groupIntoCollections_count_ok tokens :
  Forall edition_count_ok (groupIntoCollections tokens).
Proof.
  unfold groupIntoCollections. apply Forall_lookup. intros i c.
  rewrite list_lookup_imap.
  destruct (JSMap.values (group_loop tokens) !! i) as [c0|] eqn:Hc0; simpl; [|done].
  intros [= <-]. pose proof (group_loop_edition_count tokens) as Hall.
  rewrite Forall_lookup in Hall. exact (Hall i c0 Hc0).
Qed.

Lemma total_editions_length collections :
  Forall edition_count_ok collections ->
  total_editions collections
  = Z.of_nat (length (concat (Collection.tokenIds <$> collections))).
Proof.
  induction 1 as [|c collections Hc _ IH]; [done|].
  csimpl. rewrite length_app, IH, Hc. lia.
Qed.

Lemma NoDup_concat_lookup {A} (ls : list (list A)) i j a b x :
  NoDup (concat ls) -> ls !! i = Some a -> ls !! j = Some b ->
  x ∈ a -> x ∈ b -> i = j.
Proof.
  revert i j. induction ls as [|l ls IH]; intros i j Hnd Hi Hj Ha Hb; [done|].
  simpl in Hnd. apply NoDup_app in Hnd as (_ & Hdisj & Hnd).
  assert (forall n c, ls !! n = Some c -> x ∈ c -> x ∈ concat ls) as Hin.
  { intros n c Hn Hc. apply list_elem_of_In, in_concat. exists c.
    split; apply list_elem_of_In; [by eapply list_elem_of_lookup_2 | done]. }
  destruct i as [|i], j as [|j]; simpl in *.
  - done.
  - injection Hi as ->. exfalso. eapply Hdisj; eauto.
  - injection Hj as ->. exfalso. eapply Hdisj; eauto.
  - f_equal. eauto.
Qed.

Lemma groupIntoCollections_lookup tokens i c :
  groupIntoCollections tokens !! i = Some c ->
  exists k, first_seen (collectionKey <$> tokens) !! i = Some k
            /\ c = with_id (toString (i + 1)) (collect k tokens).
Proof.
  rewrite groupIntoCollections_spec, list_lookup_imap.
  destruct (first_seen (collectionKey <$> tokens) !! i) as [k|]; simpl; [|done].
  intros [= <-]. by exists k.
Qed.

Lemma groupIntoCollections_id_list tokens :
  Collection.id <$> groupIntoCollections tokens
  = (fun i => toString (i + 1))
      <$> seq 0 (length (first_seen (collectionKey <$> tokens))).
Proof.
  rewrite groupIntoCollections_spec, fmap_imap.
  rewrite (imap_ext _ (fun i _ => toString (i + 1))) by done.
  apply imap_seq_0.
Qed.

(** Tokens with the same (name, artistName) pair are filed in the same
    collection. *)
Lemma groupIntoCollections_same_pair tokens t1 t2 :
  t1 ∈ tokens -> t2 ∈ tokens -> collectionPair t1 = collectionPair t2 ->
  exists i c,
    groupIntoCollections tokens !! i = Some c
    /\ FakeGotchiNFTToken.identifier t1 ∈ Collection.tokenIds c
    /\ FakeGotchiNFTToken.identifier t2 ∈ Collection.tokenIds c.
Proof.
  intros Ht1 Ht2 Hpair.
  assert (collectionKey t2 = collectionKey t1) as Hkey
    by (unfold collectionKey; by injection Hpair as -> ->).
  assert (collectionKey t1 ∈ first_seen (collectionKey <$> tokens)) as Hin
    by (apply first_seen_elem_of; by apply list_elem_of_fmap_2).
  apply list_elem_of_lookup_1 in Hin as (i & Hi).
  exists i, (with_id (toString (i + 1)) (collect (collectionKey t1) tokens)).
  split_and!.
  - by rewrite groupIntoCollections_spec, list_lookup_imap, Hi.
  - simpl. apply list_elem_of_fmap_2. by apply list_elem_of_filter.
  - simpl. apply list_elem_of_fmap_2. by apply list_elem_of_filter.
Qed.

(** C1 (the code departs from the claim). The key under which a token is
    filed is the single string [name ++ "-" ++ artistName]: the two tokens
    below have different (name, artistName) pairs and yet end in the same
    collection. *)
Theorem groupIntoCollections_key_collision :
  groupIntoCollections
    [FakeGotchiNFTToken.mk "0x1" "1" "a-b" "c" 1;
     FakeGotchiNFTToken.mk "0x2" "2" "a" "b-c" 1]
  = [Collection.mk "1" "a-b" "c" 2 ["1"; "2"]].
Proof. vm_compute. reflexivity. Qed.

(** C2. The collections' token-id lists, put end to end, are a rearrangement
    of the input's identifiers (every input token is filed exactly once); the
    edition counts add up to the input length; the empty input gives the
    empty output; and when the identifiers are distinct, each token's
    identifier occurs in the list of exactly one output collection. *)
Theorem groupIntoCollections_partition (tokens : list Token) :
  concat (Collection.tokenIds <$> groupIntoCollections tokens)
    ≡ₚ FakeGotchiNFTToken.identifier <$> tokens
  /\ total_editions (groupIntoCollections tokens) = Z.of_nat (length tokens)
  /\ groupIntoCollections [] = []
  /\ (NoDup (FakeGotchiNFTToken.identifier <$> tokens) ->
      forall token, token ∈ tokens ->
      exists i,
        (exists c, groupIntoCollections tokens !! i = Some c
                   /\ FakeGotchiNFTToken.identifier token ∈ Collection.tokenIds c)
        /\ forall j c', groupIntoCollections tokens !! j = Some c' ->
             FakeGotchiNFTToken.identifier token ∈ Collection.tokenIds c' -> j = i).
Proof.
  pose proof (groupIntoCollections_perm tokens) as Hperm.
  split_and!.
  - done.
  - rewrite total_editions_length by apply groupIntoCollections_count_ok.
    by rewrite Hperm, length_fmap.
  - done.
  - intros Hnd token Htoken.
    assert (NoDup (concat (Collection.tokenIds <$> groupIntoCollections tokens)))
      as Hnd' by (by rewrite Hperm).
    assert (FakeGotchiNFTToken.identifier token
              ∈ concat (Collection.tokenIds <$> groupIntoCollections tokens)) as Hin.
    { rewrite Hperm. by apply list_elem_of_fmap_2. }
    apply list_elem_of_In, in_concat in Hin as (ids & Hids & Hin).
    apply list_elem_of_In, list_elem_of_lookup in Hids as (i & Hi).
    apply list_elem_of_In in Hin.
    rewrite list_lookup_fmap in Hi.
    destruct (groupIntoCollections tokens !! i) as [c|] eqn:Hc; [|done].
    injection Hi as <-.
    exists i. split; [by exists c|].
    intros j c' Hj Hin'.
    eapply (NoDup_concat_lookup _ j i); [exact Hnd' | | | exact Hin' | exact Hin];
      rewrite list_lookup_fmap; [by rewrite Hj | by rewrite Hc].
Qed.

Lemma groupIntoCollections_key_position tokens i c :
  groupIntoCollections tokens !! i = Some c ->
  first_seen (collectionKey <$> tokens) !! i = Some (collection_key c)
  /\ exists token, token ∈ tokens /\ collectionPair token
                                      = (Collection.name c, Collection.artistName c).
Proof.
  intros Hc. apply groupIntoCollections_lookup in Hc as (k & Hk & ->).
  assert (k ∈ collectionKey <$> tokens) as Hin
    by (apply first_seen_elem_of; by eapply list_elem_of_lookup_2).
  split.
  - rewrite Hk. f_equal. symmetry.
    change (collection_key (with_id _ ?c)) with (collection_key c).
    by apply collection_key_collect.
  - destruct (collect_first_member k tokens Hin) as (t & Ht & _ & Hname & Hartist).
    exists t. split; [done|]. unfold collectionPair. by rewrite <- Hname, <- Hartist.
Qed.

(** C8. The collection at 0-based position [i] of the output has id
    [toString (i + 1)], and its grouping key is the [i]-th distinct key of
    the input in order of first appearance; when no two (name, artistName)
    pairs of the input run into the same key, that is the position of the
    collection's pair among the distinct pairs.  The numbering depends on
    nothing but the sequence of keys: two inputs with the same key sequence
    (in particular the same input twice) get the same ids. *)
Theorem groupIntoCollections_ids (tokens : list Token) :
  length (groupIntoCollections tokens)
    = length (first_seen (collectionKey <$> tokens))
  /\ (forall i c, groupIntoCollections tokens !! i = Some c ->
        Collection.id c = toString (i + 1)
        /\ first_seen (collectionKey <$> tokens) !! i = Some (collection_key c))
  /\ ((forall t1 t2, t1 ∈ tokens -> t2 ∈ tokens ->
          collectionKey t1 = collectionKey t2 -> collectionPair t1 = collectionPair t2) ->
      forall i c, groupIntoCollections tokens !! i = Some c ->
        first_seen (collectionPair <$> tokens) !! i
        = Some (Collection.name c, Collection.artistName c))
  /\ (forall tokens',
        collectionKey <$> tokens' = collectionKey <$> tokens ->
        Collection.id <$> groupIntoCollections tokens'
        = Collection.id <$> groupIntoCollections tokens).
Proof.
  split_and!.
  - by rewrite groupIntoCollections_spec, length_imap.
  - intros i c Hc. split; [by eapply groupIntoCollections_lookup_id|].
    by apply groupIntoCollections_key_position.
  - intros Hinj i c Hc.
    apply groupIntoCollections_key_position in Hc as (Hpos & tc & Htc & Hpair).
    set (join := fun p : string * string => (p.1 ++ "-" ++ p.2)%string).
    assert (collectionKey <$> tokens = join <$> (collectionPair <$> tokens)) as Hkeys
      by (by rewrite <- list_fmap_compose).
    rewrite Hkeys, first_seen_fmap_inj, list_lookup_fmap in Hpos.
    + destruct (first_seen (collectionPair <$> tokens) !! i) as [p|] eqn:Hp; [|done].
      f_equal. injection Hpos as Hjoin.
      assert (p ∈ collectionPair <$> tokens) as Hin
        by (apply first_seen_elem_of; by eapply list_elem_of_lookup_2).
      apply list_elem_of_fmap in Hin as (tp & -> & Htp).
      rewrite <- Hpair. apply Hinj; try done.
      change (collectionKey tp = collection_key c) in Hjoin.
      rewrite Hjoin. unfold collection_key. injection Hpair as <- <-. done.
    + intros p q Hp Hq Hjoin.
      apply list_elem_of_fmap in Hp as (tp & -> & Htp).
      apply list_elem_of_fmap in Hq as (tq & -> & Htq).
      by apply Hinj.
  - intros tokens' Hkeys. by rewrite !groupIntoCollections_id_list, Hkeys.
Qed.

(** C9. [editions = length tokenIds] holds for every entry of the map the
    grouping loop works on after each token it has consumed (the map after
    [n] tokens is [group_loop (take n tokens)], one [group_step] further than
    the map after [n - 1] tokens), and for every collection returned. *)
Theorem groupIntoCollections_edition_count (tokens : list Token) :
  (forall n token, tokens !! n = Some token ->
     group_loop (take (S n) tokens) = group_step (group_loop (take n tokens)) token)
  /\ (forall n, Forall edition_count_ok (JSMap.values (group_loop (take n tokens))))
  /\ Forall edition_count_ok (groupIntoCollections tokens).
Proof.
  split_and!.
  - intros n token Hn. erewrite take_S_r by done. apply group_loop_snoc.
  - intros n. apply group_loop_edition_count.
  - apply groupIntoCollections_count_ok.
Qed.

(** ** The paginated fetch loop *)

Lemma snoc_eq_split {A} (l pre post' : list A) (x e : A) :
  l ++ [x] = pre ++ e :: post' ->
  (post' = [] /\ pre = l /\ e = x)
  \/ (exists post'', post' = post'' ++ [x] /\ l = pre ++ e :: post'').
Proof.
  destruct post' as [|y post' _] using rev_ind; intros Heq.
  - left. apply app_inj_tail in Heq as [-> ->]. done.
  - right. exists post'.
    rewrite app_comm_cons, app_assoc in Heq.
    apply app_inj_tail in Heq as [-> ->]. done.
Qed.

Section FetchFacts.
Context {Server : Type} (post : Server -> Variables.t -> list Token * Server).

Lemma fetch_init_inv s0 : fetch_inv post (fetch_init s0).
Proof.
  split; simpl; try done.
  - intros pre v batch post' Heq. by destruct pre.
  - intros _ e He. by apply elem_of_nil in He.
Qed.

Lemma fetch_iter_inv st :
  fetch_inv post st ->
  hasMore st = true -> (Z.of_nat (length (allTokens st)) < maxResults)%Z ->
  fetch_inv post (fetch_iter post st).
Proof.
  intros [Htok Hskip Hreq Hrun] Hmore Hcap. unfold fetch_iter.
  destruct (post (server st) _) as [batch server'] eqn:Hpost.
  assert (forall pre v b post',
            exchanges st ++ [(Variables.mk batchSize (skip st) "identifier", batch)]
            = pre ++ (v, b) :: post' ->
            v = Variables.mk batchSize (Z.of_nat (fetched pre)) "identifier"
            /\ (Z.of_nat (fetched pre) < maxResults)%Z
            /\ (exists s, b = (post s v).1)
            /\ (post' <> [] -> b <> [])) as Hreq'.
  { intros pre v b post' Heq.
    apply snoc_eq_split in Heq as [(-> & -> & [= -> ->])|(post'' & -> & Heq)].
    - unfold fetched. rewrite <- Htok, <- Hskip. split_and!; try done.
      + lia.
      + exists (server st). by rewrite Hpost.
    - destruct (Hreq _ _ _ _ Heq) as (Hv & Hlt & Hs & _). split_and!; try done.
      intros _. apply (Hrun Hmore (v, b)). rewrite Heq.
      apply elem_of_app. right. left. }
  case_decide as Hempty; split; simpl; try done.
  - apply nil_length_inv in Hempty. subst batch.
    rewrite fmap_app, concat_app, <- Htok. simpl. by rewrite app_nil_r.
  - rewrite fmap_app, concat_app, <- Htok. simpl. by rewrite app_nil_r.
  - rewrite length_app, Hskip. lia.
  - intros _ e He. apply elem_of_app in He as [He|He]; [by apply Hrun|].
    apply list_elem_of_singleton in He. subst e. simpl.
    intros ->. done.
Qed.

Lemma fetch_iter_progress st :
  let st' := fetch_iter post st in
  hasMore st' = false \/ length (allTokens st) < length (allTokens st').
Proof.
  unfold fetch_iter. destruct (post (server st) _) as [batch server'].
  case_decide as Hempty; simpl; [by left|]. right. rewrite length_app. lia.
Qed.

(** The loop returns, keeps the invariant, and leaves only when a batch
    was empty or the cap is reached. *)
Lemma fetch_while_spec fuel st :
  fetch_inv post st -> fetch_measure st <= fuel ->
  exists st', fetch_while post fuel st = Some st'
              /\ fetch_inv post st'
              /\ (hasMore st' = false
                  \/ (maxResults <= Z.of_nat (length (allTokens st')))%Z).
Proof.
  revert st. induction fuel as [|fuel IH]; intros st Hinv Hfuel; simpl.
  - destruct (hasMore st) eqn:Hmore; simpl; [|by eauto].
    case_bool_decide as Hcap; [|exists st; split_and!; auto; lia].
    unfold fetch_measure in Hfuel. rewrite Hmore in Hfuel. lia.
  - destruct (hasMore st) eqn:Hmore; simpl; [|by eauto].
    case_bool_decide as Hcap; [|exists st; split_and!; auto; lia].
    apply IH; [by apply fetch_iter_inv|].
    unfold fetch_measure in *. rewrite Hmore in Hfuel.
    destruct (fetch_iter_progress st) as [->|Hlt]; [lia|].
    destruct (hasMore (fetch_iter post st)); lia.
Qed.

Lemma fetch_run_spec s0 :
  exists st, fetch_run post s0 = Some st
             /\ fetch_inv post st
             /\ (hasMore st = false
                 \/ (maxResults <= Z.of_nat (length (allTokens st)))%Z).
Proof.
  apply fetch_while_spec; [apply fetch_init_inv|].
  unfold fetch_measure. simpl. lia.
Qed.

(** The loop makes at least one request, and a run that stopped on
    [hasMore = false] ended with an empty batch. *)
Lemma fetch_while_last fuel st st' :
  fetch_while post fuel st = Some st' ->
  (hasMore st = false -> exists pre v, exchanges st = pre ++ [(v, [])]) ->
  hasMore st' = false -> exists pre v, exchanges st' = pre ++ [(v, [])].
Proof.
  revert st. induction fuel as [|fuel IH]; intros st; simpl.
  - destruct (hasMore st) eqn:Hmore; simpl.
    + case_bool_decide; [done|]. intros [= <-] _ Hfalse. congruence.
    + intros [= <-] H _. by apply H.
  - destruct (hasMore st) eqn:Hmore; simpl.
    + case_bool_decide.
      * intros Hrun _. apply (IH _ Hrun).
        unfold fetch_iter. destruct (post (server st) _) as [batch server'].
        case_decide as Hempty; simpl; [|congruence].
        intros _. apply nil_length_inv in Hempty. subst batch. eauto.
      * intros [= <-] _ Hfalse. congruence.
    + intros [= <-] H _. by apply H.
Qed.
End FetchFacts.

(** C5 as stated fails: over the two-token list [cat; dog] the first batch
    has two records, fewer than the page size, and the loop still sends a
    second request (answered by the empty batch). *)
Lemma fetchAllData_short_batch_refetches :
  ~ stops_on_short_batch static_post [cat; dog].
Proof.
  intros Hclaim.
  destruct (Hclaim
              {| allTokens := [cat; dog]; hasMore := false; skip := 2;
                 server := [cat; dog];
                 exchanges := [(Variables.mk 1000 0 "identifier", [cat; dog]);
                               (Variables.mk 1000 2 "identifier", [])] |})
    as [Hstop _]; [by vm_compute|].
  specialize (Hstop [] (Variables.mk 1000 0 "identifier") [cat; dog]
                [(Variables.mk 1000 2 "identifier", [])] eq_refl).
  discriminate Hstop. left. by vm_compute.
Qed.

(** Over a subgraph whose list grows by 999 tokens after every request,
    every batch has 999 tokens: the 51st brings the total past the cap. *)
Lemma fetchAllData_overshoot :
  (fun tokens => Z.of_nat (length tokens))
    <$> fetchAllData (growing_post (replicate 999 cat)) (replicate 999 cat)
  = Some 50949%Z.
Proof. vm_compute. reflexivity. Qed.

Lemma stops_on_short_batch_cap {Server : Type}
    (post : Server -> Variables.t -> list Token * Server) (s0 : Server) (n : Z) :
  stops_on_short_batch post s0 ->
  (fun tokens => Z.of_nat (length tokens)) <$> fetchAllData post s0 = Some n ->
  (n <= maxResults)%Z.
Proof.
  intros Hclaim Hlen.
  destruct (fetch_run_spec post s0) as (st & Hrun & _ & _).
  destruct (Hclaim st Hrun) as [_ Hcap].
  unfold fetchAllData in Hlen. rewrite Hrun in Hlen. simpl in Hlen.
  by injection Hlen as <-.
Qed.

Lemma fetchAllData_exceeds_cap :
  ~ stops_on_short_batch (growing_post (replicate 999 cat)) (replicate 999 cat).
Proof.
  intros Hclaim.
  pose proof (stops_on_short_batch_cap _ _ _ Hclaim fetchAllData_overshoot) as Hcap.
  unfold maxResults in Hcap. lia.
Qed.

(** C5 (amended). The loop returns.  Every request asks for [batchSize]
    tokens from the offset reached so far, and a request is the last one
    exactly when its batch is empty or brings the total to [maxResults].
    The tokens returned are the batches put end to end; they stay below
    [maxResults] plus the size of the largest batch. *)
Theorem fetchAllData_stops {Server : Type}
    (post : Server -> Variables.t -> list Token * Server) (s0 : Server) :
  exists st,
    fetch_run post s0 = Some st
    /\ fetchAllData post s0 = Some (allTokens st)
    /\ allTokens st = concat ((exchanges st).*2)
    /\ (forall pre v batch post',
          exchanges st = pre ++ (v, batch) :: post' ->
          Variables.first v = batchSize
          /\ Variables.skip v = Z.of_nat (fetched pre)
          /\ (post' = []
              <-> batch = []
                  \/ (maxResults <= Z.of_nat (fetched (pre ++ [(v, batch)])))%Z))
    /\ (forall b : nat,
          (forall e, e ∈ exchanges st -> length e.2 <= b) ->
          (Z.of_nat (length (allTokens st)) < maxResults + Z.of_nat b)%Z).
Proof.
  destruct (fetch_run_spec post s0) as (st & Hrun & [Htok Hskip Hreq Hmore] & Hexit).
  exists st. split_and!.
  - done.
  - unfold fetchAllData. by rewrite Hrun.
  - done.
  - intros pre v batch post' Heq.
    destruct (Hreq _ _ _ _ Heq) as (-> & Hlt & _ & Hnext). split_and!; try done.
    split.
    + intros ->. destruct Hexit as [Hfalse|Hcap].
      * left. apply (fetch_while_last post _ _ _ Hrun) in Hfalse as (pre' & v' & Heq');
          [|done].
        rewrite Heq' in Heq. apply app_inj_tail in Heq as [_ [= _ <-]]. done.
      * right. rewrite <- Heq. unfold fetched. by rewrite <- Htok.
    + intros [->|Hcap].
      * destruct post' as [|e post']; [done|]. exfalso. by apply Hnext.
      * destruct post' as [|[v' batch'] post']; [done|]. exfalso.
        assert (exchanges st
                = (pre ++ [(Variables.mk batchSize (Z.of_nat (fetched pre)) "identifier",
                            batch)]) ++ (v', batch') :: post') as Heq'
          by (by rewrite Heq, <- app_assoc).
        destruct (Hreq _ _ _ _ Heq') as (_ & Hlt' & _). lia.
  - intros b Hb. rewrite Htok.
    destruct (exchanges st) as [|[v batch] pre _] eqn:Hex using rev_ind.
    + simpl. unfold maxResults. lia.
    + destruct (Hreq pre v batch [] eq_refl) as (_ & Hlt & _).
      specialize (Hb (v, batch)). simpl in Hb.
      rewrite fmap_app, concat_app, length_app. simpl. rewrite app_nil_r.
      unfold fetched in Hlt.
      assert (length batch <= b) by (apply Hb, elem_of_app; right; left). lia.
Qed.

(** ** contract-comparison.ts *)

Import Contract.

Section ComparisonFacts.
Variable parseInt : string -> Z.

Lemma compare_step_acc contractData differences collection :
  compare_step parseInt contractData differences collection
  = app differences <$> compare_step parseInt contractData [] collection.
Proof.
  unfold compare_step.
  destruct (contractData !! _); [case_bool_decide|case_decide]; simpl;
    by rewrite ?app_nil_r.
Qed.

Lemma compareData_loop_None contractData collectionsData :
  foldl (fun acc collection =>
           differences ← acc;
           compare_step parseInt contractData differences collection)
    None collectionsData = None.
Proof. induction collectionsData as [|c l IH]; [done | exact IH]. Qed.

Lemma compareData_loop_acc contractData differences collectionsData :
  foldl (fun acc collection =>
           differences ← acc;
           compare_step parseInt contractData differences collection)
    (Some differences) collectionsData
  = app differences <$> compareData parseInt contractData collectionsData.
Proof.
  unfold compareData. revert differences.
  induction collectionsData as [|c l IH]; intros differences; simpl.
  - by rewrite app_nil_r.
  - rewrite compare_step_acc.
    destruct (compare_step parseInt contractData [] c) as [r|]; simpl.
    + rewrite (IH (differences ++ r)), (IH r).
      destruct (foldl _ (Some []) l); simpl; [by rewrite app_assoc | done].
    + by rewrite !compareData_loop_None.
Qed.

Lemma compareData_cons contractData collection collectionsData :
  compareData parseInt contractData (collection :: collectionsData)
  = records ← compare_step parseInt contractData [] collection;
    app records <$> compareData parseInt contractData collectionsData.
Proof.
  unfold compareData at 1. simpl.
  destruct (compare_step parseInt contractData [] collection) as [r|]; simpl.
  - apply compareData_loop_acc.
  - apply compareData_loop_None.
Qed.

Lemma compareData_app contractData l1 l2 :
  compareData parseInt contractData (l1 ++ l2)
  = before ← compareData parseInt contractData l1;
    app before <$> compareData parseInt contractData l2.
Proof.
  unfold compareData at 1. rewrite foldl_app.
  fold (compareData parseInt contractData l1).
  destruct (compareData parseInt contractData l1) as [r|]; simpl.
  - apply compareData_loop_acc.
  - apply compareData_loop_None.
Qed.

Lemma compare_step_missing contractData collection :
  contractData !! FakeGotchiCollection.id collection = None ->
  FakeGotchiCollection.id collection ∉ Object_prototype_keys ->
  compare_step parseInt contractData [] collection
  = Some [missing_in_contract collection].
Proof.
  intros Hnone Hown. unfold compare_step. by rewrite Hnone, decide_False.
Qed.

Lemma fetch_batches_contractData getMetadata collectionsData :
  (fetch_batches getMetadata collectionsData).1 = ∅.
Proof.
  unfold fetch_batches.
  apply (foldl_invariant (fun st => st.1 = ∅)); [|done].
  intros st k Hst. apply (foldl_invariant (fun st => st.1 = ∅)); [|done].
  intros st' c Hst'. unfold fetch_one. by destruct (getMetadata _).
Qed.
End ComparisonFacts.

(** The decimal numeral of a number starts with a digit. *)
Lemma pretty_N_go_digit (x : N) (s : string) :
  (0 < x)%N -> exists y t, pretty_N_go x s = String (pretty_N_char y) t.
Proof.
  revert s. induction (N.lt_wf_0 x) as [x _ IH]; intros s Hx.
  rewrite pretty_N_go_step by done.
  destruct (decide (0 < x `div` 10)%N) as [Hdiv|Hdiv].
  - apply IH; [by apply N.div_lt | done].
  - apply N.nlt_ge, N.le_0_r in Hdiv. rewrite Hdiv, pretty_N_go_0.
    by eexists _, _.
Qed.

Lemma toString_digit n : exists y t, toString n = String (pretty_N_char y) t.
Proof.
  unfold toString, pretty, pretty_nat, pretty, pretty_N.
  case_decide; [by exists 0%N, "" | apply pretty_N_go_digit; lia].
Qed.

Lemma toString_not_inherited n : toString n ∉ Object_prototype_keys.
Proof.
  destruct (toString_digit n) as (y & t & ->). unfold Object_prototype_keys.
  intros Hin.
  repeat (apply elem_of_cons in Hin as [Hin|Hin];
          [injection Hin as Hc _; unfold pretty_N_char in Hc;
           by repeat case_match|]).
  by apply elem_of_nil in Hin.
Qed.

(** C6. A collection whose id has no entry in the contract data, and is not
    a property name that the contract data inherits from [Object.prototype],
    yields the record [missing_in_contract] with its subgraph snapshot (name,
    artist and edition count) and a null contract side, between the records
    of the collections before it and those of the collections after it:
    this collection aborts nothing.  The contract data returned by
    [fetchContractMetadata] has no entry for a collection whose read failed
    (it has no entry at all), so every collection is reported that way.  The
    ids that the collection grouper assigns are decimal numerals, none of
    them an inherited name. *)
Theorem compareData_missing_in_contract (parseInt : string -> Z)
    (collectionsData : list FakeGotchiCollection.t) :
  (forall contractData pre c post',
     collectionsData = pre ++ c :: post' ->
     contractData !! FakeGotchiCollection.id c = None ->
     FakeGotchiCollection.id c ∉ Object_prototype_keys ->
     compareData parseInt contractData collectionsData
     = before ← compareData parseInt contractData pre;
       after ← compareData parseInt contractData post';
       Some (before
             ++ ContractDifference.mk (FakeGotchiCollection.id c)
                  ["missing_in_contract"]
                  (Some (SubgraphSnapshot.mk (FakeGotchiCollection.name c)
                           (FakeGotchiCollection.artistName c)
                           (FakeGotchiCollection.editions c)))
                  None
                :: after))
  /\ (forall getMetadata c message,
        c ∈ collectionsData ->
        getMetadata (FakeGotchiCollection.id c) = inl message ->
        fetchContractMetadata getMetadata collectionsData
          !! FakeGotchiCollection.id c = None)
  /\ (forall getMetadata,
        Forall (fun c => FakeGotchiCollection.id c ∉ Object_prototype_keys)
          collectionsData ->
        compareData parseInt (fetchContractMetadata getMetadata collectionsData)
          collectionsData
        = Some ((fun c =>
                   ContractDifference.mk (FakeGotchiCollection.id c)
                     ["missing_in_contract"]
                     (Some (SubgraphSnapshot.mk (FakeGotchiCollection.name c)
                              (FakeGotchiCollection.artistName c)
                              (FakeGotchiCollection.editions c)))
                     None)
                  <$> collectionsData))
  /\ (forall n, toString n ∉ Object_prototype_keys).
Proof.
  split_and!.
  - intros contractData pre c post' -> Hnone Hown.
    rewrite compareData_app, compareData_cons.
    rewrite compare_step_missing by done.
    destruct (compareData parseInt contractData pre) as [before|]; [|done].
    simpl. by destruct (compareData parseInt contractData post').
  - intros getMetadata c message _ _. unfold fetchContractMetadata.
    by rewrite fetch_batches_contractData.
  - intros getMetadata Hown. unfold fetchContractMetadata.
    rewrite fetch_batches_contractData.
    induction Hown as [|c l Hc Hl IH]; [done|].
    rewrite compareData_cons, compare_step_missing, IH by done. done.
  - apply toString_not_inherited.
Qed.

Lemma JSMap_from_entries_NoDup {V} (entries : list (string * V)) :
  NoDup entries.*1 -> JSMap.from_entries entries = entries.
Proof.
  unfold JSMap.from_entries.
  induction entries as [|[k v] entries IH] using rev_ind; [done|].
  rewrite fmap_app, NoDup_app. intros (Hnd & Hdisj & _).
  rewrite foldl_snoc, IH by done. simpl. apply JSMap_set_fresh.
  intros Hin. apply (Hdisj _ Hin). left.
Qed.

Lemma JSMap_get_map_to_list {V} (m : gmap string V) k :
  JSMap.get k (map_to_list m) = m !! k.
Proof.
  destruct (m !! k) as [v|] eqn:Hm.
  - apply JSMap_elem_get; [apply NoDup_fst_map_to_list|].
    by apply elem_of_map_to_list.
  - apply JSMap_get_None. unfold JSMap.keys. intros Hin.
    apply list_elem_of_fmap in Hin as ([k' v] & -> & Hin).
    apply elem_of_map_to_list in Hin. simpl in Hm. congruence.
Qed.

Lemma filter_all_in {A} (P : A -> Prop) `{!forall x, Decision (P x)} (l : list A) :
  (forall x, x ∈ l -> P x) -> filter P l = l.
Proof.
  induction l as [|x l IH]; intros HP; [done|].
  rewrite filter_cons, decide_True, IH; [done | | apply HP; left].
  intros y Hy. apply HP. by right.
Qed.

Lemma filter_none_in {A} (P : A -> Prop) `{!forall x, Decision (P x)} (l : list A) :
  (forall x, x ∈ l -> ~ P x) -> filter P l = [].
Proof.
  induction l as [|x l IH]; intros HP; [done|].
  rewrite filter_cons, decide_False, IH; [done | | apply HP; left].
  intros y Hy. apply HP. by right.
Qed.

(** A record is filed under a key of a duplicate-free key list: the records
    with that id are those made for that key. *)
Lemma filter_bind_keyed {R} (id_of : R -> string) (f : string -> list R)
    (ks : list string) k :
  NoDup ks -> (forall k' r, r ∈ f k' -> id_of r = k') ->
  filter (fun r => id_of r = k) (ks ≫= f) = if decide (k ∈ ks) then f k else [].
Proof.
  intros Hnd Hf.
  induction ks as [|k0 ks IH]; [done|].
  apply NoDup_cons in Hnd as [Hk0 Hnd].
  rewrite bind_cons, filter_app, IH by done.
  destruct (decide (k0 = k)) as [->|Hne].
  - rewrite (decide_False (P := k ∈ ks)) by done.
    rewrite decide_True by left.
    rewrite app_nil_r. apply filter_all_in. intros r Hr. by apply Hf in Hr.
  - rewrite filter_none_in.
    2:{ intros r Hr Heq. apply Hf in Hr. congruence. }
    simpl. destruct (decide (k ∈ ks)).
    + rewrite decide_True; [done | by right].
    + rewrite decide_False; [done|]. rewrite not_elem_of_cons. split; congruence.
Qed.

Section KeyedFacts.
Variable parseInt : string -> Z.

Lemma foldl_insert_lookup {A B} (f : string -> A -> B) (skipped : string)
    (l : list (string * A)) (acc : gmap string B) k :
  NoDup l.*1 ->
  foldl (fun acc e => if decide (e.1 = skipped) then acc
                      else <[e.1 := f e.1 e.2]> acc) acc l !! k
  = match (list_to_map l : gmap string A) !! k with
    | Some x => if decide (k = skipped) then acc !! k else Some (f k x)
    | None => acc !! k
    end.
Proof.
  revert acc. induction l as [|[k0 x0] l IH]; intros acc Hnd; [done|].
  rewrite fmap_cons in Hnd. apply NoDup_cons in Hnd as [Hk0 Hnd].
  simpl. rewrite IH by done.
  apply not_elem_of_list_to_map_1 in Hk0.
  destruct (decide (k0 = k)) as [->|Hne].
  - rewrite lookup_insert_eq.
    rewrite (Hk0 : (list_to_map l : gmap string A) !! k = None).
    destruct (decide (k = skipped)); [done|]. by rewrite lookup_insert_eq.
  - rewrite (lookup_insert_ne (list_to_map l)) by done.
    destruct (decide (k0 = skipped)); [done|].
    destruct (list_to_map l !! k); rewrite ?lookup_insert_ne by done; done.
Qed.

Lemma contractCollections_lookup contractData k :
  contractCollections parseInt contractData !! k
  = if decide (k = "__proto__") then None
    else contractCollection parseInt k <$> contractData !! k.
Proof.
  unfold contractCollections.
  rewrite (foldl_insert_lookup (contractCollection parseInt))
    by apply NoDup_fst_map_to_list.
  rewrite list_to_map_to_list.
  destruct (contractData !! k); by case_decide.
Qed.

Lemma contractCollectionsMap_get contractData k :
  JSMap.get k (contractCollectionsMap parseInt contractData)
  = if decide (k = "__proto__") then None
    else contractCollection parseInt k <$> contractData !! k.
Proof.
  unfold contractCollectionsMap, contractCollectionsArray.
  rewrite <- list_fmap_compose.
  rewrite (list_fmap_ext _ id (map_to_list (contractCollections parseInt contractData))).
  2:{ intros i [k' c] Hi. apply list_elem_of_lookup_2, elem_of_map_to_list in Hi.
      rewrite contractCollections_lookup in Hi. case_decide; [done|].
      destruct (contractData !! k'); [|done]. by injection Hi as <-. }
  rewrite list_fmap_id, JSMap_from_entries_NoDup by apply NoDup_fst_map_to_list.
  rewrite JSMap_get_map_to_list. apply contractCollections_lookup.
Qed.

Lemma subgraphCollectionsMap_get collectionsData k :
  JSMap.get k (subgraphCollectionsMap collectionsData)
  = last (filter (fun c => FakeGotchiCollection.id c = k) collectionsData).
Proof.
  unfold subgraphCollectionsMap.
  rewrite JSMap_get_from_entries.
  rewrite (filter_fmap_key _ (fun e => e.1 = k)). simpl.
  rewrite fmap_last, <- option_fmap_compose. apply option_fmap_id.
Qed.

Lemma collection_compare_step_acc sm cm differences id :
  collection_compare_step sm cm differences id
  = differences ++ collection_compare_step sm cm [] id.
Proof.
  unfold collection_compare_step.
  destruct (JSMap.get id sm); [destruct (JSMap.get id cm); [case_bool_decide|]|];
    by rewrite ?app_nil_r.
Qed.

Lemma collection_diffTypes_nil l r :
  collection_diffTypes l r = []
  <-> FakeGotchiCollection.name l = ContractCollection.name r
      /\ FakeGotchiCollection.artistName l = ContractCollection.artistName r
      /\ FakeGotchiCollection.editions l = ContractCollection.editions r.
Proof.
  unfold collection_diffTypes. repeat case_decide; simpl; split; intros Heq;
    try done; destruct Heq as (? & ? & ?); done.
Qed.

(** The callback, started from no differences, reports what the
    specification says for the key, provided the key is on one side. *)
Lemma collection_compare_step_entry sm cm id :
  is_Some (JSMap.get id sm) \/ is_Some (JSMap.get id cm) ->
  collection_compare_step sm cm [] id
  = keyed_entry id (JSMap.get id sm) (JSMap.get id cm).
Proof.
  intros Hsome. unfold collection_compare_step, keyed_entry.
  destruct (JSMap.get id sm) as [l|], (JSMap.get id cm) as [r|]; simpl; try done.
  - case_bool_decide as Hlen; case_decide as Heq; try done.
    + apply collection_diffTypes_nil in Heq. rewrite Heq in Hlen. simpl in Hlen. lia.
    + exfalso. apply Heq, collection_diffTypes_nil.
      destruct (collection_diffTypes l r); [done | simpl in Hlen; lia].
  - destruct Hsome as [[? ?]|[? ?]]; done.
Qed.

Lemma keyed_entry_id id l r rec :
  rec ∈ keyed_entry id l r -> ContractDifference.id rec = id.
Proof.
  unfold keyed_entry. destruct l, r; try case_decide; intros Hin;
    try (by apply elem_of_nil in Hin);
    apply list_elem_of_singleton in Hin; by subst rec.
Qed.

Lemma compareCollectionData_bind contractData collectionsData :
  compareCollectionData parseInt contractData collectionsData
  = JSSet.from_list
      (JSMap.keys (subgraphCollectionsMap collectionsData)
       ++ JSMap.keys (contractCollectionsMap parseInt contractData))
    ≫= fun id =>
         keyed_entry id
           (JSMap.get id (subgraphCollectionsMap collectionsData))
           (JSMap.get id (contractCollectionsMap parseInt contractData)).
Proof.
  unfold compareCollectionData.
  set (sm := subgraphCollectionsMap collectionsData).
  set (cm := contractCollectionsMap parseInt contractData).
  assert (forall ks : list string,
            (forall k, k ∈ ks -> k ∈ JSMap.keys sm ++ JSMap.keys cm) ->
            foldl (collection_compare_step sm cm) [] ks
            = ks ≫= fun id => keyed_entry id (JSMap.get id sm) (JSMap.get id cm))
    as Hgen.
  { induction ks as [|k ks IH] using rev_ind; intros Hks; [done|].
    rewrite foldl_snoc, bind_app, IH, collection_compare_step_acc.
    2:{ intros k' Hk'. apply Hks, elem_of_app. by left. }
    simpl. rewrite app_nil_r. f_equal. apply collection_compare_step_entry.
    specialize (Hks k). rewrite !elem_of_app in Hks.
    destruct Hks as [Hk|Hk]; [right; left | |].
    - left. destruct (JSMap.get k sm) eqn:Hget; [by eexists|].
      by apply JSMap_get_None in Hget.
    - right. destruct (JSMap.get k cm) eqn:Hget; [by eexists|].
      by apply JSMap_get_None in Hget. }
  apply Hgen. intros k Hk. by apply JSSet_elem_of_from_list.
Qed.
End KeyedFacts.

Lemma compareCollectionData_by_key (parseInt : string -> Z)
    (contractData : gmap string ContractMetadata.t)
    (collectionsData : list FakeGotchiCollection.t) (id : string) :
  filter (fun r => ContractDifference.id r = id)
    (compareCollectionData parseInt contractData collectionsData)
  = keyed_entry id
      (last (filter (fun c => FakeGotchiCollection.id c = id) collectionsData))
      (if decide (id = "__proto__") then None
       else contractCollection parseInt id <$> contractData !! id).
Proof.
  rewrite compareCollectionData_bind.
  rewrite (filter_bind_keyed ContractDifference.id);
    [|apply JSSet_NoDup_from_list | intros; by eapply keyed_entry_id].
  rewrite <- subgraphCollectionsMap_get, <- (contractCollectionsMap_get parseInt).
  case_decide as Hin; [done|].
  rewrite JSSet_elem_of_from_list, not_elem_of_app in Hin. destruct Hin as [Hs Hc].
  apply JSMap_get_None in Hs, Hc. by rewrite Hs, Hc.
Qed.

(** C4. When the contract data has no own key ["__proto__"], the records
    that [compareCollectionData] reports for a key [id] are those of the
    keyed differ: none when the key is on neither side; [missing_in_subgraph]
    with the contract collection when only the contract has it;
    [missing_in_contract] with the subgraph collection when only the
    subgraph has it; and when both have it, one record with both collections
    exactly when name, artistName or editions differ.  (The subgraph side of
    a key is the last collection with that id; the contract side holds the
    name and the artist of the metadata stored under the key, its edition
    count read as a number, and the key.)  With equal names and artists and
    editions 5 against 6 the output is the single record for "1" with
    differences ["editions"]. *)
Theorem compareCollectionData_keyed (parseInt : string -> Z)
    (contractData : gmap string ContractMetadata.t)
    (collectionsData : list FakeGotchiCollection.t) :
  contractData !! "__proto__" = None ->
  (forall id,
     filter (fun r => ContractDifference.id r = id)
       (compareCollectionData parseInt contractData collectionsData)
     = keyed_entry id
         (last (filter (fun c => FakeGotchiCollection.id c = id) collectionsData))
         ((fun metadata =>
             ContractCollection.mk (ContractMetadata.name metadata)
               (ContractMetadata.artistName metadata)
               (parseInt (BigNumber_toString (ContractMetadata.editions metadata)))
               id)
            <$> contractData !! id))
  /\ compareCollectionData parseInt_decimal
       {[ "1" := ContractMetadata.mk "A" "X" 6 1 ]}
       [FakeGotchiCollection.mk "1" "A" "X" 5]
     = [ContractDifference.mk "1" ["editions"]
          (Some (FakeGotchiCollection.mk "1" "A" "X" 5))
          (Some (ContractCollection.mk "A" "X" 6 "1"))].
Proof.
  intros Hproto. split; [|by vm_compute].
  intros id. rewrite compareCollectionData_by_key.
  case_decide as Hid; [|done]. subst id. by rewrite Hproto.
Qed.

(** ** The theorems at concrete inputs *)

(** C2 at [cat; dog; cat']: the identifiers are distinct, and "3" is listed
    by exactly one collection. *)
Lemma groupIntoCollections_partition_witness :
  exists i,
    (exists c, groupIntoCollections [cat; dog; cat'] !! i = Some c
               /\ "3" ∈ Collection.tokenIds c)
    /\ forall j c', groupIntoCollections [cat; dog; cat'] !! j = Some c' ->
         "3" ∈ Collection.tokenIds c' -> j = i.
Proof.
  destruct (groupIntoCollections_partition [cat; dog; cat']) as (_ & _ & _ & Hone).
  apply (Hone ltac:(compute_done) cat').
  repeat constructor.
Defined.

(** C3 at [cat; owl] against [cat; dog]: [owl] is only on the left, [dog]
    only on the right. *)
Lemma findDifferences_one_sided_witness :
  filter (fun r => Difference.id r = "4") (findDifferences [cat; owl] [cat; dog])
  = [Difference.mk "4" ["missing_in_prod"]
       (Some (TokenSnapshot.mk "Owl" "Eve" 1 "4")) None]
  /\ filter (fun r => Difference.id r = "2") (findDifferences [cat; owl] [cat; dog])
     = [Difference.mk "2" ["missing_in_subgraph1"] None
          (Some (TokenSnapshot.mk "Dog" "Ann" 1 "2"))].
Proof.
  assert (NoDup (FakeGotchiNFTToken.identifier <$> [cat; owl])) as Hnd1
    by compute_done.
  assert (NoDup (FakeGotchiNFTToken.identifier <$> [cat; dog])) as Hnd2
    by compute_done.
  destruct (findDifferences_one_sided [cat; owl] [cat; dog] Hnd1 Hnd2) as [Hleft Hright].
  split.
  - apply (Hleft owl); [repeat constructor | compute_done].
  - apply (Hright dog); [repeat constructor | compute_done].
Defined.

(** C5 (amended) over the two-token list [cat; dog]: the first request asks
    for [batchSize] tokens at offset 0 and is not the last. *)
Lemma fetchAllData_stops_witness :
  Variables.first (Variables.mk 1000 0 "identifier") = batchSize
  /\ Variables.skip (Variables.mk 1000 0 "identifier") = Z.of_nat (fetched [])
  /\ ([(Variables.mk 1000 2 "identifier", @nil Token)] = []
      <-> [cat; dog] = []
          \/ (maxResults
              <= Z.of_nat (fetched ([] ++ [(Variables.mk 1000 0 "identifier",
                                            [cat; dog])])))%Z).
Proof.
  destruct (fetchAllData_stops static_post [cat; dog])
    as (st & Hrun & _ & _ & Hreq & _).
  vm_compute in Hrun. injection Hrun as <-.
  apply (Hreq [] _ _ _ eq_refl).
Defined.

(** C4 at a contract that holds "1" and "2" against a subgraph that holds
    "1" only: the key "2" is reported as missing in the subgraph. *)
Lemma compareCollectionData_keyed_witness :
  filter (fun r => ContractDifference.id r = "2")
    (compareCollectionData parseInt_decimal
       (<["2" := ContractMetadata.mk "B" "Y" 3 2]>
          {[ "1" := ContractMetadata.mk "A" "X" 6 1 ]})
       [FakeGotchiCollection.mk "1" "A" "X" 5])
  = [ContractDifference.mk "2" ["missing_in_subgraph"] None
       (Some (ContractCollection.mk "B" "Y" 3 "2"))].
Proof.
  destruct (compareCollectionData_keyed parseInt_decimal
              (<["2" := ContractMetadata.mk "B" "Y" 3 2]>
                 {[ "1" := ContractMetadata.mk "A" "X" 6 1 ]})
              [FakeGotchiCollection.mk "1" "A" "X" 5]) as [Hkey _];
    [by vm_compute|].
  rewrite (Hkey "2"). by vm_compute.
Defined.

(** C6 at two collections, none of them in the contract data, the read of
    "2" failing. *)
Lemma compareData_missing_in_contract_witness :
  compareData parseInt_decimal ∅
    [FakeGotchiCollection.mk "1" "Cat" "Bob" 2; FakeGotchiCollection.mk "2" "Dog" "Ann" 1]
  = Some [ContractDifference.mk "1" ["missing_in_contract"]
            (Some (SubgraphSnapshot.mk "Cat" "Bob" 2)) None;
          ContractDifference.mk "2" ["missing_in_contract"]
            (Some (SubgraphSnapshot.mk "Dog" "Ann" 1)) None]
  /\ fetchContractMetadata
       (fun id => if decide (id = "2") then inl "call revert exception"
                  else inr (ContractMetadata.mk "Cat" "Bob" 2 1))
       [FakeGotchiCollection.mk "1" "Cat" "Bob" 2;
        FakeGotchiCollection.mk "2" "Dog" "Ann" 1]
     !! "2" = None.
Proof.
  destruct (compareData_missing_in_contract parseInt_decimal
              [FakeGotchiCollection.mk "1" "Cat" "Bob" 2;
               FakeGotchiCollection.mk "2" "Dog" "Ann" 1]) as (Hrec & Hfail & _).
  split.
  - rewrite (Hrec ∅ [FakeGotchiCollection.mk "1" "Cat" "Bob" 2]
               (FakeGotchiCollection.mk "2" "Dog" "Ann" 1) []);
      [reflexivity | reflexivity | reflexivity | compute_done].
  - apply (Hfail _ (FakeGotchiCollection.mk "2" "Dog" "Ann" 1) "call revert exception");
      [repeat constructor | reflexivity].
Defined.

(** C8 at [cat; dog; cat']: the second collection has id "2" and the second
    distinct key; [cat'; dog; cat] has the same key sequence and the same
    ids. *)
Lemma groupIntoCollections_ids_witness :
  (Collection.id (Collection.mk "2" "Dog" "Ann" 1 ["2"]) = toString (1 + 1)
   /\ first_seen (collectionKey <$> [cat; dog; cat']) !! 1
      = Some (collection_key (Collection.mk "2" "Dog" "Ann" 1 ["2"])))
  /\ first_seen (collectionPair <$> [cat; dog; cat']) !! 1 = Some ("Dog", "Ann")
  /\ Collection.id <$> groupIntoCollections [cat'; dog; cat]
     = Collection.id <$> groupIntoCollections [cat; dog; cat'].
Proof.
  destruct (groupIntoCollections_ids [cat; dog; cat']) as (_ & Hpos & Hpair & Hdet).
  split; [|split].
  - apply (Hpos 1). reflexivity.
  - assert (forall t1 t2, t1 ∈ [cat; dog; cat'] -> t2 ∈ [cat; dog; cat'] ->
              collectionKey t1 = collectionKey t2 ->
              collectionPair t1 = collectionPair t2) as Hinj.
    { intros t1 t2 Ht1 Ht2. apply list_elem_of_In in Ht1, Ht2.
      simpl in Ht1, Ht2. intuition subst; first [reflexivity | discriminate]. }
    exact (Hpair Hinj 1 (Collection.mk "2" "Dog" "Ann" 1 ["2"]) eq_refl).
  - apply Hdet. reflexivity.
Defined.

(** C9 at [cat; dog; cat']: the map after the third token is one step from
    the map after the second. *)
Lemma groupIntoCollections_edition_count_witness :
  group_loop (take 3 [cat; dog; cat'])
  = group_step (group_loop (take 2 [cat; dog; cat'])) cat'.
Proof.
  destruct (groupIntoCollections_edition_count [cat; dog; cat']) as (Hstep & _ & _).
  apply (Hstep 2). reflexivity.
Defined.

(** C10 at the collections of [cat] and of [cat; dog]: the one record has id
    "1" and reports the collection numbered "2". *)
Lemma positional_id_off_by_one_witness :
  exists i,
    Difference.id (Difference.mk "1" ["missing_in_subgraph1"] None
                     (Some (CollectionSnapshot.mk "Dog" "Ann" 1))) = toString i
    /\ forall c,
         groupIntoCollections [cat] !! i = Some c
         \/ groupIntoCollections [cat; dog] !! i = Some c ->
         Collection.id c = toString (i + 1)
         /\ Collection.id c <> "1".
Proof.
  destruct (positional_id_off_by_one [cat] [cat; dog]) as (out & Hout & Hrec).
  vm_compute in Hout. injection Hout as <-.
  destruct (Hrec _ ltac:(left)) as (i & Hid & _ & _ & Hcol).
  exists i. split; [exact Hid | exact Hcol].
Defined.

(** * Further properties *)

Import SubgraphSpec.

(** ** The collection grouper *)

Lemma first_seen_length {A} `{EqDecision A} (l : list A) :
  length (first_seen l) <= length l.
Proof.
  induction l as [|x l IH]; simpl; [done|].
  pose proof (length_filter (fun y => y <> x) (first_seen l)). lia.
Qed.

Lemma first_seen_snoc (ks : list string) k :
  first_seen (ks ++ [k])
  = if decide (k ∈ ks) then first_seen ks else first_seen ks ++ [k].
Proof.
  rewrite <- !JSSet_from_list_first_seen, JSSet_from_list_snoc.
  unfold JSSet.add, JSSet.has.
  case_bool_decide as Hin; rewrite JSSet_elem_of_from_list in Hin.
  - by rewrite decide_True.
  - by rewrite decide_False.
Qed.

Lemma groupIntoCollections_keys tokens :
  collection_key <$> groupIntoCollections tokens
  = first_seen (collectionKey <$> tokens).
Proof.
  apply list_eq. intros i. rewrite list_lookup_fmap.
  destruct (groupIntoCollections tokens !! i) as [c|] eqn:Hc; simpl.
  - symmetry. by apply groupIntoCollections_key_position.
  - symmetry. apply lookup_ge_None. apply lookup_ge_None in Hc.
    by rewrite groupIntoCollections_spec, length_imap in Hc.
Qed.

Lemma groupIntoCollections_group (tokens : list Token) (i : nat) (c : Collection.t) :
  groupIntoCollections tokens !! i = Some c ->
  exists first rest,
    filter (fun token => collectionKey token = collection_key c) tokens
      = first :: rest
    /\ Collection.name c = FakeGotchiNFTToken.name first
    /\ Collection.artistName c = FakeGotchiNFTToken.artistName first
    /\ Collection.tokenIds c = FakeGotchiNFTToken.identifier <$> first :: rest
    /\ Collection.editions c = Z.of_nat (S (length rest)).
Proof.
  intros Hc.
  destruct (groupIntoCollections_key_position tokens i c Hc) as [Hkey _].
  apply groupIntoCollections_lookup in Hc as (k & Hk & ->).
  rewrite Hk in Hkey. injection Hkey as Hkey. rewrite <- Hkey.
  assert (k ∈ collectionKey <$> tokens) as Hin
    by (apply first_seen_elem_of; by eapply list_elem_of_lookup_2).
  destruct (members_cons_inv k tokens Hin) as (t & ms & Hms).
  exists t, ms. unfold with_id, collect. simpl. rewrite Hms. by split_and!.
Qed.

(** X1. The collection at any position of the output collects, in input
    order, the identifiers of exactly the tokens filed under its key; it
    carries the name and the artist of the first of them, and counts them. *)
Theorem groupIntoCollections_members (tokens : list Token) (i : nat) (c : Collection.t) :
  groupIntoCollections tokens !! i = Some c ->
  exists first rest,
    filter (fun token => collectionKey token = collection_key c) tokens
      = first :: rest
    /\ Collection.name c = FakeGotchiNFTToken.name first
    /\ Collection.artistName c = FakeGotchiNFTToken.artistName first
    /\ Collection.tokenIds c = FakeGotchiNFTToken.identifier <$> first :: rest
    /\ Collection.editions c = Z.of_nat (S (length rest)).
Proof. apply groupIntoCollections_group. Qed.

(** X2. No two collections of the output have the same grouping key, and no
    two have the same id. *)
Theorem groupIntoCollections_distinct (tokens : list Token) :
  NoDup (collection_key <$> groupIntoCollections tokens)
  /\ NoDup (Collection.id <$> groupIntoCollections tokens).
Proof.
  split.
  - rewrite groupIntoCollections_keys. apply first_seen_NoDup.
  - rewrite groupIntoCollections_id_list.
    apply NoDup_fmap_2; [|apply NoDup_seq].
    intros i j Hij%toString_inj. lia.
Qed.

(** X3. No collection of the output is empty, so there are at most as many
    collections as tokens. *)
Theorem groupIntoCollections_nonempty (tokens : list Token) :
  Forall (fun c => (1 <= Collection.editions c)%Z /\ Collection.tokenIds c <> [])
    (groupIntoCollections tokens)
  /\ length (groupIntoCollections tokens) <= length tokens.
Proof.
  split.
  - apply Forall_lookup. intros i c Hc.
    destruct (groupIntoCollections_group tokens i c Hc)
      as (t & ms & _ & _ & _ & -> & ->).
    split; [lia | done].
  - rewrite groupIntoCollections_spec, length_imap.
    etrans; [apply first_seen_length|]. by rewrite length_fmap.
Qed.

Lemma collection_key_with_id id c : collection_key (with_id id c) = collection_key c.
Proof. done. Qed.

Lemma collect_snoc_other k tokens token :
  collectionKey token <> k -> collect k (tokens ++ [token]) = collect k tokens.
Proof.
  intros Hne. unfold collect. by rewrite members_snoc, decide_False, app_nil_r.
Qed.

Lemma collect_snoc_same tokens token :
  collectionKey token ∈ collectionKey <$> tokens ->
  collect (collectionKey token) (tokens ++ [token])
  = add_edition token (collect (collectionKey token) tokens).
Proof.
  intros Hin. unfold collect, add_edition. rewrite members_snoc, decide_True by done.
  destruct (members_cons_inv _ tokens Hin) as (t & ms & ->). simpl.
  rewrite length_app, fmap_app. simpl. f_equal. lia.
Qed.

Lemma collect_snoc_new tokens token :
  collectionKey token ∉ collectionKey <$> tokens ->
  collect (collectionKey token) (tokens ++ [token])
  = Collection.mk "" (FakeGotchiNFTToken.name token)
      (FakeGotchiNFTToken.artistName token) 1 [FakeGotchiNFTToken.identifier token].
Proof.
  intros Hnin. unfold collect.
  by rewrite members_snoc, decide_True, members_nil.
Qed.

(** X4. Grouping one more token: when its key was seen before, the collection
    with that key gains one edition and the token's identifier at the end of
    its list, and nothing else changes; otherwise a collection of that token
    alone is added at the end, with the next number as its id. *)
Theorem groupIntoCollections_snoc (tokens : list Token) (token : Token) :
  groupIntoCollections (tokens ++ [token])
  = if decide (collectionKey token ∈ collectionKey <$> tokens) then
      (fun c => if decide (collection_key c = collectionKey token)
                then add_edition token c else c)
        <$> groupIntoCollections tokens
    else
      groupIntoCollections tokens
      ++ [new_collection (length (groupIntoCollections tokens) + 1) token].
Proof.
  rewrite !groupIntoCollections_spec, fmap_app. csimpl. rewrite first_seen_snoc.
  case_decide as Hin.
  - rewrite fmap_imap. apply imap_ext. intros i k Hk. simpl.
    assert (k ∈ collectionKey <$> tokens) as Hk'
      by (apply first_seen_elem_of; by eapply list_elem_of_lookup_2).
    rewrite collection_key_with_id, collection_key_collect by done.
    case_decide as Heq.
    + subst k. by rewrite collect_snoc_same.
    + rewrite collect_snoc_other; [done | congruence].
  - rewrite imap_app. f_equal.
    + apply imap_ext. intros i k Hk. simpl. rewrite collect_snoc_other; [done|].
      intros Heq. apply Hin. rewrite Heq.
      apply first_seen_elem_of. by eapply list_elem_of_lookup_2.
    + simpl. rewrite collect_snoc_new by done. rewrite length_imap.
      unfold with_id, new_collection. simpl. do 3 f_equal. lia.
Qed.

Lemma members_length_Permutation k tokens tokens' :
  tokens ≡ₚ tokens' -> length (members k tokens) = length (members k tokens').
Proof. intros Hperm. unfold members. by rewrite Hperm. Qed.

Lemma groupIntoCollections_sizes tokens :
  (fun c => (collection_key c, Collection.editions c)) <$> groupIntoCollections tokens
  = (fun k => (k, Z.of_nat (length (members k tokens))))
      <$> first_seen (collectionKey <$> tokens).
Proof.
  rewrite groupIntoCollections_spec, fmap_imap.
  rewrite (imap_ext _ (const (fun k => (k, Z.of_nat (length (members k tokens)))))).
  { apply imap_const. }
  intros i k Hk. simpl. rewrite collection_key_with_id, collection_key_collect; [done|].
  apply first_seen_elem_of. by eapply list_elem_of_lookup_2.
Qed.

Lemma groupIntoCollections_tokenIds_filter tokens c :
  c ∈ groupIntoCollections tokens ->
  Collection.tokenIds c
  = FakeGotchiNFTToken.identifier
      <$> filter (fun token => collectionKey token = collection_key c) tokens.
Proof.
  intros Hc. apply list_elem_of_lookup_1 in Hc as [i Hi].
  destruct (groupIntoCollections_group tokens i c Hi)
    as (first & rest & Hfilter & _ & _ & Hids & _).
  by rewrite Hfilter.
Qed.

(** X5. Two inputs that are rearrangements of each other give the same
    grouping keys with the same edition counts, and under each key the same
    token ids up to their order.  (The order and the numbering of the
    collections follow the input order, and so do the order inside
    [tokenIds] and the name and artist shown for a key.) *)
Theorem groupIntoCollections_Permutation (tokens tokens' : list Token) :
  tokens ≡ₚ tokens' ->
  (fun c => (collection_key c, Collection.editions c)) <$> groupIntoCollections tokens
  ≡ₚ (fun c => (collection_key c, Collection.editions c))
       <$> groupIntoCollections tokens'
  /\ forall c c',
       c ∈ groupIntoCollections tokens ->
       c' ∈ groupIntoCollections tokens' ->
       collection_key c = collection_key c' ->
       Collection.tokenIds c ≡ₚ Collection.tokenIds c'.
Proof.
  intros Hperm. split.
  - rewrite !groupIntoCollections_sizes.
    rewrite (list_fmap_ext _ (fun k => (k, Z.of_nat (length (members k tokens'))))
               (first_seen (collectionKey <$> tokens))).
    2:{ intros i k _. by rewrite (members_length_Permutation k tokens tokens'). }
    apply fmap_Permutation. apply NoDup_Permutation; try apply first_seen_NoDup.
    intros k. rewrite !first_seen_elem_of. by rewrite Hperm.
  - intros c c' Hc Hc' Hkey.
    rewrite (groupIntoCollections_tokenIds_filter tokens c Hc),
      (groupIntoCollections_tokenIds_filter tokens' c' Hc'), Hkey.
    by rewrite Hperm.
Qed.

(** ** The token differ *)

Lemma diffFields_tags item1 item2 : diffFields item1 item2 = token_tags item1 item2.
Proof.
  unfold diffFields, token_tags, token_field.
  rewrite !filter_cons, filter_nil. simpl.
  repeat case_decide; simpl; congruence.
Qed.

Lemma data2Map_get (data2 : list Token) k :
  JSMap.get k (JSMap.from_entries
                 ((fun item => (FakeGotchiNFTToken.identifier item, item)) <$> data2))
  = last (filter (fun item2 => FakeGotchiNFTToken.identifier item2 = k) data2).
Proof.
  rewrite JSMap_get_from_entries.
  rewrite (filter_fmap_key _ (fun e => e.1 = k)). simpl.
  rewrite fmap_last, <- option_fmap_compose. apply option_fmap_id.
Qed.

Lemma keyed_values {S} (records : list (Difference.t S)) :
  JSMap.values (keyed records) = records.
Proof. unfold JSMap.values, keyed. rewrite <- list_fmap_compose. apply list_fmap_id. Qed.

Lemma keyed_keys {S} (records : list (Difference.t S)) :
  JSMap.keys (keyed records) = Difference.id <$> records.
Proof. unfold JSMap.keys, keyed. by rewrite <- list_fmap_compose. Qed.

Lemma keyed_app {S} (r1 r2 : list (Difference.t S)) :
  keyed (r1 ++ r2) = keyed r1 ++ keyed r2.
Proof. unfold keyed. apply fmap_app. Qed.

Lemma left_entry_id data2 item1 r :
  r ∈ left_entry data2 item1 -> Difference.id r = FakeGotchiNFTToken.identifier item1.
Proof.
  unfold left_entry. destruct (last _); [case_decide|]; intros Hr;
    try (by apply elem_of_nil in Hr);
    apply list_elem_of_singleton in Hr; by subst r.
Qed.

(** One turn of the first loop on a token whose identifier is not a key yet. *)
Lemma diff_step1_fresh data2 m item1 :
  FakeGotchiNFTToken.identifier item1 ∉ JSMap.keys m ->
  diff_step1
    (JSMap.from_entries
       ((fun item => (FakeGotchiNFTToken.identifier item, item)) <$> data2))
    m item1
  = m ++ keyed (left_entry data2 item1).
Proof.
  intros Hfresh. unfold diff_step1, left_entry. rewrite data2Map_get.
  destruct (last _) as [item2|].
  - rewrite diffFields_tags. case_bool_decide as Hlen; case_decide as Hnil.
    + rewrite Hnil in Hlen. simpl in Hlen. lia.
    + by rewrite JSMap_set_fresh.
    + by rewrite app_nil_r.
    + destruct (token_tags item1 item2); [done | simpl in Hlen; lia].
  - by rewrite JSMap_set_fresh.
Qed.

Lemma diff_loop1 data2 data1 :
  NoDup (FakeGotchiNFTToken.identifier <$> data1) ->
  foldl (diff_step1
           (JSMap.from_entries
              ((fun item => (FakeGotchiNFTToken.identifier item, item)) <$> data2)))
    JSMap.empty data1
  = keyed (data1 ≫= left_entry data2).
Proof.
  induction data1 as [|item1 data1 IH] using rev_ind; intros Hnd; [done|].
  rewrite fmap_app in Hnd. apply NoDup_app in Hnd as (Hnd & Hdisj & _).
  rewrite foldl_snoc, IH, bind_app, keyed_app by done. simpl. rewrite app_nil_r.
  apply diff_step1_fresh. rewrite keyed_keys.
  intros Hin. apply list_elem_of_fmap in Hin as (r & Hid & Hr).
  apply list_elem_of_bind in Hr as (t & Hr & Ht).
  apply left_entry_id in Hr. apply (Hdisj (FakeGotchiNFTToken.identifier t)).
  - by apply list_elem_of_fmap_2.
  - rewrite <- Hr, <- Hid. left.
Qed.

Lemma right_only_snoc data1 data2 item2 :
  right_only data1 (data2 ++ [item2])
  = right_only data1 data2
    ++ (if decide (FakeGotchiNFTToken.identifier item2
                   ∈ FakeGotchiNFTToken.identifier <$> data1)
        then [] else [item2]).
Proof.
  unfold right_only. rewrite filter_app, filter_cons, filter_nil.
  f_equal. repeat case_decide; done.
Qed.

Lemma diff_loop2 data1 data2 (left : list (Difference.t TokenSnapshot.t)) :
  NoDup (FakeGotchiNFTToken.identifier <$> data2) ->
  (forall r, r ∈ left ->
             Difference.id r ∈ FakeGotchiNFTToken.identifier <$> data1) ->
  foldl (diff_step2 (JSSet.from_list (FakeGotchiNFTToken.identifier <$> data1)))
    (keyed left) data2
  = keyed (left ++ (right_entry <$> right_only data1 data2)).
Proof.
  intros Hnd Hleft.
  induction data2 as [|item2 data2 IH] using rev_ind.
  - simpl. by rewrite app_nil_r.
  - rewrite fmap_app in Hnd. apply NoDup_app in Hnd as (Hnd & Hdisj & _).
    rewrite foldl_snoc, IH, right_only_snoc by done.
    unfold diff_step2. destruct (JSSet.has _ _) eqn:Hhas.
    + rewrite JSSet_has_true, JSSet_elem_of_from_list in Hhas.
      by rewrite decide_True, app_nil_r.
    + assert (FakeGotchiNFTToken.identifier item2
                ∉ FakeGotchiNFTToken.identifier <$> data1) as Hnotin.
      { intros Hin. apply JSSet_elem_of_from_list, JSSet_has_true in Hin. congruence. }
      rewrite decide_False by done.
      rewrite JSMap_set_fresh.
      * rewrite fmap_app, app_assoc.
        rewrite (keyed_app (left ++ _) (right_entry <$> [item2])). reflexivity.
      * rewrite keyed_keys, fmap_app, not_elem_of_app. split.
        -- intros Hin. apply list_elem_of_fmap in Hin as (r & Hid & Hr).
           apply Hleft in Hr. by rewrite <- Hid in Hr.
        -- rewrite <- list_fmap_compose. intros Hin.
           apply list_elem_of_fmap in Hin as (t & Hid & Ht). simpl in Hid.
           apply list_elem_of_filter in Ht as [_ Ht].
           apply (Hdisj (FakeGotchiNFTToken.identifier t)).
           ++ by apply list_elem_of_fmap_2.
           ++ rewrite <- Hid. left.
Qed.

Lemma findDifferences_closed data1 data2 :
  NoDup (FakeGotchiNFTToken.identifier <$> data1) ->
  NoDup (FakeGotchiNFTToken.identifier <$> data2) ->
  findDifferences data1 data2
  = (data1 ≫= left_entry data2) ++ (right_entry <$> right_only data1 data2).
Proof.
  intros Hnd1 Hnd2. unfold findDifferences.
  rewrite diff_loop1, diff_loop2, keyed_values; try done.
  intros r Hr. apply list_elem_of_bind in Hr as (t & Hr & Ht).
  apply left_entry_id in Hr. rewrite Hr. by apply list_elem_of_fmap_2.
Qed.

(** X6. On two lists with unique identifiers the report is, in this order:
    for each left token in turn, [missing_in_prod] when no right token has
    its identifier, and otherwise one record with both snapshots and the
    tags of the differing fields (none when the three fields agree); then
    [missing_in_subgraph1] for each right token the left list lacks, in the
    order of the right list.  A snapshot holds the name, the artist, the
    edition number and the identifier of its token. *)
Theorem findDifferences_unique_ids (data1 data2 : list Token) :
  NoDup (FakeGotchiNFTToken.identifier <$> data1) ->
  NoDup (FakeGotchiNFTToken.identifier <$> data2) ->
  findDifferences data1 data2
  = (data1 ≫= left_entry data2) ++ (right_entry <$> right_only data1 data2).
Proof. apply findDifferences_closed. Qed.

Lemma filter_identifier_unique (data : list Token) item :
  NoDup (FakeGotchiNFTToken.identifier <$> data) -> item ∈ data ->
  filter (fun item' => FakeGotchiNFTToken.identifier item'
                       = FakeGotchiNFTToken.identifier item) data = [item].
Proof.
  induction data as [|x data IH]; intros Hnd Hin; [by apply elem_of_nil in Hin|].
  rewrite fmap_cons in Hnd. apply NoDup_cons in Hnd as [Hx Hnd].
  rewrite filter_cons. apply elem_of_cons in Hin as [->|Hin].
  - rewrite decide_True by done. f_equal. apply filter_none_in.
    intros y Hy Heq. apply Hx. rewrite <- Heq. by apply list_elem_of_fmap_2.
  - rewrite decide_False; [by apply IH|].
    intros Heq. apply Hx. rewrite Heq. by apply list_elem_of_fmap_2.
Qed.

Lemma token_tags_refl item : token_tags item item = [].
Proof. unfold token_tags. by rewrite !decide_True. Qed.

(** X7. A token list with unique identifiers compared with itself gives no
    difference record. *)
Theorem findDifferences_same (data : list Token) :
  NoDup (FakeGotchiNFTToken.identifier <$> data) ->
  findDifferences data data = [].
Proof.
  intros Hnd. rewrite findDifferences_closed by done.
  assert (right_only data data = []) as ->.
  { apply filter_none_in. intros t Ht Hnotin. apply Hnotin.
    by apply list_elem_of_fmap_2. }
  rewrite app_nil_r.
  assert (forall l, (forall t, t ∈ l -> t ∈ data) -> l ≫= left_entry data = []) as Hgen.
  { induction l as [|t l IH]; intros Hl; [done|].
    rewrite bind_cons, IH by (intros; apply Hl; by right).
    unfold left_entry. rewrite filter_identifier_unique by (done || apply Hl; left).
    simpl. by rewrite decide_True by apply token_tags_refl. }
  by apply Hgen.
Qed.

Lemma foldl_invariant_in {A B} (P : A -> Prop) (f : A -> B -> A) (l : list B) a :
  (forall a b, b ∈ l -> P a -> P (f a b)) -> P a -> P (foldl f a l).
Proof.
  revert a. induction l as [|b l IH]; intros a Hf Ha; simpl; [done|].
  apply IH.
  - intros a' b' Hb'. apply Hf. by right.
  - apply Hf; [left | done].
Qed.

Lemma named_values_ids {S} (m : list (string * Difference.t S)) :
  named_by_id m -> Difference.id <$> JSMap.values m = JSMap.keys m.
Proof.
  unfold named_by_id, JSMap.values, JSMap.keys. intros Hnamed.
  rewrite <- list_fmap_compose. apply list_fmap_ext.
  intros i e He. rewrite Forall_lookup in Hnamed. by apply (Hnamed i).
Qed.

Lemma diff_step1_records data1 data2 m item1 :
  item1 ∈ data1 ->
  Forall (record_ok data1 data2) (JSMap.values m) ->
  Forall (record_ok data1 data2)
    (JSMap.values
       (diff_step1
          (JSMap.from_entries
             ((fun item => (FakeGotchiNFTToken.identifier item, item)) <$> data2))
          m item1)).
Proof.
  intros Hin Hm. unfold diff_step1. rewrite data2Map_get.
  assert (FakeGotchiNFTToken.identifier item1
            ∈ (FakeGotchiNFTToken.identifier <$> data1)
              ++ (FakeGotchiNFTToken.identifier <$> data2)) as Hid
    by (apply elem_of_app; left; by apply list_elem_of_fmap_2).
  destruct (last _) as [item2|] eqn:Hlast.
  - case_bool_decide as Hlen; [|done].
    apply JSMap_Forall_values_set; [|done].
    apply last_Some_elem_of, list_elem_of_filter in Hlast as [Heq Hin2].
    unfold record_ok. simpl. split_and!.
    + intros Hnil. rewrite Hnil in Hlen. simpl in Hlen. lia.
    + done.
    + intros s [= <-]. by exists item1.
    + intros s [= <-]. by exists item2.
    + left. by eexists.
  - apply JSMap_Forall_values_set; [|done].
    unfold record_ok. simpl. split_and!; try done.
    + intros s [= <-]. by exists item1.
    + left. by eexists.
Qed.

Lemma diff_step2_records data1 data2 ids m item2 :
  item2 ∈ data2 ->
  Forall (record_ok data1 data2) (JSMap.values m) ->
  Forall (record_ok data1 data2) (JSMap.values (diff_step2 ids m item2)).
Proof.
  intros Hin Hm. unfold diff_step2. destruct (JSSet.has _ _); [done|].
  apply JSMap_Forall_values_set; [|done].
  unfold record_ok. simpl. split_and!; try done.
  - apply elem_of_app. right. by apply list_elem_of_fmap_2.
  - intros s [= <-]. by exists item2.
  - right. by eexists.
Qed.

(** X8. Whatever the two lists (identifiers may repeat): no two records of
    the report have the same id; every record names at least one difference,
    its id is an identifier of one of the lists, at least one snapshot is
    there, and each snapshot it carries holds the name, the artist, the
    edition number and the identifier of a token of the matching list that
    has the record's id as identifier. *)
Theorem findDifferences_records (data1 data2 : list Token) :
  NoDup (Difference.id <$> findDifferences data1 data2)
  /\ Forall (record_ok data1 data2) (findDifferences data1 data2).
Proof.
  unfold findDifferences. split.
  - destruct (findDifferences_wf data1 data2 JSMap.empty
                (JSSet.from_list (FakeGotchiNFTToken.identifier <$> data1))
                (JSMap.from_entries
                   ((fun item => (FakeGotchiNFTToken.identifier item, item)) <$> data2)))
      as [Hnd Hnamed].
    { split; [apply NoDup_nil_2 | apply Forall_nil_2]. }
    by rewrite named_values_ids.
  - apply (foldl_invariant_in (fun m => Forall _ (JSMap.values m))).
    { intros m item2 Hin. by apply diff_step2_records. }
    apply (foldl_invariant_in (fun m => Forall _ (JSMap.values m))).
    { intros m item1 Hin. by apply diff_step1_records. }
    constructor.
Qed.

(** ** The positional collection differ *)

Lemma bind_nil_iff {A B} (f : A -> list B) (l : list A) :
  l ≫= f = [] <-> forall x, x ∈ l -> f x = [].
Proof.
  induction l as [|x l IH].
  - split; [|done]. intros _ x Hx. by apply elem_of_nil in Hx.
  - rewrite bind_cons. split.
    + intros Happ. apply app_eq_nil in Happ as [Hx Hl].
      intros y [->|Hy]%elem_of_cons; [done|]. by apply IH.
    + intros Hall. rewrite (Hall x) by left. simpl. apply IH.
      intros y Hy. apply Hall. by right.
Qed.

Lemma collectionSnapshot_eq col1 col2 :
  collectionSnapshot col1 = collectionSnapshot col2
  <-> Collection.name col1 = Collection.name col2
      /\ Collection.artistName col1 = Collection.artistName col2
      /\ Collection.editions col1 = Collection.editions col2.
Proof.
  unfold collectionSnapshot. split.
  - by intros [= -> -> ->].
  - by intros (-> & -> & ->).
Qed.

Lemma positional_entry_nil left right i :
  positional_entry left right i = []
  <-> collectionSnapshot <$> left !! i = collectionSnapshot <$> right !! i.
Proof.
  unfold positional_entry.
  destruct (left !! i) as [l|], (right !! i) as [r|]; simpl; try done.
  case_decide as Heq; rewrite <- collectionSnapshot_eq in Heq; split; try done.
  - intros _. by rewrite Heq.
  - intros Hsnap. exfalso. apply Heq. congruence.
Qed.

Lemma findCollectionDifferences_nil_iff left right :
  findCollectionDifferences left right = Some []
  <-> collectionSnapshot <$> left = collectionSnapshot <$> right.
Proof.
  rewrite findCollectionDifferences_spec. unfold positional_spec. split.
  - intros [= Hnil]. apply list_eq. intros i. rewrite !list_lookup_fmap.
    destruct (decide (i < Nat.max (length left) (length right))) as [Hlt|Hge].
    + apply positional_entry_nil. rewrite bind_nil_iff in Hnil. apply Hnil.
      apply elem_of_seq. lia.
    + rewrite (lookup_ge_None_2 left), (lookup_ge_None_2 right) by lia. done.
  - intros Heq. f_equal. apply bind_nil_iff. intros i _.
    apply positional_entry_nil. by rewrite <- !list_lookup_fmap, Heq.
Qed.

(** X9. The positional differ reports nothing exactly when the two lists
    have the same length and agree, position by position, on name,
    artistName and editions; ids and token-id lists play no part. *)
Theorem findCollectionDifferences_none (left right : list Collection.t) :
  findCollectionDifferences left right = Some []
  <-> collectionSnapshot <$> left = collectionSnapshot <$> right.
Proof. apply findCollectionDifferences_nil_iff. Qed.

Lemma members_pairs k tokens :
  collectionPair <$> members k tokens
  = filter (fun p => (p.1 ++ "-" ++ p.2)%string = k) (collectionPair <$> tokens).
Proof. unfold members. by rewrite filter_fmap_key. Qed.

Lemma collect_snapshot_pairs k tokens tokens' :
  collectionPair <$> tokens = collectionPair <$> tokens' ->
  collectionSnapshot (collect k tokens) = collectionSnapshot (collect k tokens').
Proof.
  intros Hpairs.
  assert (collectionPair <$> members k tokens = collectionPair <$> members k tokens')
    as Hms by (by rewrite !members_pairs, Hpairs).
  unfold collect, collectionSnapshot. simpl.
  destruct (members k tokens) as [|t ms], (members k tokens') as [|t' ms'];
    try done.
  simpl in *. injection Hms as Hname Hartist Hrest.
  apply (f_equal length) in Hrest. rewrite !length_fmap in Hrest.
  by rewrite Hname, Hartist, Hrest.
Qed.

Lemma groupIntoCollections_snapshots_pairs tokens tokens' :
  collectionPair <$> tokens = collectionPair <$> tokens' ->
  collectionSnapshot <$> groupIntoCollections tokens
  = collectionSnapshot <$> groupIntoCollections tokens'.
Proof.
  intros Hpairs.
  assert (collectionKey <$> tokens = collectionKey <$> tokens') as Hkeys.
  { change collectionKey with ((fun p => (p.1 ++ "-" ++ p.2)%string) ∘ collectionPair).
    by rewrite !list_fmap_compose, Hpairs. }
  rewrite !groupIntoCollections_spec, !fmap_imap, Hkeys.
  apply imap_ext. intros i k _. simpl.
  by apply collect_snapshot_pairs.
Qed.

(** X10. Grouping and then comparing by position looks at nothing but the
    sequence of (name, artistName) pairs of the tokens: two token lists with
    the same sequence of pairs, whatever their identifiers and edition
    numbers, give no collection difference. *)
Theorem findCollectionDifferences_same_pairs (tokens tokens' : list Token) :
  collectionPair <$> tokens = collectionPair <$> tokens' ->
  findCollectionDifferences (groupIntoCollections tokens)
    (groupIntoCollections tokens') = Some [].
Proof.
  intros Hpairs. apply findCollectionDifferences_nil_iff.
  by apply groupIntoCollections_snapshots_pairs.
Qed.

(** ** The paginated fetch loop over a subgraph that does not change *)

Lemma fetch_while_invariant {Server : Type}
    (post : Server -> Variables.t -> list Token * Server)
    (P : FetchState Server -> Prop) fuel st st' :
  fetch_while post fuel st = Some st' ->
  (forall s, P s -> hasMore s = true ->
             (Z.of_nat (length (allTokens s)) < maxResults)%Z ->
             P (fetch_iter post s)) ->
  P st ->
  P st' /\ (hasMore st' = false
            \/ (maxResults <= Z.of_nat (length (allTokens st')))%Z).
Proof.
  intros Hrun Hstep. revert st Hrun.
  induction fuel as [|fuel IH]; intros st; simpl.
  - destruct (hasMore st) eqn:Hmore; simpl.
    + case_bool_decide; [done|]. intros [= <-] HP. split; [done | right; lia].
    + intros [= <-] HP. split; [done | by left].
  - destruct (hasMore st) eqn:Hmore; simpl.
    + case_bool_decide.
      * intros Hrun HP. apply (IH _ Hrun). by apply Hstep.
      * intros [= <-] HP. split; [done | right; lia].
    + intros [= <-] HP. split; [done | by left].
Qed.

(** What the loop keeps over the fixed list [data]: the tokens fetched are a
    prefix of [data], as long as the offset; below the cap; and the offset
    is a multiple of the page size unless the list is exhausted. *)
Lemma static_fetch_iter (data : list Token) (s : FetchState (list Token)) :
  (server s = data
   /\ exists n, allTokens s = take n data /\ n <= length data
                /\ skip s = Z.of_nat n /\ (Z.of_nat n <= maxResults)%Z
                /\ (n = length data \/ exists k, n = 1000 * k)
                /\ (hasMore s = false -> n = length data)) ->
  hasMore s = true ->
  (Z.of_nat (length (allTokens s)) < maxResults)%Z ->
  let s' := fetch_iter static_post s in
  server s' = data
  /\ exists n, allTokens s' = take n data /\ n <= length data
               /\ skip s' = Z.of_nat n /\ (Z.of_nat n <= maxResults)%Z
               /\ (n = length data \/ exists k, n = 1000 * k)
               /\ (hasMore s' = false -> n = length data).
Proof.
  intros (Hserver & n & Htok & Hle & Hskip & Hcap & Hpage & _) Hmore Hlt.
  assert (n = length data \/ (Z.of_nat n + 1000 <= 50000)%Z) as Hroom.
  { unfold maxResults in Hcap. rewrite Htok, length_take in Hlt.
    unfold maxResults in Hlt. destruct Hpage as [?|[k ->]]; [by left | right; lia]. }
  rewrite Htok, length_take in Hlt. unfold maxResults in *.
  unfold fetch_iter, static_post. rewrite Hserver, Hskip. simpl.
  rewrite Nat2Z.id. change (Z.to_nat batchSize) with 1000.
  case_decide as Hempty; simpl.
  - split; [done|]. exists n. split_and!; try done.
    intros _. rewrite length_take, length_drop in Hempty. lia.
  - rewrite length_take, length_drop in Hempty.
    split; [done|]. exists (Nat.min (n + 1000) (length data)).
    rewrite Htok, take_take_drop, length_take, length_drop.
    split_and!; try lia.
    + destruct (decide (n + 1000 <= length data)).
      * by rewrite Nat.min_l.
      * rewrite Nat.min_r, !take_ge by lia. done.
    + destruct (decide (n + 1000 <= length data)); [right | left; lia].
      destruct Hpage as [?|[k ->]]; [lia|]. exists (k + 1). lia.
    + congruence.
Qed.

Lemma fetch_run_static (data : list Token) :
  exists st, fetch_run static_post data = Some st
             /\ allTokens st = take (Z.to_nat maxResults) data.
Proof.
  destruct (fetch_run_spec static_post data) as (st & Hrun & _ & _).
  exists st. split; [done|].
  destruct (fetch_while_invariant static_post
              (fun s => server s = data
                        /\ exists n, allTokens s = take n data /\ n <= length data
                                     /\ skip s = Z.of_nat n /\ (Z.of_nat n <= maxResults)%Z
                                     /\ (n = length data \/ exists k, n = 1000 * k)
                                     /\ (hasMore s = false -> n = length data))
              _ _ _ Hrun) as [(_ & n & Htok & Hle & _ & Hcap & _ & Hdone) Hexit].
  - intros s. apply static_fetch_iter.
  - split; [done|]. exists 0. simpl. unfold maxResults.
    split_and!; try done; try lia. right. by exists 0.
  - rewrite Htok. unfold maxResults in *.
    destruct Hexit as [Hfalse|Hreached].
    + specialize (Hdone Hfalse). subst n. rewrite !take_ge; [done | lia | lia].
    + rewrite Htok, length_take in Hreached. f_equal. lia.
Qed.

(** X11. Over a subgraph that holds a fixed token list and honours [first]
    and [skip], the fetch returns the first 50000 tokens of the list in
    order (the whole list when it is shorter): nothing is skipped or
    fetched twice. *)
Theorem fetchAllData_static (data : list Token) :
  fetchAllData static_post data = Some (take (Z.to_nat maxResults) data).
Proof.
  destruct (fetch_run_static data) as (st & Hrun & Htok).
  unfold fetchAllData. by rewrite Hrun, <- Htok.
Qed.

Lemma static_trace_iter (data : list Token) (s : FetchState (list Token)) :
  static_trace_inv data s ->
  hasMore s = true ->
  (Z.of_nat (length (allTokens s)) < maxResults)%Z ->
  static_trace_inv data (fetch_iter static_post s).
Proof.
  intros (Hserver & Hskip & c & Hex & Htrue & _) Hmore Hlt.
  destruct (Htrue Hmore) as [Hn Hprev].
  unfold static_trace_inv, fetch_iter, static_post.
  rewrite Hserver, Hskip. cbn [Variables.first Variables.skip].
  rewrite Nat2Z.id. change (Z.to_nat batchSize) with 1000.
  assert (static_request data c
          = (Variables.mk batchSize (Z.of_nat (length (allTokens s))) "identifier",
             take 1000 (drop (length (allTokens s)) data))) as Hreq
    by (unfold static_request; by rewrite Hn).
  case_decide as Hempty; cbn [server skip exchanges hasMore allTokens];
    rewrite length_take, length_drop in Hempty.
  - split_and!; [done | done|]. exists (S c). split_and!.
    + rewrite seq_S, fmap_app, Hex, Nat.add_0_l.
      change (static_request data <$> [c]) with [static_request data c].
      by rewrite Hreq.
    + done.
    + intros _. unfold maxResults in *. split_and!; lia.
  - split_and!; [done | rewrite length_app; lia|]. exists (S c). split_and!.
    + rewrite seq_S, fmap_app, Hex, Nat.add_0_l.
      change (static_request data <$> [c]) with [static_request data c].
      by rewrite Hreq.
    + intros _. rewrite length_app, length_take, length_drop.
      unfold maxResults in *. split_and!; lia.
    + congruence.
Qed.

Lemma fetch_run_static_trace (data : list Token) :
  exists st, fetch_run static_post data = Some st
             /\ exchanges st
                = static_request data <$> seq 0 (static_requests (length data)).
Proof.
  destruct (fetch_run_spec static_post data) as (st & Hrun & _ & _).
  exists st. split; [done|].
  destruct (fetch_while_invariant static_post (static_trace_inv data)
              _ _ _ Hrun) as [(_ & _ & c & Hex & Htrue & Hfalse) Hexit].
  - intros s. apply static_trace_iter.
  - split_and!; [done | done|]. exists 0. split_and!; [done | | done].
    intros _. simpl. split; lia.
  - rewrite Hex. f_equal. f_equal. unfold static_requests.
    destruct (hasMore st) eqn:Hmore.
    + destruct Hexit as [?|Hreached]; [done|].
      destruct (Htrue eq_refl) as [Hn Hprev]. unfold maxResults in *.
      rewrite decide_False by lia. destruct c as [|c]; lia.
    + destruct (Hfalse eq_refl) as (Hc & Hle & Hgt & Hcap).
      rewrite decide_True by done.
      rewrite <- (Nat.div_unique (length data + 999) 1000 (c - 1)
                    (length data + 999 - 1000 * (c - 1))); lia.
Qed.

(** X12. Reading a subgraph that holds a fixed list takes [50] requests
    when the list has 50000 tokens or more, and otherwise one request per
    started page of 1000 and one more, which is answered with an empty
    batch; request [j] asks for the tokens from offset [1000 * j] (from the
    end of the list, when that is past it). *)
Theorem fetch_static_requests (data : list Token) :
  exchanges <$> fetch_run static_post data
  = Some (static_request data <$> seq 0 (static_requests (length data))).
Proof.
  destruct (fetch_run_static_trace data) as (st & -> & Htrace).
  simpl. by rewrite Htrace.
Qed.

(** ** The contract comparison *)

Import ContractSpec.

Lemma metadata_diffTypes_nil parseInt collection contractMetadata :
  metadata_diffTypes parseInt collection contractMetadata = []
  <-> FakeGotchiCollection.name collection = ContractMetadata.name contractMetadata
      /\ FakeGotchiCollection.artistName collection
         = ContractMetadata.artistName contractMetadata
      /\ FakeGotchiCollection.editions collection
         = parseInt (BigNumber_toString (ContractMetadata.editions contractMetadata)).
Proof.
  unfold metadata_diffTypes. repeat case_decide; simpl; split; intros Heq;
    try done; destruct Heq as (? & ? & ?); done.
Qed.

Lemma compare_step_entry parseInt contractData collection :
  compare_step parseInt contractData [] collection
  = contract_entry parseInt contractData collection.
Proof.
  unfold compare_step, contract_entry.
  destruct (contractData !! _) as [md|]; [|by case_decide].
  case_bool_decide as Hlen; case_decide as Heq; try done.
  - apply metadata_diffTypes_nil in Heq. rewrite Heq in Hlen. simpl in Hlen. lia.
  - exfalso. apply Heq, metadata_diffTypes_nil.
    destruct (metadata_diffTypes parseInt collection md); [done | simpl in Hlen; lia].
Qed.

Lemma compareData_closed parseInt contractData collectionsData :
  compareData parseInt contractData collectionsData
  = contract_entries parseInt contractData collectionsData.
Proof.
  induction collectionsData as [|c l IH]; [done|].
  rewrite compareData_cons, compare_step_entry, IH. simpl.
  destruct (contract_entry parseInt contractData c); [|done]. simpl.
  by destruct (contract_entries parseInt contractData l).
Qed.

(** X13. [compareData] handles the collections in the order given, each on
    its own.  For a collection whose id is no own key of the contract data,
    it throws when the id is a name inherited from [Object.prototype] and
    reports [missing_in_contract] (with name, artist and edition count of
    the collection) otherwise; for one whose id is a key, it reports nothing
    when name, artist and edition count agree with the entry, and otherwise
    one record with the differing fields and both snapshots, the contract's
    edition count and identifier as decimal strings.  The result is the
    reports put end to end, unless a collection throws; a collection listed
    twice is reported twice.  So a collection with the id "constructor"
    makes the comparison throw against an empty contract data, and is
    compared like any other when the contract data has an entry under that
    id. *)
Theorem compareData_per_collection (parseInt : string -> Z)
    (contractData : gmap string ContractMetadata.t)
    (collectionsData : list FakeGotchiCollection.t) :
  compareData parseInt contractData collectionsData
  = contract_entries parseInt contractData collectionsData
  /\ compareData parseInt_decimal ∅
       [FakeGotchiCollection.mk "1" "A" "X" 5;
        FakeGotchiCollection.mk "constructor" "B" "Y" 1]
     = None
  /\ compareData parseInt_decimal
       {[ "constructor" := ContractMetadata.mk "B" "Y" 2 7 ]}
       [FakeGotchiCollection.mk "1" "A" "X" 5;
        FakeGotchiCollection.mk "constructor" "B" "Y" 1]
     = Some [ContractDifference.mk "1" ["missing_in_contract"]
               (Some (SubgraphSnapshot.mk "A" "X" 5)) None;
             ContractDifference.mk "constructor" ["editions"]
               (Some (SubgraphSnapshot.mk "B" "Y" 1))
               (Some (ContractSnapshot.mk "B" "Y" "2" "7"))].
Proof. split_and!; [apply compareData_closed | by vm_compute..]. Qed.

Lemma contract_entries_Some parseInt contractData collectionsData out :
  contract_entries parseInt contractData collectionsData = Some out ->
  out = collectionsData
          ≫= (fun c => default [] (contract_entry parseInt contractData c))
  /\ forall c, c ∈ collectionsData ->
               is_Some (contract_entry parseInt contractData c).
Proof.
  revert out. induction collectionsData as [|c l IH]; intros out;
    cbn [contract_entries].
  - intros [= <-]. split; [done|]. intros c Hc. by apply elem_of_nil in Hc.
  - destruct (contract_entry parseInt contractData c) as [r|] eqn:Hr; [|done].
    destruct (contract_entries parseInt contractData l) as [r'|]; [|done].
    intros [= <-]. destruct (IH r' eq_refl) as [-> Hall]. split.
    + by rewrite bind_cons, Hr.
    + intros c' [->|Hc']%elem_of_cons; [by rewrite Hr | by apply Hall].
Qed.

Lemma contract_entry_id parseInt contractData collection r :
  r ∈ default [] (contract_entry parseInt contractData collection) ->
  ContractDifference.id r = FakeGotchiCollection.id collection.
Proof.
  unfold contract_entry. destruct (contractData !! _); case_decide; simpl;
    intros Hr; try (by apply elem_of_nil in Hr);
    apply list_elem_of_singleton in Hr; by subst r.
Qed.

Lemma filter_bind_by_key {A R} (key : A -> string) (id_of : R -> string)
    (f : A -> list R) (l : list A) (x : A) :
  NoDup (key <$> l) -> x ∈ l ->
  (forall a r, r ∈ f a -> id_of r = key a) ->
  filter (fun r => id_of r = key x) (l ≫= f) = f x.
Proof.
  intros Hnd Hx Hf. induction l as [|a l IH]; [by apply elem_of_nil in Hx|].
  rewrite fmap_cons in Hnd. apply NoDup_cons in Hnd as [Ha Hnd].
  rewrite bind_cons, filter_app.
  apply elem_of_cons in Hx as [->|Hx].
  - rewrite (filter_all_in _ (f a)) by (intros r Hr; by apply Hf).
    rewrite filter_none_in; [by rewrite app_nil_r|].
    intros r Hr Heq. apply list_elem_of_bind in Hr as (b & Hr & Hb).
    apply Hf in Hr. apply Ha. rewrite <- Heq, Hr. by apply list_elem_of_fmap_2.
  - rewrite filter_none_in, IH; [done.. |].
    intros r Hr Heq. apply Hf in Hr. apply Ha. rewrite <- Hr, Heq.
    by apply list_elem_of_fmap_2.
Qed.

Lemma filter_collection_id_unique (l : list FakeGotchiCollection.t) c :
  NoDup (FakeGotchiCollection.id <$> l) -> c ∈ l ->
  filter (fun c' => FakeGotchiCollection.id c' = FakeGotchiCollection.id c) l = [c].
Proof.
  induction l as [|x l IH]; intros Hnd Hin; [by apply elem_of_nil in Hin|].
  rewrite fmap_cons in Hnd. apply NoDup_cons in Hnd as [Hx Hnd].
  rewrite filter_cons. apply elem_of_cons in Hin as [->|Hin].
  - rewrite decide_True by done. f_equal. apply filter_none_in.
    intros y Hy Heq. apply Hx. rewrite <- Heq. by apply list_elem_of_fmap_2.
  - rewrite decide_False; [by apply IH|].
    intros Heq. apply Hx. rewrite Heq. by apply list_elem_of_fmap_2.
Qed.

(** X14. The two reports of the contract program agree on every subgraph
    collection whose id is not ["__proto__"]: when the collection ids are
    distinct and [compareData] returns (no id without an own entry is a name
    inherited from [Object.prototype]), the difference tags that it gives
    for the collection are those that [compareCollectionData] gives for its
    id. *)
Theorem compareData_agrees_with_keyed (parseInt : string -> Z)
    (contractData : gmap string ContractMetadata.t)
    (collectionsData : list FakeGotchiCollection.t) (c : FakeGotchiCollection.t)
    (collectionDifferences :
       list (ContractDifference.t SubgraphSnapshot.t ContractSnapshot.t)) :
  NoDup (FakeGotchiCollection.id <$> collectionsData) ->
  c ∈ collectionsData ->
  FakeGotchiCollection.id c <> "__proto__" ->
  compareData parseInt contractData collectionsData = Some collectionDifferences ->
  ContractDifference.differences
    <$> filter (fun r => ContractDifference.id r = FakeGotchiCollection.id c)
          collectionDifferences
  = ContractDifference.differences
      <$> filter (fun r => ContractDifference.id r = FakeGotchiCollection.id c)
            (compareCollectionData parseInt contractData collectionsData).
Proof.
  intros Hnd Hc Hproto Hout.
  rewrite compareData_closed in Hout.
  apply contract_entries_Some in Hout as [-> Hall].
  rewrite compareCollectionData_by_key, decide_False by done.
  rewrite (filter_bind_by_key FakeGotchiCollection.id ContractDifference.id);
    [|done | done | intros; by eapply contract_entry_id].
  rewrite filter_collection_id_unique by done. simpl.
  destruct (Hall c Hc) as [recs Hrecs]. rewrite Hrecs. simpl.
  unfold contract_entry in Hrecs. unfold keyed_entry.
  destruct (contractData !! FakeGotchiCollection.id c) as [md|]; simpl.
  - repeat case_decide; by simplify_eq.
  - case_decide; by simplify_eq.
Qed.

(** ** The contract program on the data it actually fetches *)

Lemma JSMap_keys_from_entries_first_seen {V} (entries : list (string * V)) :
  JSMap.keys (JSMap.from_entries entries) = first_seen entries.*1.
Proof.
  unfold JSMap.from_entries.
  induction entries as [|[k v] entries IH] using rev_ind; [done|].
  rewrite foldl_snoc, JSMap_keys_set, fmap_app, IH.
  change ([(k, v)].*1) with [k]. rewrite first_seen_snoc. simpl.
  destruct (decide (k ∈ first_seen entries.*1)) as [Hin|Hnin];
    rewrite first_seen_elem_of in *.
  - by rewrite decide_True.
  - by rewrite decide_False.
Qed.

Lemma first_seen_id (ks : list string) : NoDup ks -> first_seen ks = ks.
Proof.
  induction ks as [|k ks IH]; intros Hnd; [done|].
  apply NoDup_cons in Hnd as [Hk Hnd]. simpl. rewrite IH by done.
  f_equal. apply filter_all_in. intros y Hy ->. done.
Qed.

Lemma contractCollectionsMap_empty parseInt :
  contractCollectionsMap parseInt ∅ = [].
Proof.
  unfold contractCollectionsMap, contractCollectionsArray, contractCollections.
  rewrite map_to_list_empty. simpl. by rewrite map_to_list_empty.
Qed.

Lemma compareCollectionData_fetched (parseInt : string -> Z)
    (getMetadata : string -> string + ContractMetadata.t)
    (collectionsData : list FakeGotchiCollection.t) :
  compareCollectionData parseInt
    (fetchContractMetadata getMetadata collectionsData) collectionsData
  = (fun id =>
       ContractDifference.mk id ["missing_in_contract"]
         (last (filter (fun c => FakeGotchiCollection.id c = id) collectionsData))
         None)
      <$> first_seen (FakeGotchiCollection.id <$> collectionsData).
Proof.
  unfold fetchContractMetadata. rewrite fetch_batches_contractData.
  rewrite compareCollectionData_bind, contractCollectionsMap_empty.
  unfold JSMap.keys at 2. rewrite fmap_nil, app_nil_r.
  rewrite JSSet_from_list_first_seen.
  assert (JSMap.keys (subgraphCollectionsMap collectionsData)
          = first_seen (FakeGotchiCollection.id <$> collectionsData)) as ->.
  { unfold subgraphCollectionsMap.
    by rewrite JSMap_keys_from_entries_first_seen, <- list_fmap_compose. }
  rewrite first_seen_id by apply first_seen_NoDup.
  assert (forall ks : list string,
    (forall k, k ∈ ks -> k ∈ FakeGotchiCollection.id <$> collectionsData) ->
    ks ≫= (fun id =>
             keyed_entry id (JSMap.get id (subgraphCollectionsMap collectionsData))
               (JSMap.get id []))
    = (fun id =>
         ContractDifference.mk id ["missing_in_contract"]
           (last (filter (fun c => FakeGotchiCollection.id c = id) collectionsData))
           None) <$> ks) as Hgen.
  { induction ks as [|k ks IH]; intros Hks; [done|].
    rewrite bind_cons, fmap_cons, IH by (intros; apply Hks; by right).
    rewrite subgraphCollectionsMap_get.
    destruct (last _) as [c|] eqn:Hlast; [done|].
    exfalso. apply last_None in Hlast.
    assert (k ∈ FakeGotchiCollection.id <$> collectionsData) as Hk
      by (apply Hks; by left).
    apply list_elem_of_fmap in Hk as (c & -> & Hc).
    assert (c ∈ filter (fun c' => FakeGotchiCollection.id c'
                                  = FakeGotchiCollection.id c) collectionsData) as Hf
      by (by apply list_elem_of_filter).
    rewrite Hlast in Hf. by apply elem_of_nil in Hf. }
  apply Hgen. intros k Hk. by rewrite first_seen_elem_of in Hk.
Qed.

(** X15. The aggregated comparison, run on the contract data that
    [fetchContractMetadata] returns, reports every distinct collection id
    once, in the order of first appearance, as [missing_in_contract], with
    the last collection carrying that id on the subgraph side, whatever the
    contract answers. *)
Theorem compareCollectionData_of_fetched (parseInt : string -> Z)
    (getMetadata : string -> string + ContractMetadata.t)
    (collectionsData : list FakeGotchiCollection.t) :
  compareCollectionData parseInt
    (fetchContractMetadata getMetadata collectionsData) collectionsData
  = (fun id =>
       ContractDifference.mk id ["missing_in_contract"]
         (last (filter (fun c => FakeGotchiCollection.id c = id) collectionsData))
         None)
      <$> first_seen (FakeGotchiCollection.id <$> collectionsData).
Proof. apply compareCollectionData_fetched. Qed.

Lemma foldl_batches {A B} (f : B -> A -> B) (n : nat) (l : list A) (b : B) m :
  foldl (fun st k => foldl f st (take n (drop (k * n) l))) b (seq 0 m)
  = foldl f b (take (m * n) l).
Proof.
  induction m as [|m IH]; [done|].
  rewrite seq_S, foldl_snoc, IH. simpl.
  rewrite <- foldl_app, take_take_drop. f_equal. f_equal. lia.
Qed.

Lemma foldl_fetch_one getMetadata l st :
  foldl (fetch_one getMetadata) st l = (st.1, st.2 ++ (log_line getMetadata <$> l)).
Proof.
  revert st. induction l as [|c l IH]; intros [cd out]; simpl.
  - by rewrite app_nil_r.
  - rewrite IH. unfold fetch_one, log_line. simpl.
    destruct (getMetadata _); simpl; by rewrite <- app_assoc.
Qed.

(** X16. [fetchContractMetadata] reads the collections in batches of ten,
    and the batching loses and repeats nothing: the console shows one line
    per collection, in the order of the collections, telling whether its
    read succeeded or failed, and the contract data stays empty. *)
Theorem fetch_batches_log (getMetadata : string -> string + ContractMetadata.t)
    (collectionsData : list FakeGotchiCollection.t) :
  fetch_batches getMetadata collectionsData
  = (∅, log_line getMetadata <$> collectionsData).
Proof.
  unfold fetch_batches.
  rewrite (foldl_batches (fetch_one getMetadata) 10).
  rewrite take_ge.
  - by rewrite foldl_fetch_one.
  - pose proof (Nat.div_mod_eq (length collectionsData + (10 - 1)) 10) as Hdiv.
    pose proof (Nat.mod_upper_bound (length collectionsData + (10 - 1)) 10).
    lia.
Qed.

(** ** The token metadata export *)

Section MetadataExportFacts.
Import MetadataExport.
Variable totalSupply : nat.
Variable batchGetMetadata : list nat -> option (list Z).

Lemma batchSize_pos : 0 < batchSize.
Proof. unfold batchSize. lia. Qed.

Lemma totalBatches_cover : totalSupply <= totalBatches totalSupply * batchSize.
Proof.
  unfold totalBatches. pose proof batchSize_pos.
  pose proof (Nat.div_mod_eq (totalSupply + (batchSize - 1)) batchSize).
  pose proof (Nat.mod_upper_bound (totalSupply + (batchSize - 1)) batchSize).
  lia.
Qed.

Lemma totalBatches_tight i :
  i < totalBatches totalSupply -> i * batchSize < totalSupply.
Proof.
  unfold totalBatches. pose proof batchSize_pos. intros Hi.
  pose proof (Nat.div_mod_eq (totalSupply + (batchSize - 1)) batchSize).
  pose proof (Nat.mod_upper_bound (totalSupply + (batchSize - 1)) batchSize).
  assert (S i * batchSize
          <= (totalSupply + (batchSize - 1)) / batchSize * batchSize)
    by (apply Nat.mul_le_mono_r; lia).
  lia.
Qed.

Lemma tokenIds_slice i :
  tokenIds totalSupply i = take batchSize (drop (i * batchSize) (seq 0 totalSupply)).
Proof.
  unfold tokenIds. rewrite drop_seq, take_seq.
  replace (0 + i * batchSize) with (i * batchSize + 0) by lia.
  rewrite <- fmap_add_seq. f_equal. f_equal. lia.
Qed.

Lemma tokenIds_prefix m :
  seq 0 m ≫= tokenIds totalSupply = take (m * batchSize) (seq 0 totalSupply).
Proof.
  induction m as [|m IH]; [done|].
  rewrite seq_S, bind_app, IH, Nat.add_0_l.
  change ([m] ≫= tokenIds totalSupply) with (tokenIds totalSupply m ++ []).
  rewrite app_nil_r, tokenIds_slice.
  rewrite take_take_drop. f_equal. lia.
Qed.

Lemma batchResults_tokenId i batchMetadata :
  TokenMetadata.tokenId <$> batchResults totalSupply i batchMetadata
  = tokenIds totalSupply i.
Proof.
  unfold batchResults. generalize (tokenIds totalSupply i). intros l.
  revert batchMetadata. induction l as [|x l IH]; intros bm; [done|].
  simpl. f_equal. destruct bm as [|b bm]; simpl.
  - specialize (IH []). etransitivity; [|exact IH].
    unfold compose. simpl. apply list_fmap_ext. intros j y _. done.
  - apply (IH bm).
Qed.

Lemma tokenIds_all :
  seq 0 (totalBatches totalSupply) ≫= tokenIds totalSupply = seq 0 totalSupply.
Proof.
  rewrite tokenIds_prefix. apply take_ge.
  rewrite length_seq. apply totalBatches_cover.
Qed.

Lemma batch_loop_None l : foldl (batch_step totalSupply batchGetMetadata) None l = None.
Proof. induction l as [|i l IH]; [done | exact IH]. Qed.

Lemma batch_loop_Some m all :
  foldl (batch_step totalSupply batchGetMetadata) (Some []) (seq 0 m) = Some all ->
  TokenMetadata.tokenId <$> all = seq 0 m ≫= tokenIds totalSupply
  /\ forall i, i < m -> is_Some (batchGetMetadata (tokenIds totalSupply i)).
Proof.
  revert all. induction m as [|m IH]; intros all.
  - intros [= <-]. split; [done | lia].
  - rewrite seq_S, foldl_snoc, Nat.add_0_l.
    destruct (foldl _ _ (seq 0 m)) as [pre|]; [|done].
    destruct (IH pre eq_refl) as [Hids Hcalls]. unfold batch_step.
    destruct (batchGetMetadata (tokenIds totalSupply m)) as [bm|] eqn:Hbm; [|done].
    intros [= <-]. split.
    + rewrite fmap_app, Hids, batchResults_tokenId, bind_app.
      change ([m] ≫= tokenIds totalSupply) with (tokenIds totalSupply m ++ []).
      by rewrite app_nil_r.
    + intros i Hi. destruct (decide (i = m)) as [->|]; [by rewrite Hbm|].
      apply Hcalls. lia.
Qed.

Lemma batch_loop_is_Some m :
  (forall i, i < m -> is_Some (batchGetMetadata (tokenIds totalSupply i))) ->
  is_Some (foldl (batch_step totalSupply batchGetMetadata) (Some []) (seq 0 m)).
Proof.
  induction m as [|m IH]; intros Hcalls; [done|].
  rewrite seq_S, foldl_snoc, Nat.add_0_l.
  destruct IH as [pre ->]; [intros; apply Hcalls; lia|].
  destruct (Hcalls m) as [bm Hbm]; [lia|].
  unfold batch_step. by rewrite Hbm.
Qed.

Lemma batchResults_pointwise (f : nat -> Z) i :
  batchResults totalSupply i (f <$> tokenIds totalSupply i)
  = (fun id => TokenMetadata.mk id (Some (Number (f id))))
      <$> tokenIds totalSupply i.
Proof.
  unfold batchResults. apply list_eq. intros j.
  rewrite list_lookup_imap, !list_lookup_fmap.
  by destruct (tokenIds totalSupply i !! j).
Qed.

Lemma Number_exact (x : Z) : (x < 2 ^ 53)%Z -> Number x = x.
Proof. intros Hx. unfold Number. by rewrite decide_True. Qed.

Lemma main_pointwise (f : nat -> Z) :
  (forall ids, batchGetMetadata ids = Some (f <$> ids)) ->
  main totalSupply batchGetMetadata
  = Some ((fun id => TokenMetadata.mk id (Some (Number (f id))))
            <$> seq 0 totalSupply).
Proof.
  intros Hanswer. rewrite <- tokenIds_all. unfold main.
  induction (totalBatches totalSupply) as [|m IH]; [done|].
  rewrite seq_S, foldl_snoc, IH, Nat.add_0_l, bind_app, fmap_app.
  unfold batch_step. rewrite Hanswer, batchResults_pointwise.
  change ([m] ≫= tokenIds totalSupply) with (tokenIds totalSupply m ++ []).
  by rewrite app_nil_r.
Qed.
End MetadataExportFacts.

(** X17. Whatever the contract answers, the metadata that the export saves
    lists the token ids 0, 1, ..., totalSupply - 1, each once and in
    order. *)
Theorem export_token_ids (totalSupply : nat)
    (batchGetMetadata : list nat -> option (list Z))
    (allMetadata : list TokenMetadata.t) :
  MetadataExport.main totalSupply batchGetMetadata = Some allMetadata ->
  TokenMetadata.tokenId <$> allMetadata = seq 0 totalSupply.
Proof.
  intros Hmain. apply batch_loop_Some in Hmain as [-> _]. apply tokenIds_all.
Qed.

(** X18. The export saves a result exactly when every batch call to the
    contract returns: one call that throws, in whichever batch, leaves no
    result at all. *)
Theorem export_all_or_nothing (totalSupply : nat)
    (batchGetMetadata : list nat -> option (list Z)) :
  is_Some (MetadataExport.main totalSupply batchGetMetadata)
  <-> forall i, i < MetadataExport.totalBatches totalSupply ->
        is_Some (batchGetMetadata (MetadataExport.tokenIds totalSupply i)).
Proof.
  split.
  - intros [all Hmain]. by apply batch_loop_Some in Hmain as [_ Hcalls].
  - apply batch_loop_is_Some.
Qed.

(** X19. Batching is transparent: when the contract answers a batch with
    the metadata id of each token asked for, the export is the list of all
    token ids below the total supply, each with its metadata id as
    [Number] renders it: the id itself when all ids are below 2^53, the
    nearest double otherwise. *)
Theorem export_pointwise (totalSupply : nat)
    (batchGetMetadata : list nat -> option (list Z)) (f : nat -> Z) :
  (forall ids, batchGetMetadata ids = Some (f <$> ids)) ->
  MetadataExport.main totalSupply batchGetMetadata
  = Some ((fun id => TokenMetadata.mk id (Some (MetadataExport.Number (f id))))
            <$> seq 0 totalSupply)
  /\ ((forall id, id < totalSupply -> (f id < 2 ^ 53)%Z) ->
      MetadataExport.main totalSupply batchGetMetadata
      = Some ((fun id => TokenMetadata.mk id (Some (f id))) <$> seq 0 totalSupply)).
Proof.
  intros Hanswer. rewrite (main_pointwise _ _ f Hanswer). split; [done|].
  intros Hsmall. f_equal. apply list_fmap_ext. intros i id Hid.
  apply lookup_seq in Hid as [-> Hi]. by rewrite Number_exact by auto.
Qed.

(** X20. The batches requested from the contract, put end to end, are the
    token ids 0, ..., totalSupply - 1; no request is empty and none asks
    for more than 1000 tokens. *)
Theorem export_requests (totalSupply : nat) :
  seq 0 (MetadataExport.totalBatches totalSupply)
    ≫= MetadataExport.tokenIds totalSupply
  = seq 0 totalSupply
  /\ Forall (fun i =>
               0 < length (MetadataExport.tokenIds totalSupply i) <= 1000)
       (seq 0 (MetadataExport.totalBatches totalSupply)).
Proof.
  split; [apply tokenIds_all|].
  apply Forall_forall. intros i Hi. apply elem_of_seq in Hi as [_ Hi].
  rewrite Nat.add_0_l in Hi. apply totalBatches_tight in Hi.
  rewrite tokenIds_slice, length_take, length_drop, length_seq.
  unfold MetadataExport.batchSize in *. lia.
Qed.

(** ** From token agreement to collection agreement *)

Lemma token_tags_nil_pair item1 item2 :
  token_tags item1 item2 = [] -> collectionPair item1 = collectionPair item2.
Proof.
  unfold token_tags, collectionPair.
  repeat case_decide; try done. intros _. by f_equal.
Qed.

Lemma findDifferences_nil_pairs (data1 data2 : list Token) :
  NoDup (FakeGotchiNFTToken.identifier <$> data1) ->
  FakeGotchiNFTToken.identifier <$> data1 = FakeGotchiNFTToken.identifier <$> data2 ->
  findDifferences data1 data2 = [] ->
  collectionPair <$> data1 = collectionPair <$> data2.
Proof.
  intros Hnd1 Hids Hnil.
  assert (NoDup (FakeGotchiNFTToken.identifier <$> data2)) as Hnd2
    by (by rewrite <- Hids).
  rewrite findDifferences_closed in Hnil by done.
  apply app_eq_nil in Hnil as [Hleft _].
  rewrite bind_nil_iff in Hleft.
  apply list_eq. intros i. rewrite !list_lookup_fmap.
  assert (FakeGotchiNFTToken.identifier <$> data1 !! i
          = FakeGotchiNFTToken.identifier <$> data2 !! i) as Hi
    by (by rewrite <- !list_lookup_fmap, Hids).
  destruct (data1 !! i) as [a|] eqn:Ha, (data2 !! i) as [b|] eqn:Hb;
    try done. simpl in *. f_equal. injection Hi as Hab.
  apply list_elem_of_lookup_2 in Ha, Hb.
  specialize (Hleft a Ha). unfold left_entry in Hleft.
  rewrite Hab, filter_identifier_unique in Hleft by done. simpl in Hleft.
  case_decide as Htags; [|done]. by apply token_tags_nil_pair.
Qed.

(** X21. When the two token lists carry the same identifiers in the same
    order, without repetition, and the token differ finds no difference, the
    collection differ finds none on the grouped lists either. *)
Theorem findDifferences_none_collections_none (data1 data2 : list Token) :
  NoDup (FakeGotchiNFTToken.identifier <$> data1) ->
  FakeGotchiNFTToken.identifier <$> data1 = FakeGotchiNFTToken.identifier <$> data2 ->
  findDifferences data1 data2 = [] ->
  findCollectionDifferences (groupIntoCollections data1) (groupIntoCollections data2)
  = Some [].
Proof.
  intros Hnd Hids Hnil. apply findCollectionDifferences_nil_iff.
  by apply groupIntoCollections_snapshots_pairs, findDifferences_nil_pairs.
Qed.

(** ** The two programs from their files *)




Lemma contractCollectionsArray_empty parseInt :
  contractCollectionsArray parseInt ∅ = [].
Proof.
  unfold contractCollectionsArray, contractCollections.
  rewrite map_to_list_empty. simpl. by rewrite map_to_list_empty.
Qed.

Lemma compareData_empty parseInt (collectionsData : list FakeGotchiCollection.t) :
  compareData parseInt ∅ collectionsData
  = if decide (Forall (fun c => FakeGotchiCollection.id c ∉ Object_prototype_keys)
                 collectionsData)
    then Some ((fun c =>
                  ContractDifference.mk (FakeGotchiCollection.id c)
                    ["missing_in_contract"]
                    (Some (SubgraphSnapshot.mk (FakeGotchiCollection.name c)
                             (FakeGotchiCollection.artistName c)
                             (FakeGotchiCollection.editions c)))
                    None)
                 <$> collectionsData)
    else None.
Proof.
  induction collectionsData as [|c l IH]; [done|].
  rewrite compareData_cons, IH. unfold compare_step. rewrite lookup_empty.
  destruct (decide (Forall _ (c :: l))) as [Hall|Hall].
  - apply Forall_cons in Hall as [Hc Hl].
    rewrite (decide_False (P := _ ∈ _)), (decide_True (P := Forall _ l)) by done.
    by simpl.
  - destruct (decide (FakeGotchiCollection.id c ∈ Object_prototype_keys));
      [by simpl|].
    destruct (decide (Forall _ l)); [|by simpl].
    exfalso. apply Hall. by apply Forall_cons.
Qed.

(** X23. With both input files in place and no collection id that is a
    property name inherited from [Object.prototype] (the ids written by the
    subgraph program are decimal numerals), the contract program reports no
    error and leaves the same output whatever the contract answers: empty
    contract metadata, no contract collection, every collection reported as
    [missing_in_contract] with its name, artist and edition count, and in
    the aggregated report one [missing_in_contract] record with a null
    contract side for every distinct collection id, in order of first
    appearance.  The input files are not touched. *)
Theorem contract_main_outputs (TokenData : Type) (parseInt : string -> Z)
    (getMetadata : string -> string + ContractMetadata.t)
    (files0 : ContractMain.Files TokenData)
    (subgraphData : list TokenData)
    (collectionsData : list FakeGotchiCollection.t) :
  ContractMain.subgraph1_data TokenData files0 = Some subgraphData ->
  ContractMain.subgraph1_collections TokenData files0 = Some collectionsData ->
  Forall (fun c => FakeGotchiCollection.id c ∉ Object_prototype_keys)
    collectionsData ->
  exists aggregatedDifferences,
    ContractMain.main TokenData parseInt getMetadata files0
    = (ContractMain.mkFiles TokenData (Some subgraphData) (Some collectionsData)
         (Some ∅) (Some [])
         (Some ((fun c =>
                   ContractDifference.mk (FakeGotchiCollection.id c)
                     ["missing_in_contract"]
                     (Some (SubgraphSnapshot.mk (FakeGotchiCollection.name c)
                              (FakeGotchiCollection.artistName c)
                              (FakeGotchiCollection.editions c)))
                     None)
                  <$> collectionsData))
         (Some aggregatedDifferences),
       None)
    /\ (fun r => (ContractDifference.id r, ContractDifference.differences r,
                  ContractDifference.contract r))
         <$> aggregatedDifferences
       = (fun id => (id, ["missing_in_contract"], None))
           <$> first_seen (FakeGotchiCollection.id <$> collectionsData)
    /\ Forall (fun r => is_Some (ContractDifference.subgraph r))
         aggregatedDifferences.
Proof.
  intros Hdata Hcollections Hown.
  exists (compareCollectionData parseInt
            (fetchContractMetadata getMetadata collectionsData) collectionsData).
  split_and!.
  - unfold ContractMain.main, ContractMain.loadCollectionsData,
      ContractMain.loadSubgraphData.
    rewrite Hdata, Hcollections.
    unfold fetchContractMetadata. rewrite fetch_batches_contractData.
    rewrite compareData_empty, decide_True by done.
    unfold ContractMain.save_contract_collection_aggregated_differences,
      ContractMain.save_contract_collections,
      ContractMain.save_contract_collection_differences,
      ContractMain.save_contract_metadata. simpl.
    by rewrite Hdata, Hcollections, contractCollectionsArray_empty.
  - rewrite compareCollectionData_fetched, <- list_fmap_compose.
    by apply list_fmap_ext.
  - rewrite compareCollectionData_fetched. apply Forall_fmap, Forall_forall.
    intros id Hid. simpl.
    apply first_seen_elem_of, list_elem_of_fmap in Hid as (c & -> & Hc).
    destruct (last _) eqn:Hlast; [done|]. apply last_None in Hlast.
    assert (c ∈ filter (fun c' => FakeGotchiCollection.id c'
                                  = FakeGotchiCollection.id c) collectionsData) as Hf
      by (by apply list_elem_of_filter).
    rewrite Hlast in Hf. by apply elem_of_nil in Hf.
Qed.

(** X24. The contract program completes without an error exactly when both
    input files exist and no collection id is a property name inherited from
    [Object.prototype].  When an input file is missing it reports that file
    (the collections file first) and writes nothing; when an id is an
    inherited name, [compareData] throws, and the program has written the
    (empty) contract metadata and nothing else. *)
Theorem contract_main_needs_inputs (TokenData : Type) (parseInt : string -> Z)
    (getMetadata : string -> string + ContractMetadata.t)
    (files0 : ContractMain.Files TokenData) :
  ((ContractMain.main TokenData parseInt getMetadata files0).2 = None
   <-> (exists collectionsData,
          ContractMain.subgraph1_collections TokenData files0 = Some collectionsData
          /\ Forall (fun c => FakeGotchiCollection.id c ∉ Object_prototype_keys)
               collectionsData)
       /\ is_Some (ContractMain.subgraph1_data TokenData files0))
  /\ (ContractMain.subgraph1_collections TokenData files0 = None ->
      ContractMain.main TokenData parseInt getMetadata files0
      = (files0,
         Some (ContractMain.MissingFile
                 "Collections data file does not exist. Run subgraph-comparison.ts first.")))
  /\ (is_Some (ContractMain.subgraph1_collections TokenData files0) ->
      ContractMain.subgraph1_data TokenData files0 = None ->
      ContractMain.main TokenData parseInt getMetadata files0
      = (files0,
         Some (ContractMain.MissingFile
                 "Subgraph data file does not exist. Run subgraph-comparison.ts first.")))
  /\ (forall collectionsData,
        ContractMain.subgraph1_collections TokenData files0 = Some collectionsData ->
        is_Some (ContractMain.subgraph1_data TokenData files0) ->
        ~ Forall (fun c => FakeGotchiCollection.id c ∉ Object_prototype_keys)
            collectionsData ->
        ContractMain.main TokenData parseInt getMetadata files0
        = (ContractMain.save_contract_metadata TokenData ∅ files0,
           Some ContractMain.TypeError)).
Proof.
  unfold ContractMain.main, ContractMain.loadCollectionsData,
    ContractMain.loadSubgraphData, fetchContractMetadata.
  destruct (ContractMain.subgraph1_collections TokenData files0) as [cs|].
  2:{ split_and!; try done; try (by intros [? ?]).
      split; [done|]. by intros [(? & ? & _) _]. }
  destruct (ContractMain.subgraph1_data TokenData files0) as [ts|].
  2:{ split_and!; try done; try (by intros ? _ [? ?]).
      split; [done|]. by intros [_ [? ?]]. }
  rewrite fetch_batches_contractData, compareData_empty.
  destruct (decide (Forall _ cs)) as [Hown|Hinherited]; simpl.
  - split_and!; try done; try (by intros ? [= <-] _ ?).
    split; [intros _; split; [by exists cs | done] | done].
  - split_and!; try done; try (by intros ? [= <-] _ _).
    split; [done|]. intros [(cs' & [= <-] & ?) _]. done.
Qed.

(** ** The further properties at concrete inputs *)

(** X1 at [cat; dog; cat']: the first collection is that of [cat] and
    [cat']. *)
Lemma groupIntoCollections_members_witness :
  exists first rest,
    filter (fun token => collectionKey token
                         = collection_key (Collection.mk "1" "Cat" "Bob" 2 ["1"; "3"]))
      [cat; dog; cat']
      = first :: rest
    /\ "Cat" = FakeGotchiNFTToken.name first
    /\ "Bob" = FakeGotchiNFTToken.artistName first
    /\ ["1"; "3"] = FakeGotchiNFTToken.identifier <$> first :: rest
    /\ 2%Z = Z.of_nat (S (length rest)).
Proof.
  apply (groupIntoCollections_members [cat; dog; cat'] 0
           (Collection.mk "1" "Cat" "Bob" 2 ["1"; "3"])).
  vm_compute. reflexivity.
Defined.

(** X5 at [cat; dog; cat'] and its rotation [dog; cat'; cat]. *)
Lemma groupIntoCollections_Permutation_witness :
  (fun c => (collection_key c, Collection.editions c))
    <$> groupIntoCollections [cat; dog; cat']
  ≡ₚ (fun c => (collection_key c, Collection.editions c))
       <$> groupIntoCollections ([dog; cat'] ++ [cat])
  /\ forall c c',
       c ∈ groupIntoCollections [cat; dog; cat'] ->
       c' ∈ groupIntoCollections ([dog; cat'] ++ [cat]) ->
       collection_key c = collection_key c' ->
       Collection.tokenIds c ≡ₚ Collection.tokenIds c'.
Proof.
  apply (groupIntoCollections_Permutation [cat; dog; cat'] ([dog; cat'] ++ [cat])).
  apply Permutation_cons_append.
Defined.

(** X6 at [cat; owl] against a [cat] with three editions and [dog]. *)
Lemma findDifferences_unique_ids_witness :
  findDifferences [cat; owl] [FakeGotchiNFTToken.mk "0x1" "1" "Cat" "Bob" 3; dog]
  = [Difference.mk "1" ["editions"]
       (Some (TokenSnapshot.mk "Cat" "Bob" 2 "1"))
       (Some (TokenSnapshot.mk "Cat" "Bob" 3 "1"));
     Difference.mk "4" ["missing_in_prod"]
       (Some (TokenSnapshot.mk "Owl" "Eve" 1 "4")) None;
     Difference.mk "2" ["missing_in_subgraph1"] None
       (Some (TokenSnapshot.mk "Dog" "Ann" 1 "2"))].
Proof.
  rewrite (findDifferences_unique_ids [cat; owl]
             [FakeGotchiNFTToken.mk "0x1" "1" "Cat" "Bob" 3; dog]);
    [by vm_compute | compute_done | compute_done].
Defined.

(** X7 at [cat; dog]. *)
Lemma findDifferences_same_witness : findDifferences [cat; dog] [cat; dog] = [].
Proof. apply (findDifferences_same [cat; dog]). compute_done. Defined.

(** X10 at [cat; dog] and [cat'; dog], which differ in identifiers only. *)
Lemma findCollectionDifferences_same_pairs_witness :
  findCollectionDifferences (groupIntoCollections [cat; dog])
    (groupIntoCollections [cat'; dog]) = Some [].
Proof.
  apply (findCollectionDifferences_same_pairs [cat; dog] [cat'; dog]).
  reflexivity.
Defined.

(** X14 at two collections, the contract counting three editions of the
    first and holding nothing for the second. *)
Lemma compareData_agrees_with_keyed_witness :
  ContractDifference.differences
    <$> filter (fun r => ContractDifference.id r = "1")
          [ContractDifference.mk "1" ["editions"]
             (Some (SubgraphSnapshot.mk "Cat" "Bob" 2))
             (Some (ContractSnapshot.mk "Cat" "Bob" "3" "1"));
           ContractDifference.mk "2" ["missing_in_contract"]
             (Some (SubgraphSnapshot.mk "Dog" "Ann" 1)) None]
  = ContractDifference.differences
      <$> filter (fun r => ContractDifference.id r = "1")
            (compareCollectionData parseInt_decimal
               (<["1" := ContractMetadata.mk "Cat" "Bob" 3 1]> ∅)
               [FakeGotchiCollection.mk "1" "Cat" "Bob" 2;
                FakeGotchiCollection.mk "2" "Dog" "Ann" 1]).
Proof.
  apply (compareData_agrees_with_keyed parseInt_decimal
           (<["1" := ContractMetadata.mk "Cat" "Bob" 3 1]> ∅)
           [FakeGotchiCollection.mk "1" "Cat" "Bob" 2;
            FakeGotchiCollection.mk "2" "Dog" "Ann" 1]
           (FakeGotchiCollection.mk "1" "Cat" "Bob" 2));
    [compute_done | repeat constructor | done | by vm_compute].
Defined.

(** X17 at a supply of three tokens, the contract answering each token
    with its own number. *)
Lemma export_token_ids_witness :
  TokenMetadata.tokenId
    <$> [TokenMetadata.mk 0 (Some 0%Z); TokenMetadata.mk 1 (Some 1%Z);
         TokenMetadata.mk 2 (Some 2%Z)]
  = seq 0 3.
Proof.
  apply (export_token_ids 3 (fun ids => Some (Z.of_nat <$> ids))).
  vm_compute. reflexivity.
Defined.

(** X19 at a supply of two tokens whose metadata id is 2^53 + 1: the
    export holds 2^53. *)
Lemma export_pointwise_witness :
  MetadataExport.main 2 (fun ids => Some ((fun _ => 9007199254740993%Z) <$> ids))
  = Some [TokenMetadata.mk 0 (Some 9007199254740992%Z);
          TokenMetadata.mk 1 (Some 9007199254740992%Z)].
Proof.
  destruct (export_pointwise 2
              (fun ids => Some ((fun _ => 9007199254740993%Z) <$> ids))
              (fun _ => 9007199254740993%Z)) as [Hmain _];
    [intros ids; reflexivity|].
  rewrite Hmain. by vm_compute.
Defined.

(** X21 at [cat; dog] against the same tokens under other entity ids. *)
Lemma findDifferences_none_collections_none_witness :
  findCollectionDifferences (groupIntoCollections [cat; dog])
    (groupIntoCollections [FakeGotchiNFTToken.mk "0x9" "1" "Cat" "Bob" 2; dog])
  = Some [].
Proof.
  apply (findDifferences_none_collections_none [cat; dog]
           [FakeGotchiNFTToken.mk "0x9" "1" "Cat" "Bob" 2; dog]);
    [compute_done | reflexivity | vm_compute; reflexivity].
Defined.

(** X23 at two collections and a contract that answers every read. *)
Lemma contract_main_outputs_witness :
  exists aggregatedDifferences,
    ContractMain.main unit parseInt_decimal
      (fun _ => inr (ContractMetadata.mk "Cat" "Bob" 2 1))
      (ContractMain.mkFiles unit (Some [tt; tt; tt])
         (Some [FakeGotchiCollection.mk "1" "Cat" "Bob" 2;
                FakeGotchiCollection.mk "2" "Dog" "Ann" 1])
         None None None None)
    = (ContractMain.mkFiles unit (Some [tt; tt; tt])
         (Some [FakeGotchiCollection.mk "1" "Cat" "Bob" 2;
                FakeGotchiCollection.mk "2" "Dog" "Ann" 1])
         (Some ∅) (Some [])
         (Some ((fun c =>
                   ContractDifference.mk (FakeGotchiCollection.id c)
                     ["missing_in_contract"]
                     (Some (SubgraphSnapshot.mk (FakeGotchiCollection.name c)
                              (FakeGotchiCollection.artistName c)
                              (FakeGotchiCollection.editions c)))
                     None)
                  <$> [FakeGotchiCollection.mk "1" "Cat" "Bob" 2;
                       FakeGotchiCollection.mk "2" "Dog" "Ann" 1]))
         (Some aggregatedDifferences),
       None)
    /\ (fun r => (ContractDifference.id r, ContractDifference.differences r,
                  ContractDifference.contract r))
         <$> aggregatedDifferences
       = (fun id => (id, ["missing_in_contract"], None))
           <$> first_seen
                 (FakeGotchiCollection.id
                    <$> [FakeGotchiCollection.mk "1" "Cat" "Bob" 2;
                         FakeGotchiCollection.mk "2" "Dog" "Ann" 1])
    /\ Forall (fun r => is_Some (ContractDifference.subgraph r))
         aggregatedDifferences.
Proof.
  apply (contract_main_outputs unit parseInt_decimal);
    [reflexivity | reflexivity | compute_done].
Defined.
